(** * Barriers-in-C++: a shallow embedding of the barrier library and its
      benchmark suite

    The development follows the C++ sources.  Part I holds the
    definitions:

    - [delay.hpp] and [atomic_backoff.hpp]: module [Backoff];
    - [centralized_sense_reversing_barrier.hpp]: module [Centralized];
    - [static_tree_barrier.hpp]: module [StaticTree];
    - [static_tree_barrier_global_departure.hpp]: module [GlobalDeparture];
    - the tree builders of [intel_i7_benchmark_suite.cpp]: modules
      [StaticTree] and [GlobalDeparture] (the [static_tree_*_layout_*]
      functions) and module [Topology] (the shapes they produce);
    - [meanconf.hpp] and [meanconf.cpp]: module [Meanconf].

    Part II holds the theorems, module by module ([BackoffFacts],
    [CentralizedFacts],
    [StaticTreeFacts], [GlobalDepartureFacts], [TopologyFacts],
    [MeanconfFacts]), and [Episodes] for what the three barriers have in
    common.

    Atomic cells are modelled under sequential consistency: every atomic
    operation is one step of one thread on the shared store, and the
    [std::memory_order] argument written in the source is recorded in the
    event the step emits.  Threads interleave according to an explicit
    schedule. *)

From Stdlib Require Import ZArith List Bool Lia.
From Stdlib Require Import QArith PrimFloat Uint63.
From stdpp Require Import base numbers option list.

Close Scope Q_scope.

Set Default Proof Using "Type".
Local Open Scope Z_scope.

(** * Part I: definitions *)

(** ** Memory orders and interleavings *)

(** [std::memory_order], as used by the three barriers. *)
Inductive memory_order :=
| memory_order_relaxed
| memory_order_acquire
| memory_order_release
| memory_order_acq_rel
| memory_order_seq_cst.

#[global] Instance memory_order_eq_dec : EqDecision memory_order.
Proof. solve_decision. Defined.

Section Interleaving.
Context {state event : Type}.

(** [step i s]: thread [i] performs its next atomic action in [s]; [None]
    when thread [i] cannot move (it does not exist, it has left its
    loop, or it would dereference a dangling pointer). *)
Variable step : nat → state → option (event * state).

(** Run the threads in the order given by the schedule, collecting the
    events with the thread that emitted each. *)
Fixpoint exec (sched : list nat) (s : state)
  : option (list (nat * event) * state) :=
  match sched with
  | [] => Some ([], s)
  | i :: sched' =>
      match step i s with
      | Some (e, s1) =>
          match exec sched' s1 with
          | Some (tr, s2) => Some ((i, e) :: tr, s2)
          | None => None
          end
      | None => None
      end
  end.

(** The events of thread [i] in a trace, in program order. *)
Fixpoint events_of (i : nat) (tr : list (nat * event)) : list event :=
  match tr with
  | [] => []
  | (j, e) :: tr' =>
      if decide (j = i) then e :: events_of i tr' else events_of i tr'
  end.

(** Sense alternation along the executions from [s0], where
    [participants] gives the local sense of every participant and the
    number of calls of [await] it has returned from: in every state
    reached the local sense is the parity of that number, and two calls
    later it is what it was. *)
Definition alternates (participants : state → list (bool * nat))
    (s0 : state) : Prop :=
  ∀ sched tr st,
    exec sched s0 = Some (tr, st) →
    (∀ i ls k, participants st !! i = Some (ls, k) → ls = Nat.odd k) ∧
    (∀ sched' tr' st' i ls k ls',
       exec sched' st = Some (tr', st') →
       participants st !! i = Some (ls, k) →
       participants st' !! i = Some (ls', (k + 2)%nat) → ls' = ls).
End Interleaving.

(** Counting the elements of a list that a 0/1-valued function marks. *)
Definition count_marked {A : Type} (f : A → nat) (l : list A) : nat :=
  list_sum (map f l).

(** ** The pause loop and the backoff policies *)

Module Backoff.


(** [std::size_t] is 64 bits wide on the target, and wraps. *)
Definition size_t_wrap (z : Z) : Z := z mod 2 ^ 64.







(** [backoff_base::reset]. *)
Definition reset (tries : Z) : Z := 1.


End Backoff.

(** ** The centralized sense-reversing barrier *)

Module Centralized.

(** [size_type] is [unsigned int]: 32 bits, wrapping. *)
Definition size_type_wrap (z : Z) : Z := z mod 2 ^ 32.

(** The data members [counter], [sense] and [num_threads] (the padding
    arrays carry no state). *)
Record barrier := mk_barrier {
  counter : Z;
  sense : bool;
  num_threads : Z
}.

(** The constructor: [counter{0}, sense{true}, num_threads{n}]. *)
Definition construct (n : Z) : barrier := mk_barrier 0 true n.

(** The header holds four definitions of [await].  They have one control
    structure and differ in the memory orders and in the two loads
    written only to synchronise, so one record describes each: the order
    of every atomic operation ([None] where the variant has no such
    operation). *)
Record await_variant := mk_variant {
  fetch_add_order : memory_order;
  releaser_sync : option memory_order;
  reset_order : memory_order;
  signal_order : memory_order;
  spin_order : memory_order;
  waiter_sync : option memory_order
}.

(** First definition: release on arrival, relaxed spin, acquire to
    synchronise. *)
Definition await_release_acquire : await_variant :=
  mk_variant memory_order_release (Some memory_order_acquire)
    memory_order_relaxed memory_order_release
    memory_order_relaxed (Some memory_order_acquire).

(** Second definition, "the seq-cst version": no order is written, so
    every operation takes the default [memory_order_seq_cst]. *)
Definition await_seq_cst : await_variant :=
  mk_variant memory_order_seq_cst None
    memory_order_seq_cst memory_order_seq_cst
    memory_order_seq_cst (Some memory_order_seq_cst).

(** Third definition: [acq_rel] on arrival and an acquire spin. *)
Definition await_acq_rel : await_variant :=
  mk_variant memory_order_acq_rel None
    memory_order_relaxed memory_order_release
    memory_order_acquire None.

(** Fourth definition, "version that avoids hardware prefetching". *)
Definition await_no_prefetch : await_variant :=
  mk_variant memory_order_release (Some memory_order_acquire)
    memory_order_relaxed memory_order_release
    memory_order_relaxed (Some memory_order_acquire).

Definition await_variants : list await_variant :=
  [await_release_acquire; await_seq_cst; await_acq_rel; await_no_prefetch].

(** Modelled from the spec: the benchmark includes
    [centralized_sense_reversing_barrier.hpp] and calls [barrier.await()];
    that header is not among the sources, which hold its editor backup,
    where each of the four definitions is between [#if 0] and [#endif].
    The description names the release/relaxed/acquire form as the one in
    use. *)
Definition active_await : await_variant := await_release_acquire.

(** Where a thread stands: outside [await] (in the loop of [thread_job]),
    or before one of the statements of [await]. *)
Inductive pc :=
| outside
| at_fetch_add      (* counter.fetch_add(1, ...) *)
| at_releaser_sync  (* counter.load(...), last arriver *)
| at_reset          (* counter.store(0, ...) *)
| at_signal         (* sense.store(local_sense, ...) *)
| at_spin           (* while (sense.load(...) != local_sense) *)
| at_waiter_sync    (* sense.load(...) after the loop *)
| at_flip.          (* local_sense = !local_sense *)

#[global] Instance pc_eq_dec : EqDecision pc.
Proof. solve_decision. Defined.

(** A thread: its position, its [thread_local] [local_sense], and the
    number of calls of [await] it has returned from. *)
Record worker := mk_worker {
  at_pc : pc;
  local_sense : bool;
  completed : nat
}.

Inductive event :=
| call_await
| counter_fetch_add (o : memory_order) (pre_arrived : Z)
| counter_load (o : memory_order) (v : Z)
| counter_store (o : memory_order) (v : Z)
| sense_load (o : memory_order) (v : bool)
| sense_store (o : memory_order) (v : bool)
| local_sense_flip (v : bool).

Definition releaser_entry (v : await_variant) : pc :=
  match releaser_sync v with Some _ => at_releaser_sync | None => at_reset end.

Definition waiter_exit (v : await_variant) : pc :=
  match waiter_sync v with Some _ => at_waiter_sync | None => at_flip end.

(** The barrier object and the threads that use it. *)
Record state := mk_state {
  bar : barrier;
  workers : list worker
}.

Section Await.
Variable v : await_variant.
(** The bound of the loop of [thread_job]. *)
Variable num_episodes : nat.

(** One atomic action of a thread. *)
Definition worker_step (b : barrier) (w : worker)
  : option (event * barrier * worker) :=
  let ls := local_sense w in
  let goto p := mk_worker p ls (completed w) in
  match at_pc w with
  | outside =>
      (* thread_job: work(); barrier.await(); *)
      if decide (completed w < num_episodes)%nat
      then Some (call_await, b, goto at_fetch_add) else None
  | at_fetch_add =>
      let pre_arrived := counter b in
      Some (counter_fetch_add (fetch_add_order v) pre_arrived,
            mk_barrier (size_type_wrap (pre_arrived + 1)) (sense b)
              (num_threads b),
            goto (if decide (size_type_wrap (pre_arrived + 1)
                             = num_threads b)
                  then releaser_entry v else at_spin))
  | at_releaser_sync =>
      o ← releaser_sync v;
      Some (counter_load o (counter b), b, goto at_reset)
  | at_reset =>
      Some (counter_store (reset_order v) 0,
            mk_barrier 0 (sense b) (num_threads b), goto at_signal)
  | at_signal =>
      Some (sense_store (signal_order v) ls,
            mk_barrier (counter b) ls (num_threads b), goto at_flip)
  | at_spin =>
      Some (sense_load (spin_order v) (sense b), b,
            goto (if decide (sense b = ls)
                  then waiter_exit v else at_spin))
  | at_waiter_sync =>
      o ← waiter_sync v;
      Some (sense_load o (sense b), b, goto at_flip)
  | at_flip =>
      Some (local_sense_flip (negb ls), b,
            mk_worker outside (negb ls) (S (completed w)))
  end.

Definition step (i : nat) (s : state) : option (event * state) :=
  w ← workers s !! i;
  '(e, b, w') ← worker_step (bar s) w;
  Some (e, mk_state b (<[i := w']> (workers s))).
End Await.

(** The local sense of every thread and the calls it has returned from. *)
Definition participants (st : state) : list (bool * nat) :=
  (λ w, (local_sense w, completed w)) <$> workers st.

(** Modelled from the spec: the definition of the [thread_local static]
    member [local_sense] (in [centralized_sense_reversing_barrier.cpp])
    is not among the sources; the local sense starts as [false]. *)
Definition initial_worker : worker := mk_worker outside false 0.

(** A barrier constructed for [n] threads, and [n] threads that have not
    called [await] yet. *)
Definition initial (n : nat) : state :=
  mk_state (construct (Z.of_nat n)) (replicate n initial_worker).

(** One episode of four threads: all call and arrive in turn, thread 3
    arriving last; it releases the others, and all leave. *)
Definition four_thread_episode : list nat :=
  [0; 1; 2; 3; 0; 1; 2; 0; 3; 3; 3; 3; 0; 1; 2; 0; 1; 2; 0; 1; 2; 3]%nat.

(** *** What one call of [await] does *)

(** The events of the last arriver after its [fetch_add]. *)
Definition releaser_tail (v : await_variant) (ls : bool) : list event :=
  [counter_store (reset_order v) 0; sense_store (signal_order v) ls;
   local_sense_flip (negb ls)].

Definition releaser_events (v : await_variant) (ls : bool)
    (evs : list event) : Prop :=
  match releaser_sync v with
  | Some o => ∃ c, evs = counter_load o c :: releaser_tail v ls
  | None => evs = releaser_tail v ls
  end.

(** The events of a waiter once its spin loop has read [local_sense]. *)
Definition after_spin (v : await_variant) (ls : bool)
    (evs : list event) : Prop :=
  match waiter_sync v with
  | Some o => ∃ b, evs = [sense_load o b; local_sense_flip (negb ls)]
  | None => evs = [local_sense_flip (negb ls)]
  end.

(** The events of a waiter after its [fetch_add]: [k] loads of the spin
    loop that read the other value, the load that reads [local_sense], and
    what follows the loop. *)
Definition waiter_events (v : await_variant) (ls : bool)
    (evs : list event) : Prop :=
  ∃ k tail,
    evs = repeat (sense_load (spin_order v) (negb ls)) k
          ++ sense_load (spin_order v) ls :: tail ∧
    after_spin v ls tail.

(** The events a thread still emits before it returns from [await], by
    its position. *)
Definition rest_of_await (v : await_variant) (n : Z) (ls : bool) (p : pc)
    (evs : list event) : Prop :=
  match p with
  | outside => evs = []
  | at_fetch_add =>
      ∃ pre_arrived tail,
        evs = counter_fetch_add (fetch_add_order v) pre_arrived :: tail ∧
        if decide (size_type_wrap (pre_arrived + 1) = n)
        then releaser_events v ls tail else waiter_events v ls tail
  | at_releaser_sync =>
      ∃ o c, releaser_sync v = Some o ∧
             evs = counter_load o c :: releaser_tail v ls
  | at_reset => evs = releaser_tail v ls
  | at_signal =>
      evs = [sense_store (signal_order v) ls; local_sense_flip (negb ls)]
  | at_spin => waiter_events v ls evs
  | at_waiter_sync =>
      ∃ o b, waiter_sync v = Some o ∧
             evs = [sense_load o b; local_sense_flip (negb ls)]
  | at_flip => evs = [local_sense_flip (negb ls)]
  end.

(** Calls and returns of a thread so far: even outside [await]. *)
Definition stamp (w : worker) : nat :=
  match at_pc w with
  | outside => 2 * completed w
  | _ => 2 * completed w + 1
  end.

(** The stamp of a thread when it is next outside [await]. *)
Definition next_outside (w : worker) : nat :=
  match at_pc w with
  | outside => 2 * completed w
  | _ => 2 * completed w + 2
  end.

Definition sense_at_return (w : worker) : bool :=
  match at_pc w with
  | outside => local_sense w
  | _ => negb (local_sense w)
  end.

(** The events of one call of the release/relaxed/acquire [await] by a
    thread whose local sense is [ls], on a barrier for [n] threads. *)
Definition await_events (n : Z) (ls : bool) (evs : list event) : Prop :=
  ∃ pre_arrived body,
    evs = counter_fetch_add memory_order_release pre_arrived :: body
          ++ [local_sense_flip (negb ls)] ∧
    if decide (size_type_wrap (pre_arrived + 1) = n)
    then ∃ c, body = [counter_load memory_order_acquire c;
                      counter_store memory_order_relaxed 0;
                      sense_store memory_order_release ls]
    else ∃ k b, body = repeat (sense_load memory_order_relaxed (negb ls)) k
                       ++ [sense_load memory_order_relaxed ls;
                           sense_load memory_order_acquire b].

(** What an event does to the barrier object: a load and a [fetch_add]
    return the value of their cell; a store and a [fetch_add] change
    their cell and nothing else. *)
Definition memory_effect (e : event) (b b' : barrier) : Prop :=
  match e with
  | call_await | local_sense_flip _ => b' = b
  | counter_fetch_add _ pre_arrived =>
      pre_arrived = counter b ∧
      b' = mk_barrier (size_type_wrap (pre_arrived + 1)) (sense b)
             (num_threads b)
  | counter_load _ x => x = counter b ∧ b' = b
  | counter_store _ x => b' = mk_barrier x (sense b) (num_threads b)
  | sense_load _ x => x = sense b ∧ b' = b
  | sense_store _ x => b' = mk_barrier (counter b) x (num_threads b)
  end.

(** Two threads, thread 0 already inside [await]; under [two_thread_sched]
    thread 1 arrives last and releases thread 0, which spins once in
    vain. *)
Definition two_thread_state : state :=
  mk_state (construct 2)
    [mk_worker at_fetch_add false 0; mk_worker outside false 0].

Definition two_thread_sched : list nat :=
  [0; 1; 1; 0; 1; 1; 1; 0; 0; 0; 1]%nat.

(** *** Episodes *)

(** Positions before the sense of the current episode is written, as seen
    by the thread: it has not arrived, or it is the last arriver. *)
Definition before_release (p : pc) : Prop :=
  p = outside ∨ p = at_fetch_add ∨ p = at_releaser_sync ∨ p = at_reset ∨
  p = at_signal.

(** Positions of a thread that has seen or written the sense of its
    episode. *)
Definition after_release (p : pc) : Prop :=
  p = at_waiter_sync ∨ p = at_flip.

(** The positions of the last arriver before it has written the sense. *)
Definition releasing (p : pc) : Prop :=
  p = at_releaser_sync ∨ p = at_reset ∨ p = at_signal.

(** The threads whose arrival the counter still counts, the sense being
    [s]: those that spin for the other value, and the last arriver until
    it resets the counter. *)
Definition counted (s : bool) (w : worker) : nat :=
  match at_pc w with
  | at_spin => if decide (local_sense w = s) then 0 else 1
  | at_releaser_sync | at_reset => 1
  | _ => 0
  end.

Definition worker_ok (s : bool) (w : worker) : Prop :=
  local_sense w = Nat.odd (completed w) ∧
  (before_release (at_pc w) → local_sense w = negb s) ∧
  (after_release (at_pc w) → local_sense w = s).

(** The invariant of the barrier. *)
Record episode_inv (st : state) : Prop := mk_episode_inv {
  inv_threads : num_threads (bar st) = Z.of_nat (length (workers st));
  inv_small : num_threads (bar st) < 2 ^ 32;
  inv_workers :
    ∀ i w, workers st !! i = Some w → worker_ok (sense (bar st)) w;
  inv_alone :
    ∀ i w j w', workers st !! i = Some w → releasing (at_pc w) →
      workers st !! j = Some w' → j ≠ i →
      at_pc w' = at_spin ∧ local_sense w' = negb (sense (bar st));
  inv_count :
    (∃ i w, workers st !! i = Some w ∧ at_pc w = at_signal) ∧
    counter (bar st) = 0 ∨
    (∀ i w, workers st !! i = Some w → at_pc w ≠ at_signal) ∧
    counter (bar st)
    = Z.of_nat (count_marked (counted (sense (bar st))) (workers st))
}.

(** The state between two episodes: every thread is outside [await] and
    has returned from [k] calls. *)
Definition between_episodes (k : nat) (st : state) : Prop :=
  ∀ i w, workers st !! i = Some w → at_pc w = outside ∧ completed w = k.

(** *** Synchronisation *)

(** The writes of the sense a thread has taken part in: the calls of
    [await] it has returned from, and its current call once the sense
    holds its local sense. *)
Definition episodes_seen (s : bool) (w : worker) : nat :=
  completed w + (if decide (local_sense w = s) then 1 else 0).

(** All threads are in the same episode. *)
Definition in_step (st : state) : Prop :=
  ∃ e, ∀ i w, workers st !! i = Some w → episodes_seen (sense (bar st)) w = e.

(** Inside [await], past the arrival: in the spin loop or after it. *)
Definition past_arrival (p : pc) : Prop :=
  p = at_spin ∨ p = at_waiter_sync ∨ p = at_flip.

(** The state the threads of [run_experiment_centralized_sense_reversing_barrier]
    can reach from the start, and the trace that leads there. *)
Definition reaches (v : await_variant) (num_episodes n : nat)
    (tr : list (nat * event)) (st : state) : Prop :=
  ∃ sched, exec (step v num_episodes) sched (initial n) = Some (tr, st).

(** No thread is in the spin loop or after it. *)
Definition never_waits (st : state) : Prop :=
  ∀ i w, workers st !! i = Some w →
    at_pc w ≠ at_spin ∧ at_pc w ≠ at_waiter_sync.

(** *** Progress *)

(** A thread that is still in the loop of [thread_job]. *)
Definition in_loop (num_episodes : nat) (w : worker) : Prop :=
  at_pc w ≠ outside ∨ (completed w < num_episodes)%nat.

#[global] Instance in_loop_dec num_episodes w :
  Decision (in_loop num_episodes w).
Proof. unfold in_loop. apply _. Defined.

(** Every thread has left the loop of [thread_job]. *)
Definition all_finished (num_episodes : nat) (st : state) : Prop :=
  ∀ i w, workers st !! i = Some w →
    at_pc w = outside ∧ completed w = num_episodes.

(** How far a thread is in its loop: seven positions a call, the last
    arriver and the others on two paths from the [fetch_add] to the
    flip. *)
Definition rank (p : pc) : nat :=
  match p with
  | outside => 0
  | at_fetch_add => 1
  | at_releaser_sync | at_spin => 2
  | at_reset => 3
  | at_signal => 4
  | at_waiter_sync => 5
  | at_flip => 6
  end.

Definition advance (w : worker) : nat := 7 * completed w + rank (at_pc w).

(** A thread whose next step, if it has one, changes nothing: it has
    left the loop of [thread_job], or it is in the spin loop and the
    sense [s] is not the value it waits for. *)
Definition blocked (num_episodes : nat) (s : bool) (w : worker) : Prop :=
  at_pc w = outside ∧ ¬ (completed w < num_episodes)%nat ∨
  at_pc w = at_spin ∧ local_sense w ≠ s.

#[global] Instance blocked_dec num_episodes s w :
  Decision (blocked num_episodes s w).
Proof. unfold blocked. apply _. Defined.

(** What the threads keep true besides the invariant of the barrier: a
    thread is at one of the two loads written only to synchronise only
    in a variant that has that load; a thread inside [await] has calls
    left to return from; and when the counter holds the number of
    threads, the last arriver has not reset it yet. *)
Record live_inv (v : await_variant) (num_episodes : nat) (st : state)
    : Prop := mk_live_inv {
  li_threads : num_threads (bar st) ≠ 0;
  li_sync : ∀ i w, workers st !! i = Some w →
    (at_pc w = at_releaser_sync → is_Some (releaser_sync v)) ∧
    (at_pc w = at_waiter_sync → is_Some (waiter_sync v));
  li_bound : ∀ i w, workers st !! i = Some w →
    (completed w ≤ num_episodes)%nat ∧
    (at_pc w ≠ outside → (completed w < num_episodes)%nat);
  li_last :
    counter (bar st) = num_threads (bar st) →
    ∃ i w, workers st !! i = Some w ∧
           (at_pc w = at_releaser_sync ∨ at_pc w = at_reset)
}.

End Centralized.

(** ** What the two tree barriers share *)

(** The atomic cells of the tree barriers.  A pointer to a cell is modelled
    by the place of the cell: [&nodes[p]->arrival_children_flag[k]] is
    [(p, k)], and [&nodes[c]->sense] is [c]. *)
Inductive cell :=
| arrival_flag (owner slot : nat) (* nodes[owner]->arrival_children_flag[slot].flag *)
| node_sense (owner : nat)        (* nodes[owner]->sense *)
| global_sense.                   (* static_tree_barrier_global_departure::sense *)

#[global] Instance cell_eq_dec : EqDecision cell.
Proof. solve_decision. Defined.

Inductive tree_event :=
| tree_call
| tree_load (c : cell) (o : memory_order) (v : bool)
| tree_store (c : cell) (o : memory_order) (v : bool)
| tree_flip (v : bool).

(** The cell an event reads or writes. *)
Definition touches (c : cell) (e : tree_event) : Prop :=
  match e with
  | tree_load c' _ _ | tree_store c' _ _ => c' = c
  | _ => False
  end.


(** The numbered steps of the description of [await], as a list of
    instructions to be performed in order by a node whose local sense is
    [ls]:
    - [spin_on c]: load [c] relaxed until it equals [ls];
    - [sync_on c]: load [c] once with acquire;
    - [publish c]: store [ls] into [c] with release;
    - [flip_sense]: flip [ls]. *)
Inductive instr :=
| spin_on (c : cell)
| sync_on (c : cell)
| publish (c : cell)
| flip_sense.

(** The events of a thread performing the instructions in order. *)
Fixpoint performs (ls : bool) (prog : list instr) (evs : list tree_event)
  : Prop :=
  match prog with
  | [] => evs = []
  | spin_on c :: prog' =>
      ∃ k tail,
        evs = repeat (tree_load c memory_order_relaxed (negb ls)) k
              ++ tree_load c memory_order_relaxed ls :: tail ∧
        performs ls prog' tail
  | sync_on c :: prog' =>
      ∃ b tail,
        evs = tree_load c memory_order_acquire b :: tail ∧
        performs ls prog' tail
  | publish c :: prog' =>
      ∃ tail,
        evs = tree_store c memory_order_release ls :: tail ∧
        performs ls prog' tail
  | flip_sense :: prog' =>
      ∃ tail, evs = tree_flip (negb ls) :: tail ∧ performs ls prog' tail
  end.

(** Step 1 of [await], for the arrival slots from [k] on of a node [i]
    with [len] slots. *)
Definition await_children (i len k : nat) : list instr :=
  flat_map (λ k, [spin_on (arrival_flag i k); sync_on (arrival_flag i k)])
    (seq k (len - k)).

(** The arrival phase of node [i]: wait for every arrival child, then tell
    the parent, when there is one. *)
Definition arrival_phase (i len : nat) (parent : option (nat * nat))
  : list instr :=
  await_children i len 0
  ++ match parent with
     | Some (p, k) => [publish (arrival_flag p k)]
     | None => []
     end.

(** Where a thread of a tree barrier stands. *)
Inductive tree_pc :=
| tree_outside
| at_child_spin (k : nat)  (* while (flag.flag.load(relaxed) != n->local_sense) *)
| at_child_sync (k : nat)  (* flag.flag.load(acquire) *)
| at_arrive                (* n->arrival_parent->flag.store(n->local_sense, release) *)
| at_depart_spin           (* while (sense.load(relaxed) != n->local_sense) *)
| at_depart_sync           (* sense.load(acquire) *)
| at_signal_child (k : nat)(* sig->store(n->local_sense, release) *)
| at_signal_all            (* sense.store(n->local_sense, release), root *)
| at_tree_flip.            (* n->local_sense = !n->local_sense *)

#[global] Instance tree_pc_eq_dec : EqDecision tree_pc.
Proof. solve_decision. Defined.

(** A thread of a tree barrier: its position and the number of calls of
    [await] it has returned from (its local sense is in its node). *)
Record tree_worker := mk_tree_worker {
  tree_at : tree_pc;
  tree_completed : nat
}.

Definition tree_stamp (w : tree_worker) : nat :=
  match tree_at w with
  | tree_outside => 2 * tree_completed w
  | _ => 2 * tree_completed w + 1
  end.

Definition tree_next_outside (w : tree_worker) : nat :=
  match tree_at w with
  | tree_outside => 2 * tree_completed w
  | _ => 2 * tree_completed w + 2
  end.

(** What one step of a thread does to its position and to the instructions
    it still owes: its stamp does not decrease, and the instructions it
    owes are those it owed before, less the one it performed. *)
Definition tree_step_spec (ls : bool) (remaining : tree_pc → list instr)
    (w : tree_worker) (e : tree_event) (w' : tree_worker)
    (evs : list tree_event) : Prop :=
  (tree_stamp w ≤ tree_stamp w')%nat ∧
  (tree_at w = tree_outside → tree_stamp w' = S (tree_stamp w)) ∧
  (tree_at w ≠ tree_outside →
   tree_next_outside w' = tree_next_outside w ∧
   (tree_at w' = tree_outside ↔ tree_at w = at_tree_flip) ∧
   (performs ls (remaining (tree_at w')) evs →
    performs ls (remaining (tree_at w)) (e :: evs))).

(** The local sense of a node is the parity of the calls of [await] its
    thread has returned from. *)
Definition tree_parity {node state : Type} (nodes : state → list node)
    (workers : state → list tree_worker) (local_sense : node → bool)
    (s : state) : Prop :=
  ∀ i w n, workers s !! i = Some w → nodes s !! i = Some n →
    local_sense n = Nat.odd (tree_completed w).

(** The statements in the [switch] of the layout functions. *)
Inductive wiring :=
| parent_null (i : nat)
    (* nodes[i]->arrival_parent = nullptr; *)
| parent_slot (i p k : nat)
    (* nodes[i]->arrival_parent = &nodes[p]->arrival_children_flag[k]; *)
| flags_resize (i k : nat)
    (* nodes[i]->arrival_children_flag.resize(k); *)
| departure_push (i c : nat).
    (* nodes[i]->departure_children.push_back(&nodes[c]->sense); *)

(** *** The progress of a thread and the wiring of a tree *)

(** How far a thread is in its current call of [await]: it has read the
    value it waits for in every arrival flag; *)
Definition gathered (p : tree_pc) : bool :=
  match p with
  | tree_outside | at_child_spin _ | at_child_sync _ => false
  | _ => true
  end.

(** it has read that value in its arrival flag [k]; *)
Definition passed_slot (k : nat) (p : tree_pc) : bool :=
  match p with
  | tree_outside => false
  | at_child_spin k' => bool_decide (k < k')%nat
  | at_child_sync k' => bool_decide (k ≤ k')%nat
  | _ => true
  end.

(** it is past the statement that tells the parent; *)
Definition arrived (p : tree_pc) : bool :=
  match p with
  | tree_outside | at_child_spin _ | at_child_sync _ | at_arrive => false
  | _ => true
  end.

(** it is past the loop that waits for the departure; *)
Definition released (p : tree_pc) : bool :=
  match p with
  | at_depart_sync | at_signal_child _ | at_tree_flip => true
  | _ => false
  end.

(** it has stored into the sense of its departure child number [idx]. *)
Definition signalled (idx : nat) (p : tree_pc) : bool :=
  match p with
  | at_signal_child k' => bool_decide (idx < k')%nat
  | at_tree_flip => true
  | _ => false
  end.

(** The calls in which a thread has come as far as [b] says: those it has
    returned from, and the current one when [b] holds of its position. *)
Definition progress (b : tree_pc → bool) (w : tree_worker) : nat :=
  tree_completed w + (if b (tree_at w) then 1 else 0).

(** The pointers of the nodes of a tree: for every node its
    [arrival_parent] and its [departure_children]. *)
Abbreviation wiring_table := (list (option (nat * nat) * list nat)).

Definition parent_of (W : wiring_table) (i : nat) : option (nat * nat) :=
  W !! i ≫= fst.

Definition departure_of (W : wiring_table) (p : nat) : list nat :=
  from_option snd [] (W !! p).

(** Following the arrival parents from node [i] leads to node 0 in fewer
    than [fuel] steps. *)
Fixpoint reaches_root (W : wiring_table) (fuel : nat) (i : nat) : bool :=
  match fuel with
  | O => false
  | S fuel' =>
      match parent_of W i with
      | Some (p, _) => reaches_root W fuel' p
      | None => bool_decide (i = 0%nat)
      end
  end.

(** The arrival pointers form a tree rooted at node 0: no two nodes point
    to the same slot, no node points to itself, node 0 alone has no
    parent, and every node leads to node 0. *)
Record arrival_wired (W : wiring_table) : Prop := mk_arrival_wired {
  aw_slot : ∀ i i' s,
    parent_of W i = Some s → parent_of W i' = Some s → i = i';
  aw_parent : ∀ i p k, parent_of W i = Some (p, k) → p ≠ i;
  aw_root : ∀ i, (i < length W)%nat → parent_of W i = None → i = 0%nat;
  aw_reach : ∀ i, (i < length W)%nat → reaches_root W (length W) i = true
}.

(** The departure pointers mirror the arrival pointers: the departure
    children of a node are the nodes whose arrival parent it is, each
    once. *)
Record departure_wired (W : wiring_table) : Prop := mk_departure_wired {
  dw_parent : ∀ i p k, parent_of W i = Some (p, k) → i ∈ departure_of W p;
  dw_child : ∀ p c, c ∈ departure_of W p → ∃ k, parent_of W c = Some (p, k);
  dw_nodup : ∀ p, NoDup (departure_of W p)
}.

(** The same as tests on a table. *)
Definition arrival_wired_check (W : wiring_table) : bool :=
  forallb (λ i,
    match parent_of W i with
    | Some (p, k) =>
        bool_decide (p ≠ i)
        && forallb (λ i', bool_decide (parent_of W i' = Some (p, k) → i' = i))
             (seq 0 (length W))
    | None => bool_decide (i = 0%nat)
    end
    && reaches_root W (length W) i) (seq 0 (length W)).

Definition departure_wired_check (W : wiring_table) : bool :=
  forallb (λ i,
    match parent_of W i with
    | Some (p, k) => bool_decide (i ∈ departure_of W p)
    | None => true
    end
    && bool_decide (NoDup (departure_of W i))
    && forallb (λ c, bool_decide (fst <$> parent_of W c = Some i))
         (departure_of W i)) (seq 0 (length W)).

(** *** Progress *)

(** A thread that is still in the loop of [thread_job]. *)
Definition tree_in_loop (num_episodes : nat) (w : tree_worker) : Prop :=
  tree_at w ≠ tree_outside ∨ (tree_completed w < num_episodes)%nat.

(** Every arrival flag is the slot of a node: [F] gives the number of
    arrival flags of every node. *)
Definition slots_wired (W : wiring_table) (F : list nat) : Prop :=
  ∀ p c k, F !! p = Some c → (k < c)%nat →
    ∃ i, parent_of W i = Some (p, k).

Definition slots_wired_check (W : wiring_table) (F : list nat) : bool :=
  forallb (λ p,
    forallb (λ k,
      existsb (λ i, bool_decide (parent_of W i = Some (p, k)))
        (seq 0 (length W)))
      (seq 0 (default 0%nat (F !! p)))) (seq 0 (length F)).

(** ** The static tree barrier with local departure *)

Module StaticTree.

(** [struct node]; [shared_flag] is an atomic boolean and padding, so the
    vector of arrival flags is a list of booleans. *)
Record node := mk_node {
  sense : bool;
  arrival_parent : option (nat * nat);
  arrival_children_flag : list bool;
  departure_children : list nat;
  local_sense : bool
}.

Definition set_sense (b : bool) (n : node) : node :=
  mk_node b (arrival_parent n) (arrival_children_flag n)
    (departure_children n) (local_sense n).

Definition set_flag (k : nat) (b : bool) (n : node) : node :=
  mk_node (sense n) (arrival_parent n) (<[k := b]> (arrival_children_flag n))
    (departure_children n) (local_sense n).

Definition set_local_sense (b : bool) (n : node) : node :=
  mk_node (sense n) (arrival_parent n) (arrival_children_flag n)
    (departure_children n) b.

(** The nodes, [nodes[i]] being the node of thread [i], and the threads. *)
Record state := mk_state {
  nodes : list node;
  workers : list tree_worker
}.

(** The head of the last loop: the next departure child, if any. *)
Definition enter_departure (n : node) (k : nat) : tree_pc :=
  if decide (k < length (departure_children n))%nat
  then at_signal_child k else at_tree_flip.

Definition after_children (n : node) : tree_pc :=
  match arrival_parent n with
  | Some _ => at_arrive
  | None => enter_departure n 0
  end.

(** The head of the first loop: the next arrival flag, if any. *)
Definition enter_children (n : node) (k : nat) : tree_pc :=
  if decide (k < length (arrival_children_flag n))%nat
  then at_child_spin k else after_children n.

Section Await.
(** The bound of the loop of [thread_job]. *)
Variable num_episodes : nat.

(** One atomic action of thread [i], which runs [await(nodes[i])]: the
    definition of [await] between [#if 1] and [#endif]. *)
Definition worker_step (i : nat) (ns : list node) (w : tree_worker)
  : option (tree_event * list node * tree_worker) :=
  n ← ns !! i;
  let ls := local_sense n in
  let goto p := mk_tree_worker p (tree_completed w) in
  match tree_at w with
  | tree_outside =>
      (* thread_job: work(); barrier.await(node); *)
      if decide (tree_completed w < num_episodes)%nat
      then Some (tree_call, ns, goto (enter_children n 0)) else None
  | at_child_spin k =>
      f ← arrival_children_flag n !! k;
      Some (tree_load (arrival_flag i k) memory_order_relaxed f, ns,
            goto (if decide (f = ls) then at_child_sync k
                  else at_child_spin k))
  | at_child_sync k =>
      f ← arrival_children_flag n !! k;
      Some (tree_load (arrival_flag i k) memory_order_acquire f, ns,
            goto (enter_children n (S k)))
  | at_arrive =>
      '(p, k) ← arrival_parent n;
      pn ← ns !! p;
      _ ← arrival_children_flag pn !! k;
      Some (tree_store (arrival_flag p k) memory_order_release ls,
            <[p := set_flag k ls pn]> ns, goto at_depart_spin)
  | at_depart_spin =>
      Some (tree_load (node_sense i) memory_order_relaxed (sense n), ns,
            goto (if decide (sense n = ls) then at_depart_sync
                  else at_depart_spin))
  | at_depart_sync =>
      Some (tree_load (node_sense i) memory_order_acquire (sense n), ns,
            goto (enter_departure n 0))
  | at_signal_child k =>
      c ← departure_children n !! k;
      cn ← ns !! c;
      Some (tree_store (node_sense c) memory_order_release ls,
            <[c := set_sense ls cn]> ns, goto (enter_departure n (S k)))
  | at_signal_all => None
  | at_tree_flip =>
      Some (tree_flip (negb ls), <[i := set_local_sense (negb ls) n]> ns,
            mk_tree_worker tree_outside (S (tree_completed w)))
  end.

Definition step (i : nat) (s : state) : option (tree_event * state) :=
  w ← workers s !! i;
  '(e, ns, w') ← worker_step i (nodes s) w;
  Some (e, mk_state ns (<[i := w']> (workers s))).
End Await.

(** *** The layout functions of the benchmark *)

(** A node after [new (...) node()] and the loop that sets [sense = true]
    and [local_sense = false]: value-initialisation leaves a null
    [arrival_parent] and empty vectors. *)
Definition fresh_node : node := mk_node true None [] [] false.

(** One statement of the [switch].  A [shared_flag] that [resize] creates
    holds [true]. *)
Definition wire (ns : list node) (st : wiring) : list node :=
  match st with
  | parent_null i =>
      alter (λ n, mk_node (sense n) None (arrival_children_flag n)
                    (departure_children n) (local_sense n)) i ns
  | parent_slot i p k =>
      alter (λ n, mk_node (sense n) (Some (p, k)) (arrival_children_flag n)
                    (departure_children n) (local_sense n)) i ns
  | flags_resize i k =>
      alter (λ n, mk_node (sense n) (arrival_parent n)
                    (resize k true (arrival_children_flag n))
                    (departure_children n) (local_sense n)) i ns
  | departure_push i c =>
      alter (λ n, mk_node (sense n) (arrival_parent n)
                    (arrival_children_flag n)
                    (departure_children n ++ [c]) (local_sense n)) i ns
  end.

(** The last loop: every arrival flag is set to [true]. *)
Definition init_flags (ns : list node) : list node :=
  map (λ n, mk_node (sense n) (arrival_parent n)
              (map (λ _, true) (arrival_children_flag n))
              (departure_children n) (local_sense n)) ns.

(** The cases of the [switch] of [static_tree_layout_good_locality]; the
    [default] is [assert(0)]. *)
Definition good_locality_switch (num_threads : nat) : option (list wiring) :=
  match num_threads with
  | 1 => Some [parent_null 0]
  | 2 => Some [parent_null 0; flags_resize 0 1; departure_push 0 1;
               parent_slot 1 0 0]
  | 3 => Some [parent_null 0; flags_resize 0 2; departure_push 0 1;
               departure_push 0 2;
               parent_slot 1 0 0;
               parent_slot 2 0 1]
  | 4 => Some [parent_null 0; flags_resize 0 2; departure_push 0 1;
               departure_push 0 2;
               parent_slot 1 0 0;
               parent_slot 2 0 1; flags_resize 2 1; departure_push 2 3;
               parent_slot 3 2 0]
  | 5 => Some [parent_null 0; flags_resize 0 2; departure_push 0 2;
               departure_push 0 4;
               parent_slot 4 0 0; flags_resize 4 1; departure_push 4 1;
               parent_slot 1 4 0;
               parent_slot 2 0 1; flags_resize 2 1; departure_push 2 3;
               parent_slot 3 2 0]
  | 6 => Some [parent_null 0; flags_resize 0 2; departure_push 0 2;
               departure_push 0 4;
               parent_slot 4 0 0; flags_resize 4 2; departure_push 4 1;
               departure_push 4 5;
               parent_slot 1 4 0;
               parent_slot 2 0 1; flags_resize 2 1; departure_push 2 3;
               parent_slot 3 2 0;
               parent_slot 5 4 1]
  | 7 => Some [parent_null 0; flags_resize 0 2; departure_push 0 2;
               departure_push 0 4;
               parent_slot 4 0 0; flags_resize 4 2; departure_push 4 1;
               departure_push 4 5;
               parent_slot 1 4 0;
               parent_slot 2 0 1; flags_resize 2 2; departure_push 2 3;
               departure_push 2 6;
               parent_slot 3 2 0;
               parent_slot 5 4 1;
               parent_slot 6 2 1]
  | 8 => Some [parent_null 0; flags_resize 0 2; departure_push 0 2;
               departure_push 0 4;
               parent_slot 4 0 0; flags_resize 4 2; departure_push 4 1;
               departure_push 4 5;
               parent_slot 1 4 0;
               parent_slot 2 0 1; flags_resize 2 2; departure_push 2 3;
               departure_push 2 6;
               parent_slot 3 2 0; flags_resize 3 1; departure_push 3 7;
               parent_slot 5 4 1;
               parent_slot 6 2 1;
               parent_slot 7 3 0]
  | _ => None
  end%nat.

(** The cases of the [switch] of [static_tree_layout_bad_locality]. *)
Definition bad_locality_switch (num_threads : nat) : option (list wiring) :=
  match num_threads with
  | 1 => Some [parent_null 0]
  | 2 => Some [parent_null 0; flags_resize 0 1; departure_push 0 1;
               parent_slot 1 0 0]
  | 3 => Some [parent_null 0; flags_resize 0 2; departure_push 0 1;
               departure_push 0 2;
               parent_slot 1 0 0;
               parent_slot 2 0 1]
  | 4 => Some [parent_null 0; flags_resize 0 2; departure_push 0 3;
               departure_push 0 2;
               parent_slot 2 0 1; flags_resize 2 1; departure_push 2 1;
               parent_slot 3 0 0;
               parent_slot 1 2 0]
  | 5 => Some [parent_null 0; flags_resize 0 2; departure_push 0 3;
               departure_push 0 2;
               parent_slot 2 0 1; flags_resize 2 1; departure_push 2 1;
               parent_slot 3 0 0; flags_resize 3 1; departure_push 3 4;
               parent_slot 1 2 0;
               parent_slot 4 3 0]
  | 6 => Some [parent_null 0; flags_resize 0 2; departure_push 0 3;
               departure_push 0 2;
               parent_slot 2 0 1; flags_resize 2 2; departure_push 2 1;
               departure_push 2 5;
               parent_slot 3 0 0; flags_resize 3 1; departure_push 3 4;
               parent_slot 1 2 0;
               parent_slot 4 3 0;
               parent_slot 5 2 1]
  | 7 => Some [parent_null 0; flags_resize 0 2; departure_push 0 3;
               departure_push 0 2;
               parent_slot 2 0 1; flags_resize 2 2; departure_push 2 1;
               departure_push 2 5;
               parent_slot 3 0 0; flags_resize 3 1; departure_push 3 4;
               parent_slot 1 2 0;
               parent_slot 4 3 0; flags_resize 4 1; departure_push 4 6;
               parent_slot 5 2 1;
               parent_slot 6 4 0]
  | 8 => Some [parent_null 0; flags_resize 0 2; departure_push 0 3;
               departure_push 0 2;
               parent_slot 2 0 1; flags_resize 2 2; departure_push 2 1;
               departure_push 2 5;
               parent_slot 3 0 0; flags_resize 3 1; departure_push 3 4;
               parent_slot 1 2 0;
               parent_slot 4 3 0; flags_resize 4 2; departure_push 4 6;
               departure_push 4 7;
               parent_slot 5 2 1;
               parent_slot 6 4 0;
               parent_slot 7 4 1]
  | _ => None
  end%nat.

(** The body shared by the two layout functions: allocate and initialise
    [num_threads] nodes, run the [switch] (its [default], [assert(0)],
    aborts the program: [None]), set the arrival flags, return the nodes.
    The build does not define [NDEBUG], so the [assert] is compiled in. *)
Definition layout (switch : nat → option (list wiring)) (num_threads : nat)
  : option (list node) :=
  let nodes := replicate num_threads fresh_node in
  statements ← switch num_threads;
  Some (init_flags (foldl wire nodes statements)).

Definition static_tree_layout_good_locality : nat → option (list node) :=
  layout good_locality_switch.

Definition static_tree_layout_bad_locality : nat → option (list node) :=
  layout bad_locality_switch.

(** The local sense of every node and the calls of [await] its thread has
    returned from. *)
Definition participants (st : state) : list (bool * nat) :=
  zip_with (λ n w, (local_sense n, tree_completed w)) (nodes st) (workers st).

(** The state in which the threads of [run_experiment_static_tree_barrier]
    start on the nodes [ns]: none has called [await]. *)
Definition initial (ns : list node) : state :=
  mk_state ns (replicate (length ns) (mk_tree_worker tree_outside 0)).

(** Two threads on the good-locality tree for two, both inside [await]:
    under [two_node_sched] the root spins once in vain before its child
    arrives. *)
Definition two_node_state : state :=
  mk_state (default [] (static_tree_layout_good_locality 2))
    [mk_tree_worker (at_child_spin 0) 0; mk_tree_worker at_arrive 0].

Definition two_node_sched : list nat := [0; 1; 0; 0; 0; 0; 1; 1; 1]%nat.

(** The instructions of [await] for node [i], following the four numbered
    steps of its description. *)
Definition await_program (i : nat) (n : node) : list instr :=
  arrival_phase i (length (arrival_children_flag n)) (arrival_parent n)
  ++ match arrival_parent n with
     | Some _ => [spin_on (node_sense i); sync_on (node_sense i)]
     | None => []
     end
  ++ map (λ c, publish (node_sense c)) (departure_children n)
  ++ [flip_sense].

(** The instructions a thread still performs before it returns from
    [await], by its position. *)
Definition remaining (i : nat) (n : node) (p : tree_pc) : list instr :=
  let len := length (arrival_children_flag n) in
  let departure k :=
    map (λ c, publish (node_sense c)) (drop k (departure_children n))
    ++ [flip_sense] in
  let wait_parent := [spin_on (node_sense i); sync_on (node_sense i)] in
  let tell_parent :=
    match arrival_parent n with
    | Some (p, k) => publish (arrival_flag p k) :: wait_parent
    | None => []
    end in
  match p with
  | tree_outside | at_signal_all => []
  | at_child_spin k => await_children i len k ++ tell_parent ++ departure 0%nat
  | at_child_sync k =>
      sync_on (arrival_flag i k)
      :: await_children i len (S k) ++ tell_parent ++ departure 0%nat
  | at_arrive => tell_parent ++ departure 0%nat
  | at_depart_spin => wait_parent ++ departure 0%nat
  | at_depart_sync => sync_on (node_sense i) :: departure 0%nat
  | at_signal_child k => departure k
  | at_tree_flip => [flip_sense]
  end.

(** What [await] never changes in a node: its pointers and the number of
    its arrival flags. *)
Definition same_frame (n n' : node) : Prop :=
  arrival_parent n' = arrival_parent n ∧
  length (arrival_children_flag n') = length (arrival_children_flag n) ∧
  departure_children n' = departure_children n.

(** *** The sense cell of the root *)

(** The positions of the branch [if (n->arrival_parent)]. *)
Definition with_parent (p : tree_pc) : Prop :=
  p = at_arrive ∨ p = at_depart_spin ∨ p = at_depart_sync.

(** Node 0 has no arrival parent and its sense is [true], no node has the
    sense of node 0 among its departure children, and thread 0 is not in
    the branch of the nodes with a parent. *)
Definition root_untouched (s : state) : Prop :=
  (∃ n, nodes s !! 0%nat = Some n ∧ arrival_parent n = None ∧
        sense n = true) ∧
  (∀ i n, nodes s !! i = Some n → 0%nat ∉ departure_children n) ∧
  (∀ w, workers s !! 0%nat = Some w → ¬ with_parent (tree_at w)).

(** The same of the nodes a layout function returns, as a test. *)
Definition root_free (ns : list node) : bool :=
  match ns with
  | n :: _ =>
      bool_decide (arrival_parent n = None) && bool_decide (sense n = true)
      && forallb (λ n', bool_decide (0%nat ∉ departure_children n')) ns
  | [] => false
  end.

(** *** Synchronisation *)

(** The value of an atomic cell of the nodes; [None] for a cell that does
    not exist. *)
Definition read (ns : list node) (c : cell) : option bool :=
  match c with
  | arrival_flag p k => pn ← ns !! p; arrival_children_flag pn !! k
  | node_sense i => sense <$> ns !! i
  | global_sense => None
  end.

Definition wiring_of (ns : list node) : wiring_table :=
  (λ n, (arrival_parent n, departure_children n)) <$> ns.

(** What relates a node to its arrival parent, on the nodes wired as [W]
    says.  The parent has passed the slot of a child only in calls in
    which the child has arrived, and the slot holds the local sense of
    the child's last arrival; a child has left the departure loop only
    in calls in which the parent has signalled it, and the sense of the
    child holds the local sense of the parent's last signal. *)
Record sync_inv (W : wiring_table) (st : state) : Prop := mk_sync_inv {
  si_wiring : wiring_of (nodes st) = W;
  si_workers : length (workers st) = length (nodes st);
  si_parity : tree_parity nodes workers local_sense st;
  si_arrival : ∀ i p k w pw,
    parent_of W i = Some (p, k) →
    workers st !! i = Some w → workers st !! p = Some pw →
    (progress (passed_slot k) pw ≤ progress arrived w)%nat ∧
    read (nodes st) (arrival_flag p k)
    = Some (negb (Nat.odd (progress arrived w)));
  si_departure : ∀ i p k idx w pw,
    parent_of W i = Some (p, k) → departure_of W p !! idx = Some i →
    workers st !! i = Some w → workers st !! p = Some pw →
    (progress released w ≤ progress (signalled idx) pw)%nat ∧
    read (nodes st) (node_sense i)
    = Some (negb (Nat.odd (progress (signalled idx) pw)))
}.

(** Nodes on which the threads can start: wired as a tree, every local
    sense [false], every sense [true], and every arrival parent a flag
    that holds [true]. *)
Definition ready (ns : list node) : bool :=
  arrival_wired_check (wiring_of ns)
  && departure_wired_check (wiring_of ns)
  && forallb (λ n,
       sense n && negb (local_sense n)
       && match arrival_parent n with
          | Some (p, k) => bool_decide (read ns (arrival_flag p k) = Some true)
          | None => true
          end) ns.

(** *** Progress *)

(** The number of arrival flags of every node. *)
Definition flag_counts (ns : list node) : list nat :=
  (λ n, length (arrival_children_flag n)) <$> ns.

(** A thread whose next step, if it has one, changes nothing: it has
    left the loop of [thread_job], or it is in one of the two spin loops
    and the flag does not hold the value it waits for. *)
Definition blocked (num_episodes : nat) (ns : list node)
    (i : nat) (w : tree_worker) : bool :=
  match tree_at w, ns !! i with
  | tree_outside, _ =>
      bool_decide (¬ (tree_completed w < num_episodes)%nat)
  | at_child_spin k, Some n =>
      bool_decide (arrival_children_flag n !! k ≠ Some (local_sense n))
  | at_depart_spin, Some n => bool_decide (sense n ≠ local_sense n)
  | _, _ => false
  end.

(** What the threads keep true besides the relation between the nodes:
    a thread waits on a flag its node has, is in the branch of the nodes
    with a parent only if its node has one, signals a departure child
    its node has, and inside [await] it has calls left to return from. *)
Record live_inv (W : wiring_table) (F : list nat) (num_episodes : nat)
    (st : state) : Prop := mk_live_inv {
  li_counts : flag_counts (nodes st) = F;
  li_position : ∀ i w,
    workers st !! i = Some w →
    match tree_at w with
    | at_child_spin k | at_child_sync k =>
        ∃ c, F !! i = Some c ∧ (k < c)%nat
    | at_arrive | at_depart_spin | at_depart_sync =>
        is_Some (parent_of W i)
    | at_signal_child k => (k < length (departure_of W i))%nat
    | at_signal_all => False
    | _ => True
    end;
  li_bound : ∀ i w,
    workers st !! i = Some w →
    (tree_completed w ≤ num_episodes)%nat ∧
    (tree_at w ≠ tree_outside → (tree_completed w < num_episodes)%nat)
}.

(** Nodes on which the threads can start and cannot get stuck. *)
Definition ready_to_run (ns : list node) : bool :=
  ready ns && slots_wired_check (wiring_of ns) (flag_counts ns).

End StaticTree.

(** ** The static tree barrier with a global departure flag *)

Module GlobalDeparture.

(** [struct node] of [static_tree_barrier_global_departure]. *)
Record node := mk_node {
  arrival_parent : option (nat * nat);
  arrival_children_flag : list bool;
  local_sense : bool
}.

Definition set_flag (k : nat) (b : bool) (n : node) : node :=
  mk_node (arrival_parent n) (<[k := b]> (arrival_children_flag n))
    (local_sense n).

Definition set_local_sense (b : bool) (n : node) : node :=
  mk_node (arrival_parent n) (arrival_children_flag n) b.

(** The barrier object (its member [sense], [true] at first), the nodes
    and the threads. *)
Record state := mk_state {
  sense : bool;
  nodes : list node;
  workers : list tree_worker
}.

Definition after_children (n : node) : tree_pc :=
  match arrival_parent n with
  | Some _ => at_arrive
  | None => at_signal_all
  end.

(** The head of the loop: the next arrival flag, if any. *)
Definition enter_children (n : node) (k : nat) : tree_pc :=
  if decide (k < length (arrival_children_flag n))%nat
  then at_child_spin k else after_children n.

Section Await.
(** The bound of the loop of [thread_job]. *)
Variable num_episodes : nat.

(** One atomic action of thread [i], which runs [await(nodes[i])]. *)
Definition worker_step (i : nat) (g : bool) (ns : list node)
    (w : tree_worker) : option (tree_event * bool * list node * tree_worker) :=
  n ← ns !! i;
  let ls := local_sense n in
  let goto p := mk_tree_worker p (tree_completed w) in
  match tree_at w with
  | tree_outside =>
      (* thread_job: work(); barrier.await(node); *)
      if decide (tree_completed w < num_episodes)%nat
      then Some (tree_call, g, ns, goto (enter_children n 0)) else None
  | at_child_spin k =>
      f ← arrival_children_flag n !! k;
      Some (tree_load (arrival_flag i k) memory_order_relaxed f, g, ns,
            goto (if decide (f = ls) then at_child_sync k
                  else at_child_spin k))
  | at_child_sync k =>
      f ← arrival_children_flag n !! k;
      Some (tree_load (arrival_flag i k) memory_order_acquire f, g, ns,
            goto (enter_children n (S k)))
  | at_arrive =>
      '(p, k) ← arrival_parent n;
      pn ← ns !! p;
      _ ← arrival_children_flag pn !! k;
      Some (tree_store (arrival_flag p k) memory_order_release ls, g,
            <[p := set_flag k ls pn]> ns, goto at_depart_spin)
  | at_depart_spin =>
      Some (tree_load global_sense memory_order_relaxed g, g, ns,
            goto (if decide (g = ls) then at_depart_sync
                  else at_depart_spin))
  | at_depart_sync =>
      Some (tree_load global_sense memory_order_acquire g, g, ns,
            goto at_tree_flip)
  | at_signal_all =>
      Some (tree_store global_sense memory_order_release ls, ls, ns,
            goto at_tree_flip)
  | at_signal_child _ => None
  | at_tree_flip =>
      Some (tree_flip (negb ls), g,
            <[i := set_local_sense (negb ls) n]> ns,
            mk_tree_worker tree_outside (S (tree_completed w)))
  end.

Definition step (i : nat) (s : state) : option (tree_event * state) :=
  w ← workers s !! i;
  '(e, g, ns, w') ← worker_step i (sense s) (nodes s) w;
  Some (e, mk_state g ns (<[i := w']> (workers s))).
End Await.

(** *** The layout function of the benchmark *)

(** A node after [new (...) node()] and the loop that sets
    [local_sense = false]. *)
Definition fresh_node : node := mk_node None [] false.

(** One statement of the [switch]; this [node] has no departure children,
    and the function pushes none. *)
Definition wire (ns : list node) (st : wiring) : list node :=
  match st with
  | parent_null i =>
      alter (λ n, mk_node None (arrival_children_flag n) (local_sense n)) i ns
  | parent_slot i p k =>
      alter (λ n, mk_node (Some (p, k)) (arrival_children_flag n)
                    (local_sense n)) i ns
  | flags_resize i k =>
      alter (λ n, mk_node (arrival_parent n)
                    (resize k true (arrival_children_flag n))
                    (local_sense n)) i ns
  | departure_push _ _ => ns
  end.

(** The last loop: every arrival flag is set to [true]. *)
Definition init_flags (ns : list node) : list node :=
  map (λ n, mk_node (arrival_parent n)
              (map (λ _, true) (arrival_children_flag n)) (local_sense n)) ns.

(** The cases of the [switch] of
    [static_tree_global_departure_layout_good_locality]; the [default] is
    [assert(0)]. *)
Definition good_locality_switch (num_threads : nat) : option (list wiring) :=
  match num_threads with
  | 1 => Some [parent_null 0]
  | 2 => Some [parent_null 0; flags_resize 0 1;
               parent_slot 1 0 0]
  | 3 => Some [parent_null 0; flags_resize 0 2;
               parent_slot 1 0 0;
               parent_slot 2 0 1]
  | 4 => Some [parent_null 0; flags_resize 0 2;
               parent_slot 1 0 0;
               parent_slot 2 0 1; flags_resize 2 1;
               parent_slot 3 2 0]
  | 5 => Some [parent_null 0; flags_resize 0 2;
               parent_slot 4 0 0; flags_resize 4 1;
               parent_slot 1 4 0;
               parent_slot 2 0 1; flags_resize 2 1;
               parent_slot 3 2 0]
  | 6 => Some [parent_null 0; flags_resize 0 2;
               parent_slot 4 0 0; flags_resize 4 2;
               parent_slot 1 4 0;
               parent_slot 2 0 1; flags_resize 2 1;
               parent_slot 3 2 0;
               parent_slot 5 4 1]
  | 7 => Some [parent_null 0; flags_resize 0 2;
               parent_slot 4 0 0; flags_resize 4 2;
               parent_slot 1 4 0;
               parent_slot 2 0 1; flags_resize 2 2;
               parent_slot 3 2 0;
               parent_slot 5 4 1;
               parent_slot 6 2 1]
  | 8 => Some [parent_null 0; flags_resize 0 2;
               parent_slot 4 0 0; flags_resize 4 2;
               parent_slot 1 4 0;
               parent_slot 2 0 1; flags_resize 2 2;
               parent_slot 3 2 0; flags_resize 3 1;
               parent_slot 5 4 1;
               parent_slot 6 2 1;
               parent_slot 7 3 0]
  | _ => None
  end%nat.

(** Allocate and initialise [num_threads] nodes, run the [switch] (its
    [default], [assert(0)], aborts the program: [None]), set the arrival
    flags, return the nodes. *)
Definition static_tree_global_departure_layout_good_locality
    (num_threads : nat) : option (list node) :=
  let nodes := replicate num_threads fresh_node in
  statements ← good_locality_switch num_threads;
  Some (init_flags (foldl wire nodes statements)).

(** The local sense of every node and the calls of [await] its thread has
    returned from. *)
Definition participants (st : state) : list (bool * nat) :=
  zip_with (λ n w, (local_sense n, tree_completed w)) (nodes st) (workers st).

(** The state in which the threads of
    [run_experiment_static_tree_barrier_global_departure] start. *)
Definition initial (ns : list node) : state :=
  mk_state true ns (replicate (length ns) (mk_tree_worker tree_outside 0)).

(** Two threads on the tree for two, both inside [await]. *)
Definition two_node_state : state :=
  mk_state true
    (default [] (static_tree_global_departure_layout_good_locality 2))
    [mk_tree_worker (at_child_spin 0) 0; mk_tree_worker at_arrive 0].

Definition two_node_sched : list nat := [0; 1; 1; 0; 0; 0; 0; 1; 1; 1]%nat.

(** The instructions of [await] for node [i]: the arrival phase of the
    local-departure barrier, then the departure through the global flag
    (a node with a parent waits for it, the root publishes it). *)
Definition await_program (i : nat) (n : node) : list instr :=
  arrival_phase i (length (arrival_children_flag n)) (arrival_parent n)
  ++ match arrival_parent n with
     | Some _ => [spin_on global_sense; sync_on global_sense]
     | None => [publish global_sense]
     end
  ++ [flip_sense].

(** The instructions a thread still performs before it returns from
    [await], by its position. *)
Definition remaining (i : nat) (n : node) (p : tree_pc) : list instr :=
  let len := length (arrival_children_flag n) in
  let wait_root := [spin_on global_sense; sync_on global_sense; flip_sense] in
  let departure :=
    match arrival_parent n with
    | Some (p, k) => publish (arrival_flag p k) :: wait_root
    | None => [publish global_sense; flip_sense]
    end in
  match p with
  | tree_outside | at_signal_child _ => []
  | at_child_spin k => await_children i len k ++ departure
  | at_child_sync k =>
      sync_on (arrival_flag i k) :: await_children i len (S k) ++ departure
  | at_arrive => departure
  | at_depart_spin => wait_root
  | at_depart_sync => [sync_on global_sense; flip_sense]
  | at_signal_all => [publish global_sense; flip_sense]
  | at_tree_flip => [flip_sense]
  end.

Definition same_frame (n n' : node) : Prop :=
  arrival_parent n' = arrival_parent n ∧
  length (arrival_children_flag n') = length (arrival_children_flag n).

(** *** Synchronisation *)

(** The value of an atomic cell: an arrival flag of a node, or the sense
    of the barrier; [None] for a cell that does not exist. *)
Definition read (g : bool) (ns : list node) (c : cell) : option bool :=
  match c with
  | arrival_flag p k => pn ← ns !! p; arrival_children_flag pn !! k
  | node_sense _ => None
  | global_sense => Some g
  end.

(** These nodes have no departure children. *)
Definition wiring_of (ns : list node) : wiring_table :=
  (λ n, (arrival_parent n, [])) <$> ns.

(** What relates a node to its arrival parent and to the root, on the
    nodes wired as [W] says.  The parent has passed the slot of a child
    only in calls in which the child has arrived, and the slot holds the
    local sense of the child's last arrival; a node has left the
    departure loop only in calls in which the root has stored into the
    sense of the barrier, which holds the local sense of the root's last
    store; only a node without parent is at that store, and only a node
    with a parent is in the departure loop. *)
Record sync_inv (W : wiring_table) (st : state) : Prop := mk_sync_inv {
  si_wiring : wiring_of (nodes st) = W;
  si_workers : length (workers st) = length (nodes st);
  si_parity : tree_parity nodes workers local_sense st;
  si_position : ∀ i w,
    workers st !! i = Some w →
    match tree_at w with
    | at_signal_all => parent_of W i = None
    | at_depart_spin | at_depart_sync => is_Some (parent_of W i)
    | _ => True
    end;
  si_arrival : ∀ i p k w pw,
    parent_of W i = Some (p, k) →
    workers st !! i = Some w → workers st !! p = Some pw →
    (progress (passed_slot k) pw ≤ progress arrived w)%nat ∧
    read (sense st) (nodes st) (arrival_flag p k)
    = Some (negb (Nat.odd (progress arrived w)));
  si_departure : ∀ r wr,
    parent_of W r = None → workers st !! r = Some wr →
    sense st = negb (Nat.odd (progress (signalled 0) wr)) ∧
    ∀ i w, is_Some (parent_of W i) → workers st !! i = Some w →
      (progress released w ≤ progress (signalled 0) wr)%nat
}.

(** Nodes on which the threads can start: wired as a tree, every local
    sense [false], and every arrival parent a flag that holds [true]. *)
Definition ready (ns : list node) : bool :=
  arrival_wired_check (wiring_of ns)
  && forallb (λ n,
       negb (local_sense n)
       && match arrival_parent n with
          | Some (p, k) =>
              bool_decide (read true ns (arrival_flag p k) = Some true)
          | None => true
          end) ns.

(** *** Progress *)

(** The number of arrival flags of every node. *)
Definition flag_counts (ns : list node) : list nat :=
  (λ n, length (arrival_children_flag n)) <$> ns.

(** A thread whose next step, if it has one, changes nothing: it has
    left the loop of [thread_job], or it is in one of the two spin loops
    and the flag does not hold the value it waits for. *)
Definition blocked (num_episodes : nat) (g : bool) (ns : list node)
    (i : nat) (w : tree_worker) : bool :=
  match tree_at w, ns !! i with
  | tree_outside, _ =>
      bool_decide (¬ (tree_completed w < num_episodes)%nat)
  | at_child_spin k, Some n =>
      bool_decide (arrival_children_flag n !! k ≠ Some (local_sense n))
  | at_depart_spin, Some n => bool_decide (g ≠ local_sense n)
  | _, _ => false
  end.

(** What the threads keep true besides the relation between the nodes:
    a thread waits on a flag its node has, stores into a slot only if
    its node has a parent, and inside [await] it has calls left to
    return from. *)
Record live_inv (W : wiring_table) (F : list nat) (num_episodes : nat)
    (st : state) : Prop := mk_live_inv {
  li_counts : flag_counts (nodes st) = F;
  li_position : ∀ i w,
    workers st !! i = Some w →
    match tree_at w with
    | at_child_spin k | at_child_sync k =>
        ∃ c, F !! i = Some c ∧ (k < c)%nat
    | at_arrive => is_Some (parent_of W i)
    | at_signal_child _ => False
    | _ => True
    end;
  li_bound : ∀ i w,
    workers st !! i = Some w →
    (tree_completed w ≤ num_episodes)%nat ∧
    (tree_at w ≠ tree_outside → (tree_completed w < num_episodes)%nat)
}.

(** Nodes on which the threads can start and cannot get stuck. *)
Definition ready_to_run (ns : list node) : bool :=
  ready ns && slots_wired_check (wiring_of ns) (flag_counts ns).

End GlobalDeparture.

(** ** The trees the layout functions build *)

Module Topology.

(** What the shape of a tree depends on: the [arrival_parent] of every node
    and the size of its [arrival_children_flag]. *)
Record view := mk_view {
  parents : list (option (nat * nat));
  slots : list nat
}.

Definition view_of_static_tree (ns : list StaticTree.node) : view :=
  mk_view (map StaticTree.arrival_parent ns)
    (map (λ n, length (StaticTree.arrival_children_flag n)) ns).

Definition view_of_global_departure (ns : list GlobalDeparture.node) : view :=
  mk_view (map GlobalDeparture.arrival_parent ns)
    (map (λ n, length (GlobalDeparture.arrival_children_flag n)) ns).

(** The nodes whose [arrival_parent] is slot [k] of node [p]. *)
Definition slot_children (v : view) (p k : nat) : list nat :=
  filter (λ i, parents v !! i = Some (Some (p, k)))
    (seq 0 (length (parents v))).

(** The arrival children of node [p], slot by slot. *)
Definition arrival_children (v : view) (p : nat) : list (list nat) :=
  map (slot_children v p) (seq 0 (default 0%nat (slots v !! p))).

(** The parent/child edges of the arrival tree. *)
Definition edges (v : view) : nat := length (omap (λ p, p) (parents v)).

(** The literal shapes of the description: [(p, cs)] reads "p ← cs", the
    children in the order written. *)
Definition literal_shape (n : nat) : list (nat * list nat) :=
  match n with
  | 2 => [(0, [1])]
  | 3 => [(0, [1; 2])]
  | 4 => [(0, [1; 2]); (2, [3])]
  | 5 => [(0, [4; 2]); (4, [1]); (2, [3])]
  | 6 => [(0, [4; 2]); (4, [1; 5]); (2, [3])]
  | 7 => [(0, [4; 2]); (4, [1; 5]); (2, [3; 6])]
  | 8 => [(0, [4; 2]); (4, [1; 5]); (2, [3; 6]); (3, [7])]
  | _ => []
  end%nat.

(** The children the literal shape gives node [p]. *)
Definition literal_children (n p : nat) : list nat :=
  match list_find (λ e, e.1 = p) (literal_shape n) with
  | Some (_, (_, cs)) => cs
  | None => []
  end.

(** A rooted tree without labels. *)
#[local] Set Warnings "-register-all".
Inductive shape := Node (children : list shape).

(** The subtree of node [p], cut below [fuel] levels. *)
Fixpoint subtree (v : view) (fuel : nat) (p : nat) : shape :=
  match fuel with
  | O => Node []
  | S fuel' => Node (map (subtree v fuel') (concat (arrival_children v p)))
  end.

(** The arrival tree, from node 0; no path has more nodes than the tree. *)
Definition arrival_tree (v : view) : shape :=
  subtree v (length (parents v)) 0.

(** The number of edges on the longest path from the root. *)
Fixpoint depth (t : shape) : nat :=
  match t with
  | Node cs => list_max (map (λ c, S (depth c)) cs)
  end.

(** The number of nodes [d] edges below the root. *)
Fixpoint width_at (d : nat) (t : shape) : nat :=
  match d, t with
  | O, _ => 1
  | S d', Node cs => list_sum (map (width_at d') cs)
  end.

(** No node has more than two children. *)
Fixpoint binary (t : shape) : bool :=
  match t with
  | Node cs => bool_decide (length cs ≤ 2)%nat && forallb binary cs
  end.

(** The number of nodes. *)
Fixpoint tree_size (t : shape) : nat :=
  match t with
  | Node cs => S (list_sum (map tree_size cs))
  end.

(** Every level above the last is full: [2 ^ k] nodes [k] edges below the
    root. *)
Definition balanced (t : shape) : bool :=
  forallb (λ k, bool_decide (width_at k t = 2 ^ k)%nat) (seq 0 (depth t)).

(** Two trees have the same shape when one is the other with the children
    of some nodes reordered: the trees differ only in which participant
    sits at which position. *)
Inductive same_shape : shape → shape → Prop :=
| same_shape_node cs ds ds' :
    ds ≡ₚ ds' → Forall2 same_shape cs ds' →
    same_shape (Node cs) (Node ds).

(** The arrival trees of the three layout functions; the tree of a single
    node when the function aborts. *)
Definition good_tree (n : nat) : shape :=
  arrival_tree
    (view_of_static_tree
       (default [] (StaticTree.static_tree_layout_good_locality n))).

Definition bad_tree (n : nat) : shape :=
  arrival_tree
    (view_of_static_tree
       (default [] (StaticTree.static_tree_layout_bad_locality n))).

Definition good_view (n : nat) : view :=
  view_of_static_tree
    (default [] (StaticTree.static_tree_layout_good_locality n)).

Definition bad_view (n : nat) : view :=
  view_of_static_tree
    (default [] (StaticTree.static_tree_layout_bad_locality n)).

(** C6 as the claim states it, for [n] participants: the two layouts have
    the same shape, the shape of a balanced binary tree of depth
    ⌈log₂ n⌉, with the same number of edges. *)
Definition same_shape_class (n : nat) : Prop :=
  same_shape (good_tree n) (bad_tree n) ∧
  binary (good_tree n) = true ∧ binary (bad_tree n) = true ∧
  balanced (good_tree n) = true ∧ balanced (bad_tree n) = true ∧
  depth (good_tree n) = Nat.log2_up n ∧
  depth (bad_tree n) = Nat.log2_up n ∧
  edges (good_view n) = edges (bad_view n).

(** The arrival tree of a view is the literal shape for [n] nodes: every
    slot of every node is the target of exactly one child, and the
    children of a node, in slot order, are those the shape lists. *)
Definition has_literal_shape (n : nat) (v : view) : Prop :=
  length (parents v) = n ∧
  ∀ p, (p < n)%nat →
    arrival_children v p = map (λ c, [c]) (literal_children n p).

(** Node 0 is the root, and the [arrival_parent] of every other node
    points to a slot of the arrival flags of some node. *)
Definition rooted_at_zero (v : view) : Prop :=
  parents v !! 0%nat = Some None ∧
  ∀ i, (0 < i < length (parents v))%nat →
    ∃ p k, parents v !! i = Some (Some (p, k)) ∧
           (k < default 0 (slots v !! p))%nat.

(** The departure children of every node are its arrival children. *)
Definition departure_mirrors_arrival (ns : list StaticTree.node) : Prop :=
  ∀ p nd, ns !! p = Some nd →
    StaticTree.departure_children nd
    ≡ₚ concat (arrival_children (view_of_static_tree ns) p).

End Topology.

(** ** The confidence-interval accumulator *)

Module Meanconf.

(** The arithmetic [mean()] uses on [double], as an interface: what
    [mean()] does with its operands, and in which order, is said once for
    whatever implements the operations, and the program's values are the
    binary64 floating-point numbers of the instance below. *)
Class Double (D : Type) := {
  d_zero : D;
  d_add : D → D → D;
  d_sub : D → D → D;
  d_mul : D → D → D;
  d_div : D → D → D;
  d_sqrt : D → D;
  d_of_size : Z → D;  (* (double)n, for n of type std::size_t *)
  d_literal : Q → D   (* a decimal literal of the source *)
}.

(** Conversion of a [std::size_t] to binary64, rounding to nearest: through
    the 63-bit conversion, for the upper half of the range on the halved
    value with the lost bit kept as a sticky bit. *)
Definition float_of_size (z : Z) : float :=
  if decide (z < 2 ^ 63) then PrimFloat.of_uint63 (Uint63.of_Z z)
  else PrimFloat.mul
         (PrimFloat.of_uint63 (Uint63.of_Z (Z.lor (z / 2) (z mod 2))))
         (PrimFloat.of_uint63 2).

(** A decimal literal is the binary64 number nearest to it; the decimals
    of the table have numerator and denominator below 2^53, so the rounded
    quotient is that number. *)
Definition float_of_literal (q : Q) : float :=
  PrimFloat.div (PrimFloat.of_uint63 (Uint63.of_Z (Qnum q)))
    (PrimFloat.of_uint63 (Uint63.of_Z (Z.pos (Qden q)))).

#[global] Instance binary64_double : Double float := {|
  d_zero := PrimFloat.of_uint63 0;
  d_add := PrimFloat.add;
  d_sub := PrimFloat.sub;
  d_mul := PrimFloat.mul;
  d_div := PrimFloat.div;
  d_sqrt := PrimFloat.sqrt;
  d_of_size := float_of_size;
  d_literal := float_of_literal
|}.

(** [confidence_interval::t_critical_value] in [meanconf.cpp]: "for v
    degrees of freedom, t_critical_value[v-1] gives the associated
    critical value". *)
Definition t_critical_value : list Q :=
  [636.6; 31.60; 12.92; 8.610; 6.869; 5.959; 5.408; 5.041;
   4.781; 4.587; 4.437; 4.318; 4.221; 4.140; 4.073; 4.015; 3.965; 3.922;
   3.883; 3.850; 3.819;
   3.792; 3.768; 3.745; 3.725; 3.707; 3.690; 3.674; 3.659; 3.646]%Q.

(** [std::size_t] is 64 bits wide on the target, and wraps. *)
Definition size_t_wrap (z : Z) : Z := z mod 2 ^ 64.

(** [t_critical_value[index]]; [None] for a read outside the array. *)
Definition table_read (index : Z) : option Q :=
  if decide (0 ≤ index < Z.of_nat (length t_critical_value))
  then t_critical_value !! Z.to_nat index else None.

Section ConfidenceInterval.
Context {D : Type} `{Double D}.

(** The object is its vector [samples]; [reserve] changes the capacity
    only. *)
Definition construct (num_samples : nat) : list D := [].

(** [add(v)]: [samples.push_back(v)]. *)
Definition add (v : D) (samples : list D) : list D := samples ++ [v].

(** [reset(num_samples)]: [samples.clear()] and [reserve]. *)
Definition reset (num_samples : nat) (samples : list D) : list D := [].

(** [samples.size()]. *)
Definition size (samples : list D) : Z := Z.of_nat (length samples).

(** The divisors and the index [mean()] computes from [samples.size()];
    [samples.size() - 1] is a subtraction in [std::size_t]. *)
Definition mean_divisor (samples : list D) : Z := size samples.

Definition variance_divisor (samples : list D) : Z :=
  size_t_wrap (size samples - 1).

Definition table_index (samples : list D) : Z :=
  size_t_wrap (size samples - 1).

(** The first loop and [m /= (double)samples.size()]. *)
Definition sample_mean (samples : list D) : D :=
  d_div (fold_left d_add samples d_zero) (d_of_size (mean_divisor samples)).

(** The second loop and [s /= (double)(samples.size() - 1)]. *)
Definition sample_variance (samples : list D) : D :=
  let m := sample_mean samples in
  d_div
    (fold_left (λ s x, d_add s (d_mul (d_sub x m) (d_sub x m))) samples
       d_zero)
    (d_of_size (variance_divisor samples)).

(** [t*(std::sqrt(s)/std::sqrt((double)samples.size()))]. *)
Definition margin_of_error (t : Q) (samples : list D) : D :=
  d_mul (d_literal t)
    (d_div (d_sqrt (sample_variance samples))
       (d_sqrt (d_of_size (size samples)))).

(** [mean()]; [None] when the read of [t_critical_value] is outside the
    array. *)
Definition mean (samples : list D) : option (D * D * D) :=
  t ← table_read (table_index samples);
  let m := sample_mean samples in
  let h := margin_of_error t samples in
  Some (d_sub m h, m, d_add m h).

(** The samples of the worked example. *)
Definition ten_samples : list D :=
  map d_of_size [100; 102; 98; 101; 99; 100; 103; 97; 100; 100].

(** [mean()] is well defined: it divides by no zero and reads inside the
    table. *)
Definition well_defined (samples : list D) : Prop :=
  mean_divisor samples ≠ 0 ∧ variance_divisor samples ≠ 0 ∧
  table_index samples < Z.of_nat (length t_critical_value).

End ConfidenceInterval.

(** Three binary64 samples, 2^60, 1 and -2^60, in two orders. *)
Definition cancelling_samples : list float :=
  [float_of_size (2 ^ 60); float_of_size 1;
   PrimFloat.opp (float_of_size (2 ^ 60))].

Definition cancelling_samples_reordered : list float :=
  [float_of_size (2 ^ 60); PrimFloat.opp (float_of_size (2 ^ 60));
   float_of_size 1].

(** *** The measurement loop of the benchmark *)

(** [const std::size_t num_times{30}] in the three [run_experiment_*]
    functions. *)
Definition num_times : nat := 30.

(** One cell of the table a [run_experiment_*] function returns:
    [confidence_interval mean(num_times)], then [num_times] runs, run [i]
    ending with [mean.add(elapsed_time)], then [mean.mean()]. *)
Definition measure {D : Type} `{Double D} (elapsed_time : nat → D)
  : option (D * D * D) :=
  mean (foldl (λ samples i, add (elapsed_time i) samples)
          (construct num_times) (seq 0 num_times)).

End Meanconf.

(** * Part II: theorems *)

(** ** Interleavings *)

Section InterleavingFacts.
Context {state event : Type}.
Variable step : nat → state → option (event * state).

Lemma exec_cons i sched s tr s' :
  exec step (i :: sched) s = Some (tr, s') →
  ∃ e s1 tr1,
    step i s = Some (e, s1) ∧ exec step sched s1 = Some (tr1, s') ∧
    tr = (i, e) :: tr1.
Proof.
  simpl. destruct (step i s) as [[e s1]|] eqn:Hstep; [|done].
  destruct (exec step sched s1) as [[tr1 s2]|] eqn:Hrest; [|done].
  intros [= <- <-]. exists e, s1, tr1. auto.
Qed.

Lemma exec_app sched1 sched2 s tr1 s1 tr2 s2 :
  exec step sched1 s = Some (tr1, s1) →
  exec step sched2 s1 = Some (tr2, s2) →
  exec step (sched1 ++ sched2) s = Some (tr1 ++ tr2, s2).
Proof.
  revert s tr1. induction sched1 as [|i sched1 IH]; intros s tr1.
  - intros [= <- <-] H2. exact H2.
  - intros (e & s' & tr' & Hstep & Hrest & ->)%exec_cons H2. simpl.
    rewrite Hstep. by rewrite (IH _ _ Hrest H2).
Qed.

(** A property kept by every step is kept by every execution. *)
Lemma exec_invariant (P : state → Prop) :
  (∀ i s e s', P s → step i s = Some (e, s') → P s') →
  ∀ sched s tr s', P s → exec step sched s = Some (tr, s') → P s'.
Proof.
  intros Hstep. induction sched as [|i sched IH]; intros s tr s' HP.
  - by intros [= _ <-].
  - intros (e & s1 & tr1 & Hs & Hrest & ->)%exec_cons. eauto.
Qed.

(** When every step from a state satisfying the invariant emits an event
    satisfying [Q], so does every event of every execution. *)
Lemma exec_events (P : state → Prop) (Q : nat → event → Prop) :
  (∀ i s e s', P s → step i s = Some (e, s') → P s' ∧ Q i e) →
  ∀ sched s tr s', P s → exec step sched s = Some (tr, s') →
    Forall (λ ie, Q ie.1 ie.2) tr.
Proof.
  intros Hstep. induction sched as [|i sched IH]; intros s tr s' HP.
  - intros [= <- _]. constructor.
  - intros (e & s1 & tr1 & Hs & Hrest & ->)%exec_cons.
    destruct (Hstep _ _ _ _ HP Hs). constructor; eauto.
Qed.

(** The local sense returns after two calls as soon as it is the parity of
    the calls in every state reached. *)
Lemma alternates_of_parity participants s0 :
  (∀ sched tr st, exec step sched s0 = Some (tr, st) →
     ∀ i ls k, participants st !! i = Some (ls, k) → ls = Nat.odd k) →
  alternates step participants s0.
Proof.
  intros Hpar sched tr st Hexec. split; [by eapply Hpar|].
  intros sched' tr' st' i ls k ls' Hexec' Hi Hi'.
  pose proof (exec_app _ _ _ _ _ _ _ Hexec Hexec') as Happ.
  rewrite (Hpar _ _ _ Hexec _ _ _ Hi), (Hpar _ _ _ Happ _ _ _ Hi').
  replace (k + 2)%nat with (S (S k)) by lia.
  by rewrite Nat.odd_succ, Nat.even_succ.
Qed.
End InterleavingFacts.

Section CountingFacts.
Context {A : Type}.
Variable f : A → nat.
Hypothesis f_le_1 : ∀ x, (f x ≤ 1)%nat.

Lemma count_marked_insert l i x y :
  l !! i = Some x →
  (count_marked f (<[i := y]> l) + f x = count_marked f l + f y)%nat.
Proof using Type.
  unfold count_marked. revert i.
  induction l as [|a l IH]; intros [|i] Hi; simplify_eq/=; [lia|].
  specialize (IH _ Hi). lia.
Qed.

Lemma count_marked_le l : (count_marked f l ≤ length l)%nat.
Proof using f_le_1.
  unfold count_marked. induction l as [|a l IH]; simpl; [lia|].
  pose proof (f_le_1 a). lia.
Qed.

Lemma count_marked_none l :
  (∀ i x, l !! i = Some x → f x = 0%nat) → count_marked f l = 0%nat.
Proof using Type.
  unfold count_marked. induction l as [|a l IH]; intros H; [done|].
  simpl. rewrite (H 0%nat a eq_refl), IH; [done|].
  intros i x Hi. by apply (H (S i)).
Qed.

(** An unmarked element leaves room for one mark less. *)
Lemma count_marked_lt l i x :
  l !! i = Some x → f x = 0%nat → (count_marked f l < length l)%nat.
Proof using f_le_1.
  revert i. induction l as [|a l IH]; intros [|i] Hi Hx; simplify_eq/=.
  - pose proof (count_marked_le l). unfold count_marked in *. simpl. lia.
  - pose proof (f_le_1 a). specialize (IH _ Hi Hx).
    unfold count_marked in *. simpl. lia.
Qed.

(** When all but one are marked, every other element is marked. *)
Lemma count_marked_all_but_one l i x j y :
  l !! i = Some x → f x = 0%nat → (count_marked f l + 1 = length l)%nat →
  l !! j = Some y → j ≠ i → f y = 1%nat.
Proof using f_le_1.
  intros Hi Hx Hcount Hj Hne.
  destruct (decide (f y = 1%nat)) as [|Hy]; [done|]. exfalso.
  assert (f y = 0%nat) as Hy0 by (pose proof (f_le_1 y); lia).
  revert i j Hi Hj Hne Hcount.
  induction l as [|a l IH]; intros [|i] [|j] Hi Hj Hne Hcount;
    simplify_eq/=.
  - pose proof (count_marked_lt l j y Hj Hy0).
    unfold count_marked in *. simpl in *. lia.
  - pose proof (count_marked_lt l i x Hi Hx).
    unfold count_marked in *. simpl in *. lia.
  - pose proof (f_le_1 a). pose proof (count_marked_lt l i x Hi Hx).
    apply (IH i j); try done; unfold count_marked in *; simpl in *; lia.
Qed.
End CountingFacts.

(** ** The pause loop and the backoff policies *)

Module BackoffFacts.
Import Backoff.




End BackoffFacts.

(** ** The centralized sense-reversing barrier *)

Module CentralizedFacts.
Import Centralized.

Section AwaitFacts.
Variable v : await_variant.
Variable num_episodes : nat.

Lemma step_inv i s e s' :
  step v num_episodes i s = Some (e, s') →
  ∃ w b w',
    workers s !! i = Some w ∧
    worker_step v num_episodes (bar s) w = Some (e, b, w') ∧
    s' = mk_state b (<[i := w']> (workers s)).
Proof.
  unfold step. intros H.
  destruct (workers s !! i) as [w|] eqn:Hw; simpl in H; [|done].
  destruct (worker_step v num_episodes (bar s) w) as [[[e0 b] w']|] eqn:Hs;
    simpl in H; [|done].
  injection H as <- <-. by exists w, b, w'.
Qed.

Lemma worker_step_num_threads b w e b' w' :
  worker_step v num_episodes b w = Some (e, b', w') →
  num_threads b' = num_threads b.
Proof.
  unfold worker_step. intros H.
  destruct (at_pc w); simpl in H; repeat case_decide;
    try destruct (releaser_sync v); try destruct (waiter_sync v);
    simplify_eq/=; done.
Qed.

Lemma step_num_threads i s e s' :
  step v num_episodes i s = Some (e, s') →
  num_threads (bar s') = num_threads (bar s).
Proof.
  intros (w & b & w' & _ & Hw & ->)%step_inv. simpl.
  eauto using worker_step_num_threads.
Qed.

Lemma step_other i j s e s' :
  step v num_episodes j s = Some (e, s') → j ≠ i →
  workers s' !! i = workers s !! i.
Proof.
  intros (w & b & w' & _ & _ & ->)%step_inv Hne. simpl.
  by apply list_lookup_insert_ne.
Qed.

Lemma step_self i s e s' :
  step v num_episodes i s = Some (e, s') →
  ∃ w b w',
    workers s !! i = Some w ∧ workers s' !! i = Some w' ∧
    worker_step v num_episodes (bar s) w = Some (e, b, w').
Proof.
  intros (w & b & w' & Hw & Hs & ->)%step_inv. exists w, b, w'.
  split_and!; [done| |done]. simpl. apply list_lookup_insert_eq.
  by eapply lookup_lt_Some.
Qed.

(** One step of a thread: its stamp does not decrease, and the events it
    still owes are those it owed before, less the one it emitted. *)
Lemma worker_step_rest b w e b' w' evs :
  worker_step v num_episodes b w = Some (e, b', w') →
  (stamp w ≤ stamp w')%nat ∧
  (at_pc w = outside → stamp w < stamp w')%nat ∧
  (at_pc w ≠ outside →
   next_outside w' = next_outside w ∧
   sense_at_return w' = sense_at_return w ∧
   (rest_of_await v (num_threads b) (local_sense w') (at_pc w') evs →
    rest_of_await v (num_threads b) (local_sense w) (at_pc w) (e :: evs))).
Proof.
  unfold worker_step, stamp, next_outside, sense_at_return.
  unfold releaser_entry, waiter_exit.
  destruct w as [p ls c]. simpl.
  destruct p; simpl; intros H.
  - case_decide; simplify_eq/=. split_and!; [lia|intros; lia|done].
  - injection H as <- <- <-.
    destruct (decide (size_type_wrap (counter b + 1) = num_threads b));
      [destruct (releaser_sync v) as [o|] eqn:Ho|]; simpl.
    all: split_and!; [lia|done|intros _]; split_and!; [done..|].
    all: intros Hrest; exists (counter b), evs; split; [done|].
    all: first [rewrite decide_True by done|rewrite decide_False by done].
    all: unfold releaser_events; rewrite ?Ho; try done.
    destruct Hrest as (o' & c' & ? & ->). simplify_eq. by exists c'.
  - destruct (releaser_sync v) as [o|] eqn:Ho; simplify_eq/=.
    split_and!; [lia|done|intros _]. split_and!; [done..|].
    intros ->. by eexists _, _.
  - simplify_eq/=. split_and!; [lia|done|intros _].
    split_and!; [done..|]. by intros ->.
  - simplify_eq/=. split_and!; [lia|done|intros _].
    split_and!; [done..|]. by intros ->.
  - injection H as <- <- <-.
    destruct (decide (sense b = ls)) as [Hs|Hs];
      [destruct (waiter_sync v) as [o|] eqn:Ho|]; simpl.
    all: split_and!; [lia|done|intros _]; split_and!; [done..|].
    all: intros Hrest.
    + destruct Hrest as (o' & b0 & Ho' & ->).
      rewrite Ho in Ho'. injection Ho' as <-.
      exists 0%nat, [sense_load o b0; local_sense_flip (negb ls)].
      rewrite Hs. split; [done|]. unfold after_spin. rewrite Ho.
      by exists b0.
    + subst evs. exists 0%nat, [local_sense_flip (negb ls)].
      rewrite Hs. split; [done|]. unfold after_spin. by rewrite Ho.
    + destruct Hrest as (k & tail & -> & Htail). exists (S k), tail.
      split; [|done]. simpl. do 2 f_equal. by destruct (sense b), ls.
  - destruct (waiter_sync v) as [o|] eqn:Ho; simplify_eq/=.
    split_and!; [lia|done|intros _]. split_and!; [done..|].
    intros ->. by eexists _, _.
  - simplify_eq/=. split_and!; [lia|done|intros _].
    split_and!; [lia|done|]. by intros ->.
Qed.

(** The events of thread [i] along an execution, up to the moment it is
    next outside [await]. *)
Lemma exec_rest_of_await i sched :
  ∀ s tr s' w w',
    exec (step v num_episodes) sched s = Some (tr, s') →
    workers s !! i = Some w → workers s' !! i = Some w' →
    (stamp w ≤ stamp w')%nat ∧
    (stamp w' = next_outside w →
     rest_of_await v (num_threads (bar s)) (local_sense w) (at_pc w)
       (events_of i tr) ∧
     local_sense w' = sense_at_return w).
Proof.
  induction sched as [|j sched IH]; intros s tr s' w w'.
  - intros [= <- <-] Hw Hw'. simplify_eq. split; [done|].
    unfold stamp, next_outside, sense_at_return.
    destruct (at_pc w) eqn:Hp; simpl; rewrite ?Hp; try done; lia.
  - intros (e & s1 & tr1 & Hstep & Hrest & ->)%exec_cons Hw Hw'.
    simpl. destruct (decide (j = i)) as [->|Hne].
    + destruct (step_self _ _ _ _ Hstep) as (w0 & b & w1 & ? & Hw1 & Hws).
      simplify_eq.
      destruct (IH _ _ _ _ _ Hrest Hw1 Hw') as [Hle Hshape].
      destruct (worker_step_rest _ _ _ _ _ (events_of i tr1) Hws)
        as (Hle1 & Hout & Hin).
      split; [lia|]. intros Hret.
      destruct (decide (at_pc w = outside)) as [Hp|Hp].
      { specialize (Hout Hp). unfold next_outside, stamp in *.
        rewrite Hp in *. lia. }
      destruct (Hin Hp) as (Hn & Hs & Hcons).
      rewrite <- Hn in Hret. destruct (Hshape Hret) as [Hr Hls].
      rewrite (step_num_threads _ _ _ _ Hstep) in Hr.
      split; [by apply Hcons|congruence].
    + rewrite <- (step_other i _ _ _ _ Hstep Hne) in Hw.
      destruct (IH _ _ _ _ _ Hrest Hw Hw') as [Hle Hshape].
      by rewrite (step_num_threads _ _ _ _ Hstep) in Hshape.
Qed.

End AwaitFacts.

(** Every step does to the barrier object what its event says. *)
Lemma step_memory_effect v num_episodes j s e s' :
  step v num_episodes j s = Some (e, s') →
  memory_effect e (bar s) (bar s') ∧
  ∀ x, x ≠ j → workers s' !! x = workers s !! x.
Proof.
  intros Hstep. split; [|intros x Hx; by eapply step_other].
  apply step_inv in Hstep as (w & b & w' & _ & Hws & ->). simpl.
  unfold worker_step in Hws.
  destruct (bar s) as [c g n]. simpl in Hws.
  destruct (at_pc w); simpl in Hws; repeat case_decide;
    try destruct (releaser_sync v); try destruct (waiter_sync v);
    simplify_eq/=; done.
Qed.

(** C1: the definition of [await] in use is the release/relaxed/acquire
    one, the first of the four.  A call of it by a thread with local
    sense [ls] performs, in order: [fetch_add(1, release)] on the
    counter, returning [pre]; when [pre + 1 == N] an acquire load of the
    counter, a relaxed store of 0 into the counter and a release store of
    [ls] into [sense]; otherwise relaxed loads of [sense] until one reads
    [ls], then one acquire load of [sense]; finally the flip of [ls].
    Every one of these operations acts on the barrier object as its name
    says: [fetch_add] returns the counter and leaves it one higher, a
    load returns the value of its cell and changes nothing, a store
    leaves its value in its cell and changes nothing else, and no step
    touches another thread's local sense. *)
Theorem centralized_await_trace :
  active_await ∈ await_variants ∧
  (∀ num_episodes i sched s tr s' w w',
     exec (step active_await num_episodes) sched s = Some (tr, s') →
     workers s !! i = Some w → at_pc w = at_fetch_add →
     workers s' !! i = Some w' → at_pc w' = outside →
     completed w' = S (completed w) →
     await_events (num_threads (bar s)) (local_sense w) (events_of i tr) ∧
     local_sense w' = negb (local_sense w)) ∧
  (∀ num_episodes j s e s',
     step active_await num_episodes j s = Some (e, s') →
     memory_effect e (bar s) (bar s') ∧
     ∀ x, x ≠ j → workers s' !! x = workers s !! x).
Proof.
  split_and!; [by left| |by apply step_memory_effect].
  intros num_episodes i sched s tr s' w w' Hexec Hw Hp Hw' Hp' Hc.
  destruct (exec_rest_of_await _ _ i sched _ _ _ _ _ Hexec Hw Hw')
    as [_ Hshape].
  unfold stamp, next_outside, sense_at_return in Hshape.
  rewrite Hp, Hp', Hc in Hshape. destruct Hshape as [Hr ->]; [lia|].
  split; [|done]. destruct Hr as (pre & tail & -> & Htail).
  exists pre. case_decide.
  - destruct Htail as [c ->]. eexists. split; [|by exists c]. done.
  - destruct Htail as (k & tail' & -> & [b ->]).
    eexists. split; [|by exists k, b]. simpl.
    by rewrite <- app_assoc.
Qed.

(** On two threads: thread 0 spins once in vain, then thread 1, the last
    arriver, releases it; the barrier object ends with the counter reset
    and the local sense of the last arriver in [sense].  The [fetch_add]
    of thread 1 finds the counter at 1 and leaves it at 2. *)
Lemma centralized_await_trace_witness :
  ∃ tr s' tr1 s1 s2,
    exec (step active_await 1) two_thread_sched two_thread_state
      = Some (tr, s') ∧
    await_events 2 false (events_of 0 tr) ∧
    workers s' !! 0%nat = Some (mk_worker outside true 1) ∧
    bar s' = mk_barrier 0 false 2 ∧
    exec (step active_await 1) [0; 1]%nat two_thread_state
      = Some (tr1, s1) ∧
    step active_await 1 1 s1
      = Some (counter_fetch_add memory_order_release 1, s2) ∧
    memory_effect (counter_fetch_add memory_order_release 1)
      (bar s1) (bar s2) ∧
    bar s2 = mk_barrier 2 true 2.
Proof.
  eexists _, _, _, _, _. split; [vm_compute; reflexivity|].
  split.
  { refine (proj1 (proj1 (proj2 centralized_await_trace)
              1%nat 0%nat two_thread_sched two_thread_state _ _
              (mk_worker at_fetch_add false 0) (mk_worker outside true 1)
              _ _ _ _ _ _));
      vm_compute; reflexivity. }
  split; [vm_compute; reflexivity|]. split; [vm_compute; reflexivity|].
  split; [vm_compute; reflexivity|]. split; [vm_compute; reflexivity|].
  split; [|vm_compute; reflexivity].
  refine (proj1 (proj2 (proj2 centralized_await_trace) 1%nat 1%nat _ _ _ _)).
  vm_compute; reflexivity.
Defined.

(** *** Episodes *)

Lemma counted_le_1 s w : (counted s w ≤ 1)%nat.
Proof. unfold counted. repeat case_match; lia. Qed.

Lemma episode_inv_initial n :
  Z.of_nat n < 2 ^ 32 → episode_inv (initial n).
Proof.
  intros Hn. split; simpl.
  - by rewrite length_replicate.
  - done.
  - intros i w [-> _]%lookup_replicate. split_and!; [done..|].
    by intros [?|?].
  - intros i w j w' [-> _]%lookup_replicate [?|[?|?]]; done.
  - right. split.
    + by intros i w [-> _]%lookup_replicate.
    + rewrite count_marked_none; [done|].
      by intros i w [-> _]%lookup_replicate.
Qed.

Section EpisodeFacts.
Variable v : await_variant.
Variable num_episodes : nat.

(** A step that writes neither the counter nor the sense, by a thread that
    stays counted or uncounted and does not become the last arriver. *)
Lemma episode_inv_local b ws i w w' :
  episode_inv (mk_state b ws) → ws !! i = Some w →
  worker_ok (sense b) w' →
  counted (sense b) w' = counted (sense b) w →
  (at_pc w' = at_signal ↔ at_pc w = at_signal) →
  (releasing (at_pc w') → releasing (at_pc w)) →
  (at_pc w = at_spin → local_sense w = negb (sense b) →
   at_pc w' = at_spin ∧ local_sense w' = negb (sense b)) →
  episode_inv (mk_state b (<[i := w']> ws)).
Proof.
  intros [Ht Hs Hw Ha Hc] Hi Hok Hcnt Hsig Hrel Hspin. simpl in *.
  assert (i < length ws)%nat as Hlt by by eapply lookup_lt_Some.
  split; simpl.
  - by rewrite length_insert.
  - done.
  - intros j wj Hj. destruct (decide (j = i)) as [->|Hne].
    + rewrite list_lookup_insert_eq in Hj by done. by simplify_eq.
    + rewrite list_lookup_insert_ne in Hj by done. eauto.
  - intros j wj k wk Hj Hrj Hk Hne.
    destruct (decide (j = i)) as [->|Hji].
    + rewrite list_lookup_insert_eq in Hj by done. simplify_eq.
      rewrite list_lookup_insert_ne in Hk by done. eauto.
    + rewrite list_lookup_insert_ne in Hj by done.
      destruct (decide (k = i)) as [->|Hki].
      * rewrite list_lookup_insert_eq in Hk by done. simplify_eq.
        destruct (Ha _ _ _ _ Hj Hrj Hi) as [? ?]; [done|]. by apply Hspin.
      * rewrite list_lookup_insert_ne in Hk by done. eauto.
  - destruct Hc as [[(j & wj & Hj & Hsj) Hc]|[Hns Hc]].
    + left. split; [|done]. destruct (decide (j = i)) as [->|Hne].
      * exists i, w'. rewrite list_lookup_insert_eq by done.
        simplify_eq. split; [done|]. by apply Hsig.
      * exists j, wj. by rewrite list_lookup_insert_ne.
    + right. split.
      * intros j wj Hj. destruct (decide (j = i)) as [->|Hne].
        -- rewrite list_lookup_insert_eq in Hj by done. simplify_eq.
           intros ?%Hsig. by eapply Hns.
        -- rewrite list_lookup_insert_ne in Hj by done. eauto.
      * rewrite Hc. f_equal.
        pose proof (count_marked_insert (counted (sense b)) ws i w w' Hi).
        lia.
Qed.

Lemma step_episode_inv i st e st' :
  episode_inv st → step v num_episodes i st = Some (e, st') →
  episode_inv st'.
Proof.
  intros Hinv (w & b' & w' & Hi & Hws & ->)%step_inv.
  destruct st as [b ws]. simpl in *.
  pose proof Hinv as [Ht Hs Hw Ha Hc]. simpl in *.
  assert (i < length ws)%nat as Hlt by by eapply lookup_lt_Some.
  destruct (Hw _ _ Hi) as (Hpar & Hbefore & Hafter).
  assert (∀ j wj, releasing (at_pc wj) → ws !! j = Some wj →
            at_pc w ≠ at_spin → j = i) as Honly.
  { intros j wj Hr Hj Hp. destruct (decide (j = i)) as [|Hne]; [done|].
    destruct (Ha _ _ _ _ Hj Hr Hi) as [? _]; done. }
  revert Hws. unfold worker_step. destruct w as [p ls c]. simpl in *.
  destruct p; simpl.
  - (* outside *)
    case_decide; [|done]. intros [= <- <- <-].
    apply (episode_inv_local _ _ _ _ _ Hinv Hi); simpl; try done.
    + split_and!; [done| |by intros [?|?]]. intros _. apply Hbefore.
      by left.
    + by intros [?|[?|?]].
  - (* at_fetch_add *)
    intros [= <- <- <-].
    assert (∀ j wj, ws !! j = Some wj → ¬ releasing (at_pc wj)) as Hnorel.
    { intros j wj Hj Hr. assert (j = i) as -> by by eapply Honly.
      simplify_eq. by destruct Hr as [?|[?|?]]. }
    destruct Hc as [[(j & wj & Hj & Hsj) _]|[Hns Hc]].
    { destruct (Hnorel _ _ Hj). right. by right. }
    pose proof (count_marked_lt (counted (sense b)) (counted_le_1 _)
                  ws i _ Hi eq_refl) as Hcl.
    assert (size_type_wrap (counter b + 1) = counter b + 1) as Hwrap.
    { unfold size_type_wrap. apply Z.mod_small. lia. }
    rewrite Hwrap.
    assert (∀ w', ws !! i = Some (mk_worker at_fetch_add ls c) →
              counted (sense b) w' = 1%nat →
              Z.of_nat (count_marked (counted (sense b)) (<[i := w']> ws))
              = counter b + 1) as Hins.
    { intros w' Hi' Hw'.
      pose proof (count_marked_insert (counted (sense b)) ws i _ w' Hi')
        as Hins.
      rewrite Hw' in Hins.
      change (counted (sense b) (mk_worker at_fetch_add ls c))
        with 0%nat in Hins. lia. }
    assert (ls = negb (sense b)) as Hls
      by (apply Hbefore; right; by left).
    case_decide as Hlast.
    + (* the last arriver *)
      assert (releasing (releaser_entry v) ∧
              counted (sense b) (mk_worker (releaser_entry v) ls c) = 1%nat
              ∧ releaser_entry v ≠ at_signal) as (Hr & Hcnt & Hnsig).
      { unfold releaser_entry, counted. simpl.
        destruct (releaser_sync v); split_and!; try done;
          [by left|right; by left]. }
      split; simpl.
      * by rewrite length_insert.
      * done.
      * intros j wj Hj. destruct (decide (j = i)) as [->|Hne].
        -- rewrite list_lookup_insert_eq in Hj by done. simplify_eq.
           split_and!; simpl; [done|done|].
           intros [E|E]; revert E; unfold releaser_entry;
             by destruct (releaser_sync v).
        -- rewrite list_lookup_insert_ne in Hj by done. eauto.
      * intros j wj k wk Hj Hrj Hk Hne.
        destruct (decide (j = i)) as [->|Hji].
        -- rewrite list_lookup_insert_ne in Hk by done.
           assert (counted (sense b) wk = 1%nat) as Hk1.
           { eapply (count_marked_all_but_one (counted (sense b))
                       (counted_le_1 _) ws i _ k wk Hi eq_refl);
               [lia|done..]. }
           pose proof (Hnorel _ _ Hk) as Hnr. revert Hk1 Hnr.
           unfold counted, releasing. destruct wk as [pk lsk ck]. simpl.
           destruct pk; try done.
           ++ intros _ []. by left.
           ++ intros _ []. right. by left.
           ++ case_decide; [done|]. intros _ _. split; [done|].
              by destruct lsk, (sense b).
        -- rewrite list_lookup_insert_ne in Hj by done.
           by destruct (Hnorel _ _ Hj).
      * right. split.
        -- intros j wj Hj. destruct (decide (j = i)) as [->|Hne].
           ++ rewrite list_lookup_insert_eq in Hj by done. by simplify_eq.
           ++ rewrite list_lookup_insert_ne in Hj by done. eauto.
        -- by rewrite (Hins _ Hi Hcnt).
    + (* a waiter *)
      assert (counted (sense b) (mk_worker at_spin ls c) = 1%nat) as Hcnt.
      { unfold counted. simpl. rewrite decide_False; [done|].
        rewrite Hls. by destruct (sense b). }
      split; simpl.
      * by rewrite length_insert.
      * done.
      * intros j wj Hj. destruct (decide (j = i)) as [->|Hne].
        -- rewrite list_lookup_insert_eq in Hj by done. simplify_eq.
           split_and!; simpl; [done|by intros [?|[?|[?|[?|?]]]]|].
           by intros [?|?].
        -- rewrite list_lookup_insert_ne in Hj by done. eauto.
      * intros j wj k wk Hj Hrj Hk Hne.
        destruct (decide (j = i)) as [->|Hji].
        -- rewrite list_lookup_insert_eq in Hj by done. simplify_eq.
           by destruct Hrj as [?|[?|?]].
        -- rewrite list_lookup_insert_ne in Hj by done.
           by destruct (Hnorel _ _ Hj).
      * right. split.
        -- intros j wj Hj. destruct (decide (j = i)) as [->|Hne].
           ++ rewrite list_lookup_insert_eq in Hj by done. by simplify_eq.
           ++ rewrite list_lookup_insert_ne in Hj by done. eauto.
        -- by rewrite (Hins _ Hi Hcnt).
  - (* at_releaser_sync *)
    destruct (releaser_sync v) as [o|]; simpl; [|done].
    intros [= <- <- <-].
    apply (episode_inv_local _ _ _ _ _ Hinv Hi); simpl; try done.
    + split_and!; [done| |by intros [?|?]]. intros _. apply Hbefore.
      right. right. by left.
    + intros _. by left.
  - (* at_reset *)
    intros [= <- <- <-]. split; simpl.
    + by rewrite length_insert.
    + done.
    + intros j wj Hj. destruct (decide (j = i)) as [->|Hne].
      * rewrite list_lookup_insert_eq in Hj by done. simplify_eq.
        split_and!; simpl; [done| |by intros [?|?]]. intros _.
        apply Hbefore. right. right. right. by left.
      * rewrite list_lookup_insert_ne in Hj by done. eauto.
    + intros j wj k wk Hj Hrj Hk Hne.
      destruct (decide (j = i)) as [->|Hji].
      * rewrite list_lookup_insert_ne in Hk by done.
        eapply (Ha _ _ _ _ Hi); [right; by left|done..].
      * rewrite list_lookup_insert_ne in Hj by done.
        assert (j = i) by by eapply Honly. done.
    + left. split; [|done]. exists i. eexists.
      by rewrite list_lookup_insert_eq.
  - (* at_signal *)
    intros [= <- <- <-].
    assert (ls = negb (sense b)) as Hls by (apply Hbefore; by do 4 right).
    assert (∀ j wj, ws !! j = Some wj → j ≠ i →
              at_pc wj = at_spin ∧ local_sense wj = ls) as Hothers.
    { intros j wj Hj Hne. rewrite Hls.
      eapply (Ha _ _ _ _ Hi); [by do 2 right|done..]. }
    split; simpl.
    + by rewrite length_insert.
    + done.
    + intros j wj Hj. destruct (decide (j = i)) as [->|Hne].
      * rewrite list_lookup_insert_eq in Hj by done. simplify_eq.
        split_and!; simpl; [done|by intros [?|[?|[?|[?|?]]]]|done].
      * rewrite list_lookup_insert_ne in Hj by done.
        destruct (Hothers _ _ Hj Hne) as [Hp Hl].
        destruct (Hw _ _ Hj) as (? & _ & _).
        split_and!; [done|rewrite Hp; by intros [?|[?|[?|[?|?]]]]|].
        rewrite Hp. by intros [?|?].
    + intros j wj k wk Hj Hrj Hk Hne.
      destruct (decide (j = i)) as [->|Hji].
      * rewrite list_lookup_insert_eq in Hj by done. simplify_eq.
        by destruct Hrj as [?|[?|?]].
      * rewrite list_lookup_insert_ne in Hj by done.
        destruct (Hothers _ _ Hj Hji) as [Hp _]. rewrite Hp in Hrj.
        by destruct Hrj as [?|[?|?]].
    + right. split.
      * intros j wj Hj. destruct (decide (j = i)) as [->|Hne].
        -- rewrite list_lookup_insert_eq in Hj by done. by simplify_eq.
        -- rewrite list_lookup_insert_ne in Hj by done.
           destruct (Hothers _ _ Hj Hne) as [Hp _]. by rewrite Hp.
      * destruct Hc as [[_ ->]|[Hns _]]; [|by destruct (Hns _ _ Hi)].
        rewrite count_marked_none; [done|].
        intros j wj Hj. destruct (decide (j = i)) as [->|Hne].
        -- rewrite list_lookup_insert_eq in Hj by done. by simplify_eq.
        -- rewrite list_lookup_insert_ne in Hj by done.
           destruct (Hothers _ _ Hj Hne) as [Hp Hl].
           unfold counted. rewrite Hp. by rewrite decide_True.
  - (* at_spin *)
    intros [= <- <- <-]. case_decide as Hhit.
    + apply (episode_inv_local _ _ _ _ _ Hinv Hi); simpl.
      * split_and!; simpl; [done| |done].
        unfold waiter_exit. destruct (waiter_sync v); by intros [?|[?|[?|[?|?]]]].
      * unfold counted, waiter_exit. simpl. rewrite decide_True by done.
        by destruct (waiter_sync v).
      * unfold waiter_exit. by destruct (waiter_sync v).
      * unfold waiter_exit. destruct (waiter_sync v); by intros [?|[?|?]].
      * intros _ Hl. rewrite Hl in Hhit. by destruct (sense b).
    + replace ws with (<[i := mk_worker at_spin ls c]> ws) at 1
        by by apply list_insert_id.
      by rewrite list_insert_insert_eq, list_insert_id.
  - (* at_waiter_sync *)
    destruct (waiter_sync v) as [o|]; simpl; [|done].
    intros [= <- <- <-].
    apply (episode_inv_local _ _ _ _ _ Hinv Hi); simpl; try done.
    + split_and!; simpl; [done|by intros [?|[?|[?|[?|?]]]]|].
      intros _. apply Hafter. by left.
    + by intros [?|[?|?]].
  - (* at_flip *)
    intros [= <- <- <-].
    apply (episode_inv_local _ _ _ _ _ Hinv Hi); simpl; try done.
    + split_and!; simpl.
      * rewrite Nat.odd_succ, Hpar. apply Nat.negb_odd.
      * intros _. f_equal. apply Hafter. by right.
      * by intros [?|?].
    + by intros [?|[?|?]].
Qed.

Lemma exec_episode_inv sched st tr st' :
  episode_inv st → exec (step v num_episodes) sched st = Some (tr, st') →
  episode_inv st'.
Proof. apply exec_invariant. intros i s e s1. apply step_episode_inv. Qed.

End EpisodeFacts.

(** Between two episodes the counter is 0, every local sense is the parity
    of the episodes completed, and the sense is the other value. *)
Lemma episode_boundary k st :
  episode_inv st → between_episodes k st →
  counter (bar st) = 0 ∧
  (workers st ≠ [] → sense (bar st) = negb (Nat.odd k)) ∧
  ∀ i w, workers st !! i = Some w → local_sense w = Nat.odd k.
Proof.
  intros [Ht Hs Hw Ha Hc] Hb. split_and!.
  - destruct Hc as [[(j & wj & Hj & Hsj) _]|[_ ->]].
    + destruct (Hb _ _ Hj) as [Hp _]. congruence.
    + rewrite count_marked_none; [done|]. intros i w Hi.
      destruct (Hb _ _ Hi) as [Hp _]. unfold counted. by rewrite Hp.
  - unfold between_episodes in Hb.
    destruct (workers st) as [|w ws]; [done|]. intros _.
    destruct (Hb 0%nat w) as [Hp <-]; [done|].
    destruct (Hw 0%nat w) as (Hpar & Hbefore & _); [done|].
    rewrite <- Hpar, Hbefore by (by left). by destruct (sense (bar st)).
  - intros i w Hi. destruct (Hb _ _ Hi) as [_ <-].
    by destruct (Hw _ _ Hi) as (Hpar & _).
Qed.

(** *** Synchronisation *)

Lemma in_step_initial n : in_step (initial n).
Proof. exists 0%nat. by intros i w [-> _]%lookup_replicate. Qed.

Section SynchronisationFacts.
Variable v : await_variant.
Variable num_episodes : nat.

(** What a step does to the sense, the local sense and the count of calls:
    the release writes the local sense into the sense, the flip ends the
    call, every other step leaves the three as they are. *)
Lemma worker_step_episode b w e b' w' :
  worker_step v num_episodes b w = Some (e, b', w') →
  at_pc w = at_signal ∧ sense b' = local_sense w ∧
    local_sense w' = local_sense w ∧ completed w' = completed w ∨
  at_pc w = at_flip ∧ sense b' = sense b ∧
    local_sense w' = negb (local_sense w) ∧
    completed w' = S (completed w) ∨
  at_pc w ≠ at_signal ∧ at_pc w ≠ at_flip ∧ sense b' = sense b ∧
    local_sense w' = local_sense w ∧ completed w' = completed w.
Proof.
  unfold worker_step. intros H.
  destruct (at_pc w) eqn:Hp; simpl in H; repeat case_decide;
    try destruct (releaser_sync v); try destruct (waiter_sync v);
    simplify_eq/=; auto 10.
Qed.

Lemma step_in_step i st e st' :
  episode_inv st → in_step st → step v num_episodes i st = Some (e, st') →
  in_step st'.
Proof.
  intros Hinv [ep Hep] (w & b' & w' & Hi & Hws & ->)%step_inv.
  pose proof (inv_workers _ Hinv _ _ Hi) as (_ & Hbefore & Hafter).
  assert (i < length (workers st))%nat as Hlt by by eapply lookup_lt_Some.
  pose proof (Hep _ _ Hi) as Hw. unfold episodes_seen in Hw.
  destruct (worker_step_episode _ _ _ _ _ Hws)
    as [(Hp & Hs & Hl & Hc)|[(Hp & Hs & Hl & Hc)|(_ & _ & Hs & Hl & Hc)]].
  - (* the release *)
    assert (local_sense w = negb (sense (bar st))) as Hls
      by (apply Hbefore; rewrite Hp; by do 4 right).
    exists (S ep). simpl. intros j wj Hj. unfold episodes_seen.
    rewrite Hs. destruct (decide (j = i)) as [->|Hne].
    + rewrite list_lookup_insert_eq in Hj by done. injection Hj as <-.
      rewrite Hl, Hc, decide_True by done.
      rewrite decide_False in Hw by (rewrite Hls; by destruct (sense (bar st))).
      lia.
    + rewrite list_lookup_insert_ne in Hj by done.
      destruct (inv_alone _ Hinv i w j wj Hi) as [_ Hlj];
        [rewrite Hp; by do 2 right|done..|].
      pose proof (Hep _ _ Hj) as Hwj. unfold episodes_seen in Hwj.
      rewrite decide_False in Hwj by (rewrite Hlj; by destruct (sense (bar st))).
      rewrite decide_True by congruence. lia.
  - (* the flip *)
    assert (local_sense w = sense (bar st)) as Hls
      by (apply Hafter; rewrite Hp; by right).
    exists ep. simpl. intros j wj Hj. unfold episodes_seen.
    rewrite Hs. destruct (decide (j = i)) as [->|Hne].
    + rewrite list_lookup_insert_eq in Hj by done. injection Hj as <-.
      rewrite Hl, Hc, decide_False
        by (rewrite Hls; by destruct (sense (bar st))).
      rewrite decide_True in Hw by done. lia.
    + rewrite list_lookup_insert_ne in Hj by done. exact (Hep _ _ Hj).
  - exists ep. simpl. intros j wj Hj. unfold episodes_seen.
    rewrite Hs. destruct (decide (j = i)) as [->|Hne].
    + rewrite list_lookup_insert_eq in Hj by done. injection Hj as <-.
      by rewrite Hl, Hc.
    + rewrite list_lookup_insert_ne in Hj by done. exact (Hep _ _ Hj).
Qed.

Lemma exec_in_step sched st tr st' :
  episode_inv st → in_step st →
  exec (step v num_episodes) sched st = Some (tr, st') →
  episode_inv st' ∧ in_step st'.
Proof.
  intros Hinv Hin Hexec.
  eapply (exec_invariant (step v num_episodes)
            (λ s, episode_inv s ∧ in_step s)); [|by split|done].
  intros i s e s1 [? ?] Hstep.
  split; [by eapply step_episode_inv|by eapply step_in_step].
Qed.

End SynchronisationFacts.

(** X1: the centralized barrier synchronises.  In every state the threads
    can reach, two threads differ by at most one in the number of calls of
    [await] they have returned from, and when thread [i] is one call ahead
    of thread [j], thread [j] is inside [await], past its arrival (its
    [fetch_add]): no thread returns from its [k]-th call before every
    thread has arrived at its [k]-th call. *)
Theorem centralized_barrier_synchronises v num_episodes n tr st i j wi wj :
  Z.of_nat n < 2 ^ 32 →
  reaches v num_episodes n tr st →
  workers st !! i = Some wi → workers st !! j = Some wj →
  (completed wj < completed wi)%nat →
  completed wi = S (completed wj) ∧ past_arrival (at_pc wj).
Proof.
  intros Hn [sched Hexec] Hi Hj Hlt.
  destruct (exec_in_step _ _ _ _ _ _ (episode_inv_initial n Hn)
              (in_step_initial n) Hexec) as [Hinv [ep Hep]].
  pose proof (Hep _ _ Hi) as Hwi. pose proof (Hep _ _ Hj) as Hwj.
  unfold episodes_seen in *.
  destruct (decide (local_sense wj = sense (bar st))) as [Hs|Hs];
    [|case_decide; lia].
  split; [case_decide; lia|].
  pose proof (inv_workers _ Hinv _ _ Hj) as (_ & Hbefore & _).
  unfold past_arrival, before_release in *.
  destruct (at_pc wj); auto; exfalso;
    rewrite Hbefore in Hs by auto 10; by destruct (sense (bar st)).
Qed.

(** After the first three threads of four have left the first episode. *)
Lemma centralized_barrier_synchronises_witness :
  ∃ tr st wi wj,
    reaches await_release_acquire 1 4 tr st ∧
    workers st !! 0%nat = Some wi ∧ workers st !! 3%nat = Some wj ∧
    completed wi = S (completed wj) ∧ past_arrival (at_pc wj).
Proof.
  eexists _, _, (mk_worker outside true 1), (mk_worker at_flip false 0).
  split; [exists (take 21 four_thread_episode); vm_compute; reflexivity|].
  split; [vm_compute; reflexivity|]. split; [vm_compute; reflexivity|].
  refine (centralized_barrier_synchronises await_release_acquire 1 4 _ _
            0 3 _ _ _ (ex_intro _ (take 21 four_thread_episode) _) _ _ _);
    [vm_compute; reflexivity..|simpl; lia].
Defined.

(** *** The counter and the last arriver *)

Lemma count_marked_all {A} (f : A → nat) (l : list A) :
  (∀ i x, l !! i = Some x → f x = 1%nat) → count_marked f l = length l.
Proof.
  unfold count_marked. induction l as [|a l IH]; intros H; [done|].
  simpl. rewrite (H 0%nat a eq_refl), IH; [done|].
  intros i x Hi. by apply (H (S i)).
Qed.

Section CounterFacts.
Variable v : await_variant.
Variable num_episodes : nat.

(** Only the first statement of [await] emits a [fetch_add], and it
    returns the counter. *)
Lemma worker_step_fetch_add b w o pre b' w' :
  worker_step v num_episodes b w = Some (counter_fetch_add o pre, b', w') →
  at_pc w = at_fetch_add ∧ pre = counter b.
Proof.
  unfold worker_step. intros H.
  destruct (at_pc w) eqn:Hp; simpl in H; repeat case_decide;
    try destruct (releaser_sync v); try destruct (waiter_sync v);
    simplify_eq/=; done.
Qed.

(** Only the spin loop and the load after it read the sense. *)
Lemma worker_step_sense_load b w o x b' w' :
  worker_step v num_episodes b w = Some (sense_load o x, b', w') →
  at_pc w = at_spin ∨ at_pc w = at_waiter_sync.
Proof.
  unfold worker_step. intros H.
  destruct (at_pc w) eqn:Hp; simpl in H; repeat case_decide;
    try destruct (releaser_sync v); try destruct (waiter_sync v);
    simplify_eq/=; auto.
Qed.

(** The counter when a thread is about to arrive: fewer than all threads
    are counted. *)
Lemma counter_before_arrival st i w :
  episode_inv st → workers st !! i = Some w → at_pc w = at_fetch_add →
  0 ≤ counter (bar st) < num_threads (bar st).
Proof.
  intros Hinv Hi Hp. rewrite (inv_threads _ Hinv).
  assert (i < length (workers st))%nat by by eapply lookup_lt_Some.
  destruct (inv_count _ Hinv) as [[_ ->]|[_ ->]]; [lia|].
  assert (counted (sense (bar st)) w = 0%nat) as Hc
    by (unfold counted; by rewrite Hp).
  pose proof (count_marked_lt (counted (sense (bar st))) (counted_le_1 _)
                _ _ _ Hi Hc). lia.
Qed.

Lemma counter_in_range st :
  episode_inv st → 0 ≤ counter (bar st) ≤ num_threads (bar st).
Proof.
  intros Hinv. rewrite (inv_threads _ Hinv).
  destruct (inv_count _ Hinv) as [[_ ->]|[_ ->]]; [lia|].
  pose proof (count_marked_le (counted (sense (bar st))) (counted_le_1 _)
                (workers st)). lia.
Qed.

(** The invariant of the barrier, with the number of threads. *)
Lemma step_episode_inv_threads n i st e st' :
  episode_inv st ∧ num_threads (bar st) = n →
  step v num_episodes i st = Some (e, st') →
  episode_inv st' ∧ num_threads (bar st') = n.
Proof.
  intros [Hinv <-] Hstep.
  split; [by eapply step_episode_inv|by eapply step_num_threads].
Qed.

End CounterFacts.

(** X2: the counter never leaves the range from 0 to the number of
    threads, and every [fetch_add] returns a number below the number of
    threads, so that [pre_arrived + 1] never wraps in [unsigned int]. *)
Theorem counter_stays_in_range v num_episodes n tr st :
  Z.of_nat n < 2 ^ 32 →
  reaches v num_episodes n tr st →
  num_threads (bar st) = Z.of_nat n ∧
  0 ≤ counter (bar st) ≤ Z.of_nat n ∧
  Forall (λ ie, ∀ o pre, ie.2 = counter_fetch_add o pre →
            0 ≤ pre < Z.of_nat n ∧ size_type_wrap (pre + 1) = pre + 1) tr.
Proof.
  intros Hn [sched Hexec].
  assert (episode_inv (initial n) ∧ num_threads (bar (initial n)) = Z.of_nat n)
    as Hinit by (split; [by apply episode_inv_initial|done]).
  pose proof (exec_invariant (step v num_episodes) _
                (step_episode_inv_threads v num_episodes (Z.of_nat n))
                _ _ _ _ Hinit Hexec) as [Hinv Hnt].
  split; [done|]. split; [rewrite <- Hnt; by apply counter_in_range|].
  eapply (exec_events (step v num_episodes)
            (λ s, episode_inv s ∧ num_threads (bar s) = Z.of_nat n)
            (λ _ e, ∀ o pre, e = counter_fetch_add o pre →
               0 ≤ pre < Z.of_nat n ∧ size_type_wrap (pre + 1) = pre + 1));
    [|exact Hinit|exact Hexec].
  intros i s e s1 [Hs Hsn] Hstep.
  split; [exact (step_episode_inv_threads _ _ _ _ _ _ _ (conj Hs Hsn) Hstep)|].
  intros o pre ->.
  apply step_inv in Hstep as (w & b & w' & Hi & Hws & _).
  apply worker_step_fetch_add in Hws as [Hp ->].
  pose proof (counter_before_arrival _ _ _ Hs Hi Hp) as Hc.
  rewrite Hsn in Hc. split; [done|].
  unfold size_type_wrap. apply Z.mod_small. lia.
Qed.

(** On the first episode of four threads. *)
Lemma counter_stays_in_range_witness :
  ∃ tr st,
    reaches await_release_acquire 1 4 tr st ∧
    length tr = 22%nat ∧
    0 ≤ counter (bar st) ≤ 4 ∧
    Forall (λ ie, ∀ o pre, ie.2 = counter_fetch_add o pre →
              0 ≤ pre < 4 ∧ size_type_wrap (pre + 1) = pre + 1) tr.
Proof.
  eexists _, _.
  split; [exists four_thread_episode; vm_compute; reflexivity|].
  split; [vm_compute; reflexivity|].
  refine (proj2 (counter_stays_in_range await_release_acquire 1 4 _ _ _
                   (ex_intro _ four_thread_episode _)));
    vm_compute; reflexivity.
Defined.

(** X3: one releaser at a time.  While the last arriver is between its
    [fetch_add] and its store into the sense, every other thread is in
    the spin loop, waiting for the value the last arriver is about to
    store; and the counter holds the number of threads until the last
    arriver resets it, and 0 afterwards. *)
Theorem one_releaser_at_a_time v num_episodes n tr st i wi :
  Z.of_nat n < 2 ^ 32 →
  reaches v num_episodes n tr st →
  workers st !! i = Some wi → releasing (at_pc wi) →
  counter (bar st)
  = (if decide (at_pc wi = at_signal) then 0 else Z.of_nat n) ∧
  local_sense wi = negb (sense (bar st)) ∧
  ∀ j wj, workers st !! j = Some wj → j ≠ i →
    at_pc wj = at_spin ∧ local_sense wj = local_sense wi.
Proof.
  intros Hn [sched Hexec] Hi Hrel.
  assert (episode_inv (initial n) ∧ num_threads (bar (initial n)) = Z.of_nat n)
    as Hinit by (split; [by apply episode_inv_initial|done]).
  pose proof (exec_invariant (step v num_episodes) _
                (step_episode_inv_threads v num_episodes (Z.of_nat n))
                _ _ _ _ Hinit Hexec) as [Hinv Hnt].
  pose proof (inv_workers _ Hinv _ _ Hi) as (_ & Hbefore & _).
  assert (local_sense wi = negb (sense (bar st))) as Hls.
  { apply Hbefore. unfold before_release.
    destruct Hrel as [-> | [-> | ->]]; auto 10. }
  assert (∀ j wj, workers st !! j = Some wj → j ≠ i →
            at_pc wj = at_spin ∧ local_sense wj = negb (sense (bar st)))
    as Hothers
    by (intros j wj Hj Hne; exact (inv_alone _ Hinv i wi j wj Hi Hrel Hj Hne)).
  split_and!;
    [|done|intros j wj Hj Hne; rewrite Hls; exact (Hothers _ _ Hj Hne)].
  destruct (inv_count _ Hinv) as [[(j & wj & Hj & Hpj) Hc]|[Hns Hc]].
  - destruct (decide (j = i)) as [->|Hne].
    + simplify_eq. by rewrite decide_True.
    + destruct (Hothers _ _ Hj Hne) as [? _]. congruence.
  - rewrite decide_False by (by apply (Hns i)).
    rewrite Hc, count_marked_all;
      [rewrite <- Hnt; by rewrite (inv_threads _ Hinv)|].
    intros j wj Hj. unfold counted. destruct (decide (j = i)) as [->|Hne].
    + simplify_eq. destruct Hrel as [-> | [-> | Hp]]; [done..|].
      by destruct (Hns _ _ Hi).
    + destruct (Hothers _ _ Hj Hne) as [-> Hlj].
      rewrite decide_False; [done|]. rewrite Hlj.
      by destruct (sense (bar st)).
Qed.

(** When the last of four threads has arrived. *)
Lemma one_releaser_at_a_time_witness :
  ∃ tr st,
    reaches await_release_acquire 1 4 tr st ∧
    workers st !! 3%nat = Some (mk_worker at_releaser_sync false 0) ∧
    counter (bar st) = 4 ∧
    local_sense (mk_worker at_releaser_sync false 0) = negb (sense (bar st)) ∧
    ∀ j wj, workers st !! j = Some wj → j ≠ 3%nat →
      at_pc wj = at_spin ∧ local_sense wj = false.
Proof.
  eexists _, _.
  split; [exists (take 9 four_thread_episode); vm_compute; reflexivity|].
  split; [vm_compute; reflexivity|].
  refine (one_releaser_at_a_time await_release_acquire 1 4 _ _ 3
            (mk_worker at_releaser_sync false 0) _
            (ex_intro _ (take 9 four_thread_episode) _) _ _);
    [vm_compute; reflexivity..|by left].
Defined.

(** *** A single thread *)

Lemma step_never_waits v num_episodes i st e st' :
  (episode_inv st ∧ num_threads (bar st) = 1) ∧ never_waits st →
  step v num_episodes i st = Some (e, st') →
  ((episode_inv st' ∧ num_threads (bar st') = 1) ∧ never_waits st') ∧
  ∀ o x, e ≠ sense_load o x.
Proof.
  intros [[Hinv Hnt] Hnw] Hstep.
  split; [split; [by eapply step_episode_inv_threads|]|].
  - pose proof Hstep as (w & b' & w' & Hi & Hws & ->)%step_inv.
    assert (length (workers st) = 1%nat) as Hlen
      by (pose proof (inv_threads _ Hinv); lia).
    assert (i = 0%nat) as ->
      by (apply lookup_lt_Some in Hi; lia).
    intros j wj Hj. simpl in Hj.
    assert (j = 0%nat) as ->
      by (apply lookup_lt_Some in Hj; rewrite length_insert in Hj; lia).
    rewrite list_lookup_insert_eq in Hj by lia. injection Hj as <-.
    destruct (Hnw _ _ Hi) as [Hns Hnws].
    revert Hws. unfold worker_step, releaser_entry.
    destruct (at_pc w) eqn:Hp; simpl; try done.
    + case_decide; [|done]. by intros [= <- <- <-].
    + intros [= <- <- <-]. simpl.
      pose proof (counter_before_arrival _ _ _ Hinv Hi Hp) as Hc.
      rewrite decide_True
        by (unfold size_type_wrap; rewrite Z.mod_small by lia; lia).
      by destruct (releaser_sync v).
    + destruct (releaser_sync v); [|done]. by intros [= <- <- <-].
    + by intros [= <- <- <-].
    + by intros [= <- <- <-].
    + by intros [= <- <- <-].
  - intros o x ->. apply step_inv in Hstep as (w & b' & w' & Hi & Hws & _).
    destruct (Hnw _ _ Hi) as [? ?].
    by destruct (worker_step_sense_load _ _ _ _ _ _ _ _ Hws).
Qed.

(** X4: a barrier for a single thread never waits.  Every call of
    [await] takes the branch of the last arriver: the thread never enters
    the spin loop, and no step loads the sense. *)
Theorem single_thread_never_waits v num_episodes tr st :
  reaches v num_episodes 1 tr st →
  never_waits st ∧ Forall (λ ie, ∀ o x, ie.2 ≠ sense_load o x) tr.
Proof.
  intros [sched Hexec].
  assert ((episode_inv (initial 1) ∧ num_threads (bar (initial 1)) = 1) ∧
          never_waits (initial 1)) as Hinit.
  { split; [split; [by apply episode_inv_initial|done]|].
    by intros i w [-> _]%lookup_replicate. }
  split.
  - refine (proj2 (exec_invariant (step v num_episodes)
                     (λ s, (episode_inv s ∧ num_threads (bar s) = 1) ∧
                           never_waits s) _ _ _ _ _ Hinit Hexec)).
    intros i s e s1 Hs Hstep.
    exact (proj1 (step_never_waits _ _ _ _ _ _ Hs Hstep)).
  - refine (exec_events (step v num_episodes)
              (λ s, (episode_inv s ∧ num_threads (bar s) = 1) ∧ never_waits s)
              (λ _ e, ∀ o x, e ≠ sense_load o x) _ _ _ _ _ Hinit Hexec).
    intros i s e s1 Hs Hstep. exact (step_never_waits _ _ _ _ _ _ Hs Hstep).
Qed.

(** Two episodes of one thread. *)
Lemma single_thread_never_waits_witness :
  ∃ tr st,
    reaches await_release_acquire 2 1 tr st ∧
    workers st = [mk_worker outside false 2] ∧
    Forall (λ ie, ∀ o x, ie.2 ≠ sense_load o x) tr.
Proof.
  eexists _, _.
  split; [exists (replicate 12 0%nat); vm_compute; reflexivity|].
  split; [vm_compute; reflexivity|].
  refine (proj2 (single_thread_never_waits await_release_acquire 2 _ _
                   (ex_intro _ (replicate 12 0%nat) _)));
    vm_compute; reflexivity.
Defined.

(** *** Progress *)

Lemma live_inv_initial v num_episodes n :
  n ≠ 0%nat → live_inv v num_episodes (initial n).
Proof.
  intros Hn. split; simpl.
  - lia.
  - by intros i w [-> _]%lookup_replicate.
  - intros i w [-> _]%lookup_replicate. simpl. split; [lia|done].
  - lia.
Qed.

Section ProgressFacts.
Variable v : await_variant.
Variable num_episodes : nat.

(** What a step does to the position, the number of calls returned from
    and the counter. *)
Lemma worker_step_progress b w e b' w' :
  worker_step v num_episodes b w = Some (e, b', w') →
  num_threads b' = num_threads b ∧
  match at_pc w with
  | outside =>
      (completed w < num_episodes)%nat ∧ at_pc w' = at_fetch_add ∧
      completed w' = completed w ∧ counter b' = counter b
  | at_fetch_add =>
      completed w' = completed w ∧
      (counter b' = num_threads b ∧ at_pc w' = releaser_entry v ∨
       counter b' ≠ num_threads b ∧ at_pc w' = at_spin)
  | at_releaser_sync =>
      at_pc w' = at_reset ∧ completed w' = completed w ∧
      counter b' = counter b
  | at_reset =>
      at_pc w' = at_signal ∧ completed w' = completed w ∧ counter b' = 0
  | at_signal =>
      at_pc w' = at_flip ∧ completed w' = completed w ∧
      counter b' = counter b
  | at_spin =>
      completed w' = completed w ∧ counter b' = counter b ∧
      (sense b = local_sense w ∧ at_pc w' = waiter_exit v ∨
       sense b ≠ local_sense w ∧ at_pc w' = at_spin)
  | at_waiter_sync =>
      at_pc w' = at_flip ∧ completed w' = completed w ∧
      counter b' = counter b
  | at_flip =>
      at_pc w' = outside ∧ completed w' = S (completed w) ∧
      counter b' = counter b
  end.
Proof.
  unfold worker_step. intros H.
  destruct (at_pc w); simpl in H; repeat case_decide;
    try destruct (releaser_sync v); try destruct (waiter_sync v);
    simplify_eq/=; auto 10.
Qed.

Lemma releaser_entry_cases :
  releaser_entry v = at_releaser_sync ∧ is_Some (releaser_sync v) ∨
  releaser_entry v = at_reset.
Proof. unfold releaser_entry. destruct (releaser_sync v); eauto. Qed.

Lemma waiter_exit_cases :
  waiter_exit v = at_waiter_sync ∧ is_Some (waiter_sync v) ∨
  waiter_exit v = at_flip.
Proof. unfold waiter_exit. destruct (waiter_sync v); eauto. Qed.

Lemma step_live_inv i st e st' :
  live_inv v num_episodes st → step v num_episodes i st = Some (e, st') →
  live_inv v num_episodes st'.
Proof.
  intros [Hn Hsync Hbound Hlast] (w & b & w' & Hw & Hws & ->)%step_inv.
  destruct (worker_step_progress _ _ _ _ _ Hws) as [Hnt Hpc].
  destruct (Hsync _ _ Hw) as [Hrs Hwt].
  destruct (Hbound _ _ Hw) as [Hle Hlt].
  assert (i < length (workers st))%nat as Hi by by eapply lookup_lt_Some.
  split; simpl.
  - by rewrite Hnt.
  - intros j wj Hj.
    destruct (decide (j = i)) as [->|Hne];
      [|rewrite list_lookup_insert_ne in Hj by done; by eapply Hsync].
    rewrite list_lookup_insert_eq in Hj by done. injection Hj as <-.
    destruct releaser_entry_cases as [[Hre ?]|Hre],
      waiter_exit_cases as [[Hwe ?]|Hwe];
      destruct (at_pc w); split; intros Hp; try done;
      intuition congruence.
  - intros j wj Hj.
    destruct (decide (j = i)) as [->|Hne];
      [|rewrite list_lookup_insert_ne in Hj by done; by eapply Hbound].
    rewrite list_lookup_insert_eq in Hj by done. injection Hj as <-.
    destruct (at_pc w); (split; [|intros Hp]); try lia;
      try (specialize (Hlt ltac:(done)); lia);
      intuition congruence.
  - rewrite Hnt. intros Hc.
    assert (∀ p, at_pc w' = p → p = at_releaser_sync ∨ p = at_reset →
              ∃ j wj, <[i := w']> (workers st) !! j = Some wj ∧
                      (at_pc wj = at_releaser_sync ∨ at_pc wj = at_reset))
      as Hself.
    { intros p Hp Hcases. exists i, w'. rewrite Hp.
      split; [by apply list_lookup_insert_eq|done]. }
    assert (counter b = counter (bar st) → at_pc w ≠ at_releaser_sync →
            at_pc w ≠ at_reset →
              ∃ j wj, <[i := w']> (workers st) !! j = Some wj ∧
                      (at_pc wj = at_releaser_sync ∨ at_pc wj = at_reset))
      as Hother.
    { intros Hcb Hp1 Hp2. rewrite Hcb in Hc.
      destruct (Hlast Hc) as (j & wj & Hj & Hpj). exists j, wj.
      split; [|done]. rewrite list_lookup_insert_ne; [done|].
      intros <-. rewrite Hw in Hj. injection Hj as <-. by destruct Hpj. }
    destruct (at_pc w) eqn:Hp.
    + apply Hother; [by destruct Hpc as (_ & _ & _ & ?)|done..].
    + destruct Hpc as [_ [[_ Hre]|[Hne _]]]; [|done].
      eapply Hself; [done|].
      destruct releaser_entry_cases as [[-> _]| ->]; auto.
    + eapply Hself; [by destruct Hpc|auto].
    + destruct Hpc as (_ & _ & Hz). congruence.
    + apply Hother; [by destruct Hpc as (_ & _ & ?)|done..].
    + apply Hother; [by destruct Hpc as (_ & ? & _)|done..].
    + apply Hother; [by destruct Hpc as (_ & _ & ?)|done..].
    + apply Hother; [by destruct Hpc as (_ & _ & ?)|done..].
Qed.

(** A thread that is not blocked has a step, and the step moves it. *)
Lemma worker_moves b w :
  (at_pc w = at_releaser_sync → is_Some (releaser_sync v)) →
  (at_pc w = at_waiter_sync → is_Some (waiter_sync v)) →
  ¬ blocked num_episodes (sense b) w →
  ∃ e b' w', worker_step v num_episodes b w = Some (e, b', w') ∧
             (at_pc w' ≠ at_pc w).
Proof.
  intros Hrs Hwt Hnb. unfold blocked in Hnb. unfold worker_step.
  destruct (at_pc w) eqn:Hp; simpl.
  - case_decide; [|by destruct Hnb; left]. by eexists _, _, _.
  - eexists _, _, _. split; [done|]. simpl.
    case_decide; [|done].
    by destruct releaser_entry_cases as [[-> _]| ->].
  - destruct Hrs as [o ->]; [done|]. by eexists _, _, _.
  - by eexists _, _, _.
  - by eexists _, _, _.
  - eexists _, _, _. split; [done|]. simpl.
    case_decide as Hs; [|destruct Hnb; right; split; congruence].
    by destruct waiter_exit_cases as [[-> _]| ->].
  - destruct Hwt as [o ->]; [done|]. by eexists _, _, _.
  - by eexists _, _, _.
Qed.

(** The threads cannot all be blocked while one of them is still in the
    loop. *)
Lemma not_all_blocked st i w :
  episode_inv st → in_step st → live_inv v num_episodes st →
  workers st !! i = Some w → in_loop num_episodes w →
  ¬ Forall (blocked num_episodes (sense (bar st))) (workers st).
Proof.
  intros Hinv [ep Hep] Hlive Hi Hloop Hall.
  rewrite Forall_lookup in Hall.
  assert (at_pc w = at_spin ∧ local_sense w ≠ sense (bar st)) as [Hp Hs].
  { destruct (Hall _ _ Hi) as [[Hp Hc]|?]; [|done].
    by destruct Hloop. }
  destruct (li_bound _ _ _ Hlive _ _ Hi) as [_ Hlt].
  specialize (Hlt ltac:(by rewrite Hp)).
  pose proof (Hep _ _ Hi) as Hew. unfold episodes_seen in Hew.
  rewrite decide_False in Hew by done.
  assert (∀ j wj, workers st !! j = Some wj →
            at_pc wj = at_spin ∧ local_sense wj ≠ sense (bar st)) as Hspin.
  { intros j wj Hj. destruct (Hall _ _ Hj) as [[Hpj Hcj]|?]; [|done].
    pose proof (Hep _ _ Hj) as Hej. unfold episodes_seen in Hej.
    case_decide; lia. }
  destruct (inv_count _ Hinv) as [[(j & wj & Hj & Hpj) _]|[_ Hc]].
  { destruct (Hspin _ _ Hj) as [Hpj' _]. congruence. }
  rewrite count_marked_all in Hc.
  - rewrite <- (inv_threads _ Hinv) in Hc.
    destruct (li_last _ _ _ Hlive Hc) as (j & wj & Hj & Hpj).
    destruct (Hspin _ _ Hj) as [Hpj' _]. destruct Hpj; congruence.
  - intros j wj Hj. destruct (Hspin _ _ Hj) as [Hpj Hsj].
    unfold counted. rewrite Hpj. by rewrite decide_False.
Qed.

(** A step that moves a thread moves it forward. *)
Lemma worker_step_advance b w e b' w' :
  worker_step v num_episodes b w = Some (e, b', w') →
  at_pc w' ≠ at_pc w → (advance w < advance w')%nat.
Proof.
  intros Hpc%worker_step_progress Hne. destruct Hpc as [_ Hpc].
  unfold advance.
  destruct releaser_entry_cases as [[Hre _]|Hre],
    waiter_exit_cases as [[Hwe _]|Hwe];
    destruct (at_pc w);
    repeat match goal with
           | H : _ ∧ _ |- _ => destruct H
           | H : _ ∨ _ |- _ => destruct H
           end;
    try congruence;
    repeat match goal with
           | H : at_pc w' = _ |- _ => rewrite H in *
           | H : completed w' = _ |- _ => rewrite H in *
           end;
    try rewrite Hre; try rewrite Hwe; simpl; lia.
Qed.

Lemma advance_bound st :
  live_inv v num_episodes st →
  (count_marked advance (workers st)
   ≤ 7 * num_episodes * length (workers st))%nat.
Proof.
  intros Hlive. pose proof (li_bound _ _ _ Hlive) as Hb.
  unfold count_marked. induction (workers st) as [|w ws IH]; simpl; [lia|].
  destruct (Hb 0%nat w eq_refl) as [Hle Hlt].
  assert (advance w ≤ 7 * num_episodes)%nat.
  { unfold advance. destruct (at_pc w) eqn:Hp; simpl; try lia;
      specialize (Hlt ltac:(done)); lia. }
  specialize (IH (λ i, Hb (S i))). lia.
Qed.

(** While a thread is in the loop, some thread has a step forward. *)
Lemma some_thread_advances st i w :
  episode_inv st → in_step st → live_inv v num_episodes st →
  workers st !! i = Some w → in_loop num_episodes w →
  ∃ j e st',
    step v num_episodes j st = Some (e, st') ∧ st' ≠ st ∧
    (count_marked advance (workers st)
     < count_marked advance (workers st'))%nat.
Proof.
  intros Hinv Hin Hlive Hi Hloop.
  pose proof (not_all_blocked _ _ _ Hinv Hin Hlive Hi Hloop) as Hnot.
  apply not_Forall_Exists in Hnot; [|apply _].
  apply Exists_exists in Hnot as (wj & Hj & Hnb).
  apply list_elem_of_lookup in Hj as [j Hj].
  destruct (li_sync _ _ _ Hlive _ _ Hj) as [Hrs Hwt].
  destruct (worker_moves (bar st) wj Hrs Hwt Hnb)
    as (e & b' & w' & Hws & Hne).
  exists j, e, (mk_state b' (<[j := w']> (workers st))).
  split_and!.
  - unfold step. rewrite Hj. simpl. by rewrite Hws.
  - intros Heq. apply (f_equal (λ s, workers s !! j)) in Heq.
    simpl in Heq. rewrite list_lookup_insert_eq, Hj in Heq
      by by eapply lookup_lt_Some.
    injection Heq as ->. done.
  - simpl. pose proof (count_marked_insert advance _ _ _ w' Hj).
    pose proof (worker_step_advance _ _ _ _ _ Hws Hne). lia.
Qed.

(** From a state that satisfies the invariants the threads can all leave
    their loops. *)
Lemma can_finish k :
  ∀ st,
    episode_inv st → in_step st → live_inv v num_episodes st →
    (7 * num_episodes * length (workers st)
     - count_marked advance (workers st) ≤ k)%nat →
    ∃ sched tr st',
      exec (step v num_episodes) sched st = Some (tr, st') ∧
      all_finished num_episodes st'.
Proof.
  induction k as [|k IH]; intros st Hinv Hin Hlive Hk;
    (destruct (decide (Exists (in_loop num_episodes) (workers st)))
       as [Hex|Hall];
     [|exists [], [], st; split; [done|];
       intros i w Hi;
       destruct (li_bound _ _ _ Hlive _ _ Hi) as [Hle _];
       destruct (decide (at_pc w = outside)) as [Hp|Hp];
       [|destruct Hall; apply Exists_exists; exists w;
         split; [by eapply list_elem_of_lookup_2|by left]];
       split; [done|];
       destruct (decide (completed w < num_episodes)%nat) as [Hc|Hc];
       [|lia];
       destruct Hall; apply Exists_exists; exists w;
       split; [by eapply list_elem_of_lookup_2|by right]]);
    apply Exists_exists in Hex as (w & Hw & Hloop);
    apply list_elem_of_lookup in Hw as [i Hi];
    destruct (some_thread_advances _ _ _ Hinv Hin Hlive Hi Hloop)
      as (j & e & st1 & Hstep & _ & Hadv);
    pose proof (step_episode_inv _ _ _ _ _ _ Hinv Hstep) as Hinv1;
    pose proof (step_in_step _ _ _ _ _ _ Hinv Hin Hstep) as Hin1;
    pose proof (step_live_inv _ _ _ _ Hlive Hstep) as Hlive1;
    pose proof (advance_bound _ Hlive1) as Hb1;
    assert (length (workers st1) = length (workers st)) as Hlen
      by (apply step_inv in Hstep as (? & ? & ? & _ & _ & ->);
          simpl; by rewrite length_insert);
    rewrite Hlen in Hb1; [lia|].
  destruct (IH st1 Hinv1 Hin1 Hlive1) as (sched & tr & st' & Hexec & Hfin);
    [rewrite Hlen; lia|].
  exists (j :: sched), ((j, e) :: tr), st'. split; [|done].
  simpl. by rewrite Hstep, Hexec.
Qed.

End ProgressFacts.

(** X9: the centralized barrier never gets stuck.  In every state the
    threads can reach: as long as one thread is still in the loop of
    [thread_job], some thread has a step that changes the state, a step
    other than a load in the spin loop that reads the value the thread
    does not wait for; and there is a schedule on which every thread
    returns from all its calls of [await] and leaves its loop. *)
Theorem centralized_never_stuck v num_episodes n tr st :
  Z.of_nat n < 2 ^ 32 →
  reaches v num_episodes n tr st →
  (∀ i w, workers st !! i = Some w → in_loop num_episodes w →
     ∃ j e st', step v num_episodes j st = Some (e, st') ∧ st' ≠ st) ∧
  ∃ sched tr' st',
    exec (step v num_episodes) sched st = Some (tr', st') ∧
    all_finished num_episodes st'.
Proof.
  intros Hn [sched Hexec].
  destruct (exec_in_step _ _ _ _ _ _ (episode_inv_initial n Hn)
              (in_step_initial n) Hexec) as [Hinv Hin].
  destruct (decide (n = 0%nat)) as [->|Hn0].
  { destruct sched as [|j sched]; simpl in Hexec; [|done].
    injection Hexec as _ <-. split; [done|].
    by exists [], [], (initial 0). }
  pose proof (exec_invariant (step v num_episodes) _
                (step_live_inv v num_episodes) _ _ _ _
                (live_inv_initial v num_episodes n Hn0) Hexec) as Hlive.
  split.
  - intros i w Hi Hloop.
    destruct (some_thread_advances _ _ _ _ _ Hinv Hin Hlive Hi Hloop)
      as (j & e & st' & Hstep & Hne & _).
    by exists j, e, st'.
  - by eapply can_finish.
Qed.

(** Three of four threads in the spin loop: the fourth can arrive. *)
Lemma centralized_never_stuck_witness :
  ∃ tr st w,
    reaches await_release_acquire 1 4 tr st ∧
    workers st !! 0%nat = Some w ∧ at_pc w = at_spin ∧
    ∃ j e st', step await_release_acquire 1 j st = Some (e, st') ∧ st' ≠ st.
Proof.
  eexists _, _, (mk_worker at_spin false 0).
  split; [exists (take 7 four_thread_episode); vm_compute; reflexivity|].
  split; [vm_compute; reflexivity|]. split; [reflexivity|].
  refine (proj1 (centralized_never_stuck await_release_acquire 1 4 _ _ _
                   (ex_intro _ (take 7 four_thread_episode) _)) 0%nat _ _ _);
    [vm_compute; reflexivity..|left; simpl; congruence].
Defined.

End CentralizedFacts.

(** ** What the two tree barriers share *)

Lemma await_children_done i len k :
  (len ≤ k)%nat → await_children i len k = [].
Proof.
  intros H. unfold await_children. by replace (len - k)%nat with 0%nat by lia.
Qed.

Lemma await_children_next i len k :
  (k < len)%nat →
  await_children i len k
  = spin_on (arrival_flag i k) :: sync_on (arrival_flag i k)
    :: await_children i len (S k).
Proof.
  intros H. unfold await_children.
  replace (len - k)%nat with (S (len - S k)) by lia. done.
Qed.

Lemma performs_spin_miss ls c prog evs :
  performs ls (spin_on c :: prog) evs →
  performs ls (spin_on c :: prog)
    (tree_load c memory_order_relaxed (negb ls) :: evs).
Proof. intros (k & tail & -> & H). by exists (S k), tail. Qed.

Lemma performs_spin_hit ls c prog evs :
  performs ls prog evs →
  performs ls (spin_on c :: prog)
    (tree_load c memory_order_relaxed ls :: evs).
Proof. intros H. by exists 0%nat, evs. Qed.


Section TreeExec.
Context {node state : Type}.
Variable nodes : state → list node.
Variable workers : state → list tree_worker.
Variable local_sense : node → bool.
Variable same_frame : node → node → Prop.
Variable remaining : nat → node → tree_pc → list instr.
Variable step : nat → state → option (tree_event * state).

Hypothesis same_frame_refl : ∀ n, same_frame n n.
Hypothesis same_frame_trans :
  ∀ a b c, same_frame a b → same_frame b c → same_frame a c.
Hypothesis remaining_same_frame :
  ∀ i n n' p, same_frame n n' → remaining i n' p = remaining i n p.
Hypothesis remaining_outside : ∀ i n, remaining i n tree_outside = [].
Hypothesis step_sound :
  ∀ j s e s', step j s = Some (e, s') →
    ∃ w w',
      workers s !! j = Some w ∧ workers s' = <[j := w']> (workers s) ∧
      (∀ i n, nodes s !! i = Some n →
         ∃ n', nodes s' !! i = Some n' ∧ same_frame n n' ∧
               local_sense n'
               = if decide (i = j ∧ tree_at w = at_tree_flip)
                 then negb (local_sense n) else local_sense n) ∧
      (∀ n evs, nodes s !! j = Some n →
         tree_step_spec (local_sense n) (remaining j n) w e w' evs).


(** A step completes a call exactly when it is the flip. *)
Lemma tree_step_completed ls (rem : tree_pc → list instr) w e w' evs :
  tree_step_spec ls rem w e w' evs →
  tree_completed w'
  = if decide (tree_at w = at_tree_flip)
    then S (tree_completed w) else tree_completed w.
Proof using Type.
  intros (_ & Hout & Hin). destruct w as [p c], w' as [p' c'].
  unfold tree_stamp, tree_next_outside in *. simpl in *.
  destruct (decide (p = tree_outside)) as [->|Hp].
  - specialize (Hout eq_refl). rewrite decide_False by done.
    destruct p'; lia.
  - destruct (Hin Hp) as (Hnx & Hflip & _). case_decide as Hf.
    + apply Hflip in Hf. subst p'. destruct p; try done; lia.
    + assert (p' ≠ tree_outside) by (intros ?; by apply Hf, Hflip).
      destruct p, p'; try done; lia.
Qed.

Hypothesis step_length :
  ∀ j s e s', step j s = Some (e, s') →
    length (nodes s') = length (nodes s).

Lemma tree_step_parity j s e s' :
  tree_parity nodes workers local_sense s → step j s = Some (e, s') →
  tree_parity nodes workers local_sense s'.
Proof using step_sound step_length.
  intros Hpar Hstep i w1 n1 Hw1 Hn1.
  pose proof (step_length _ _ _ _ Hstep) as Hlen.
  destruct (step_sound _ _ _ _ Hstep) as (w & w' & Hw & Hws & Hfr & Hsp).
  destruct (nodes s !! i) as [n|] eqn:Hn.
  2:{ apply lookup_lt_Some in Hn1. apply lookup_ge_None in Hn. lia. }
  destruct (Hfr i n Hn) as (n' & Hn' & _ & Hls). simplify_eq.
  rewrite Hws in Hw1. destruct (decide (i = j)) as [->|Hne].
  - rewrite list_lookup_insert_eq in Hw1 by (by eapply lookup_lt_Some).
    simplify_eq. rewrite Hls.
    rewrite (tree_step_completed _ _ _ _ _ [] (Hsp n [] Hn)).
    rewrite (Hpar _ _ _ Hw Hn). case_decide as Hc.
    + rewrite decide_True by tauto. by rewrite Nat.odd_succ, Nat.negb_odd.
    + rewrite decide_False by tauto. done.
  - rewrite list_lookup_insert_ne in Hw1 by done.
    rewrite Hls, decide_False by tauto. by eapply Hpar.
Qed.

Lemma tree_exec_parity sched s tr s' :
  tree_parity nodes workers local_sense s →
  exec step sched s = Some (tr, s') →
  tree_parity nodes workers local_sense s'.
Proof using step_sound step_length.
  apply exec_invariant. intros j s0 e s1. apply tree_step_parity.
Qed.
End TreeExec.

(** *** The progress of a thread and the wiring of a tree *)

Lemma progress_bounds b w :
  (tree_completed w ≤ progress b w ≤ S (tree_completed w))%nat.
Proof. unfold progress. destruct (b (tree_at w)); lia. Qed.

Lemma progress_mono (b b' : tree_pc → bool) w :
  (b (tree_at w) = true → b' (tree_at w) = true) →
  (progress b w ≤ progress b' w)%nat.
Proof.
  unfold progress. intros H.
  destruct (b (tree_at w)); [rewrite H by done|destruct (b' (tree_at w))];
    lia.
Qed.

(** The order of the statements of [await]. *)
Lemma signalled_released idx w :
  (progress (signalled idx) w ≤ progress released w)%nat.
Proof. apply progress_mono. by destruct (tree_at w). Qed.

Lemma released_arrived w : (progress released w ≤ progress arrived w)%nat.
Proof. apply progress_mono. by destruct (tree_at w). Qed.

Lemma arrived_gathered w : (progress arrived w ≤ progress gathered w)%nat.
Proof. apply progress_mono. by destruct (tree_at w). Qed.

Lemma gathered_passed k w :
  (progress gathered w ≤ progress (passed_slot k) w)%nat.
Proof. apply progress_mono. by destruct (tree_at w). Qed.

Lemma parent_of_lt W i s : parent_of W i = Some s → (i < length W)%nat.
Proof.
  unfold parent_of. destruct (W !! i) eqn:Hi; [|done].
  intros _. by eapply lookup_lt_Some.
Qed.

Lemma departure_of_lt W p c : c ∈ departure_of W p → (p < length W)%nat.
Proof.
  unfold departure_of. destruct (W !! p) eqn:Hp; simpl.
  - intros _. by eapply lookup_lt_Some.
  - by intros ?%elem_of_nil.
Qed.

Lemma forallb_seq (f : nat → bool) n :
  forallb f (seq 0 n) = true → ∀ i, (i < n)%nat → f i = true.
Proof.
  rewrite forallb_forall. intros H i Hi. apply H, in_seq. lia.
Qed.

Lemma arrival_wired_check_sound W :
  arrival_wired_check W = true → arrival_wired W.
Proof.
  unfold arrival_wired_check. intros H.
  pose proof (forallb_seq _ _ H) as Hall. clear H. cbv beta in Hall.
  split.
  - intros i i' [p k] Hi Hi'.
    pose proof (parent_of_lt _ _ _ Hi) as Hlt.
    pose proof (parent_of_lt _ _ _ Hi') as Hlt'.
    specialize (Hall i' Hlt'). rewrite Hi' in Hall.
    apply andb_true_iff in Hall as [[_ Hs]%andb_true_iff _].
    pose proof (forallb_seq _ _ Hs i Hlt) as Hd. cbv beta in Hd.
    apply bool_decide_eq_true in Hd. by apply Hd.
  - intros i p k Hi.
    specialize (Hall i (parent_of_lt _ _ _ Hi)). rewrite Hi in Hall.
    apply andb_true_iff in Hall as [[Hp _]%andb_true_iff _].
    by apply bool_decide_eq_true in Hp.
  - intros i Hlt Hi. specialize (Hall i Hlt). rewrite Hi in Hall.
    apply andb_true_iff in Hall as [Hz _].
    by apply bool_decide_eq_true in Hz.
  - intros i Hlt. specialize (Hall i Hlt).
    by apply andb_true_iff in Hall as [_ ?].
Qed.

Lemma departure_wired_check_sound W :
  departure_wired_check W = true → departure_wired W.
Proof.
  unfold departure_wired_check. intros H.
  pose proof (forallb_seq _ _ H) as Hall. clear H. cbv beta in Hall.
  split.
  - intros i p k Hi.
    specialize (Hall i (parent_of_lt _ _ _ Hi)). rewrite Hi in Hall.
    apply andb_true_iff in Hall as [[Hd _]%andb_true_iff _].
    by apply bool_decide_eq_true in Hd.
  - intros p c Hc. specialize (Hall p (departure_of_lt _ _ _ Hc)).
    apply andb_true_iff in Hall as [_ Hch].
    rewrite forallb_forall in Hch.
    specialize (Hch c (proj1 (list_elem_of_In _ _) Hc)).
    apply bool_decide_eq_true in Hch.
    destruct (parent_of W c) as [[p' k]|]; [|done].
    injection Hch as ->. by exists k.
  - intros p. destruct (decide (p < length W)%nat) as [Hlt|Hge].
    + specialize (Hall p Hlt).
      apply andb_true_iff in Hall as [[_ Hn]%andb_true_iff _].
      by apply bool_decide_eq_true in Hn.
    + unfold departure_of. rewrite lookup_ge_None_2 by lia. constructor.
Qed.

Lemma odd_next c : negb (Nat.odd (c + 1)) = Nat.odd c.
Proof.
  replace (c + 1)%nat with (S c) by lia.
  by rewrite Nat.odd_succ, Nat.negb_even.
Qed.

(** Two numbers one apart at most, of different parity. *)
Lemma parity_step (a c : nat) :
  (c ≤ a ≤ c + 1)%nat → negb (Nat.odd a) = Nat.odd c → a = (c + 1)%nat.
Proof.
  intros Ha Hodd. destruct (decide (a = c)) as [->|]; [|lia].
  by destruct (Nat.odd c).
Qed.

Lemma insert_worker_cases (ws : list tree_worker) j w w' i wi' :
  ws !! j = Some w → <[j := w']> ws !! i = Some wi' →
  i = j ∧ wi' = w' ∨ i ≠ j ∧ ws !! i = Some wi'.
Proof.
  intros Hj Hi. destruct (decide (i = j)) as [->|Hne].
  - rewrite list_lookup_insert_eq in Hi by (by eapply lookup_lt_Some).
    left. by simplify_eq.
  - rewrite list_lookup_insert_ne in Hi by done. by right.
Qed.

Lemma slots_wired_check_sound W F :
  slots_wired_check W F = true → slots_wired W F.
Proof.
  unfold slots_wired_check. intros H p c k Hp Hk.
  pose proof (forallb_seq _ _ H p) as Hall. cbv beta in Hall.
  rewrite Hp in Hall. simpl in Hall.
  specialize (Hall ltac:(by eapply lookup_lt_Some)).
  pose proof (forallb_seq _ _ Hall k Hk) as Hex. cbv beta in Hex.
  apply existsb_exists in Hex as (i & _ & Hi).
  exists i. by apply bool_decide_eq_true in Hi.
Qed.

(** A test on the elements of a list with their indices holds of all,
    or fails on one. *)
Lemma indexed_test {A} (P : nat → A → bool) (l : list A) :
  (∀ i x, l !! i = Some x → P i x = true) ∨
  (∃ i x, l !! i = Some x ∧ P i x = false).
Proof.
  revert P. induction l as [|a l IH]; intros P; [by left|].
  destruct (P 0%nat a) eqn:Ha; [|right; by exists 0%nat, a].
  destruct (IH (λ i, P (S i))) as [Hall|(i & x & Hi & Hx)].
  - left. intros [|i] x Hi; simplify_eq/=; [done|by apply Hall].
  - right. by exists (S i), x.
Qed.

(** ** The static tree barrier with local departure *)

Module StaticTreeFacts.
Import StaticTree.


Lemma remaining_enter_departure i n k :
  remaining i n (enter_departure n k)
  = map (λ c, publish (node_sense c)) (drop k (departure_children n))
    ++ [flip_sense].
Proof.
  unfold enter_departure. case_decide; [done|]. simpl.
  by rewrite drop_ge by lia.
Qed.

Lemma remaining_enter_children i n k :
  remaining i n (enter_children n k)
  = await_children i (length (arrival_children_flag n)) k
    ++ match arrival_parent n with
       | Some (p, k) =>
           [publish (arrival_flag p k); spin_on (node_sense i);
            sync_on (node_sense i)]
       | None => []
       end
    ++ map (λ c, publish (node_sense c)) (departure_children n)
    ++ [flip_sense].
Proof.
  unfold enter_children. case_decide; [done|].
  rewrite await_children_done by lia. unfold after_children.
  destruct (arrival_parent n) as [[p k']|] eqn:Hp; simpl; [by rewrite Hp|].
  by rewrite remaining_enter_departure.
Qed.


Lemma same_frame_refl n : same_frame n n.
Proof. done. Qed.

Lemma insert_node_cases (ns : list node) x nx' i n :
  ns !! i = Some n → (x < length ns)%nat →
  ∃ n', <[x := nx']> ns !! i = Some n' ∧
        (i = x ∧ n' = nx' ∨ i ≠ x ∧ n' = n).
Proof.
  intros Hi Hx. destruct (decide (i = x)) as [->|Hne].
  - exists nx'. rewrite list_lookup_insert_eq by done. auto.
  - exists n. rewrite list_lookup_insert_ne by done. auto.
Qed.

Lemma read_insert_local_sense ns x nx b c :
  ns !! x = Some nx →
  read (<[x := set_local_sense b nx]> ns) c = read ns c.
Proof.
  intros Hx. assert (x < length ns)%nat by by eapply lookup_lt_Some.
  destruct c as [p k|i|]; simpl; [| |done].
  - destruct (decide (p = x)) as [->|Hne].
    + by rewrite list_lookup_insert_eq, Hx.
    + by rewrite list_lookup_insert_ne.
  - destruct (decide (i = x)) as [->|Hne].
    + by rewrite list_lookup_insert_eq, Hx.
    + by rewrite list_lookup_insert_ne.
Qed.

Lemma read_insert_flag ns p pn k b c :
  ns !! p = Some pn → (k < length (arrival_children_flag pn))%nat →
  read (<[p := set_flag k b pn]> ns) c
  = if decide (c = arrival_flag p k) then Some b else read ns c.
Proof.
  intros Hp Hk. assert (p < length ns)%nat by by eapply lookup_lt_Some.
  destruct c as [p' k'|i|]; simpl.
  - destruct (decide (p' = p)) as [->|Hne].
    + rewrite list_lookup_insert_eq, Hp by done. simpl.
      destruct (decide (k' = k)) as [->|Hnk].
      * rewrite decide_True by done. by apply list_lookup_insert_eq.
      * rewrite decide_False by congruence. by apply list_lookup_insert_ne.
    + rewrite decide_False by congruence. by rewrite list_lookup_insert_ne.
  - destruct (decide (i = p)) as [->|Hne].
    + by rewrite list_lookup_insert_eq, Hp.
    + by rewrite list_lookup_insert_ne.
  - done.
Qed.

Lemma read_insert_sense ns d dn b c :
  ns !! d = Some dn →
  read (<[d := set_sense b dn]> ns) c
  = if decide (c = node_sense d) then Some b else read ns c.
Proof.
  intros Hd. assert (d < length ns)%nat by by eapply lookup_lt_Some.
  destruct c as [p k|i|]; simpl.
  - destruct (decide (p = d)) as [->|Hne].
    + by rewrite list_lookup_insert_eq, Hd.
    + by rewrite list_lookup_insert_ne.
  - destruct (decide (i = d)) as [->|Hne].
    + rewrite decide_True by done. by rewrite list_lookup_insert_eq.
    + rewrite decide_False by congruence. by rewrite list_lookup_insert_ne.
  - done.
Qed.

Section AwaitFacts.
Variable num_episodes : nat.

(** A step changes at most one node: a flag or the sense of a node, or,
    when it is the flip, the local sense of the thread's own node. *)
Lemma worker_step_nodes j ns w e ns' w' :
  worker_step num_episodes j ns w = Some (e, ns', w') →
  tree_at w ≠ at_tree_flip ∧
  (ns' = ns ∨
   ∃ x nx nx',
     ns !! x = Some nx ∧ ns' = <[x := nx']> ns ∧ same_frame nx nx' ∧
     local_sense nx' = local_sense nx) ∨
  tree_at w = at_tree_flip ∧
  ∃ nj, ns !! j = Some nj ∧
        ns' = <[j := set_local_sense (negb (local_sense nj)) nj]> ns.
Proof.
  unfold worker_step. intros H.
  destruct (ns !! j) as [nj|] eqn:Hj; simpl in H; [|done].
  destruct (tree_at w) eqn:Hat; simplify_option_eq;
    try (left; split; [done|]; by left).
  - destruct select (nat * nat)%type as [p k]. simplify_option_eq.
    left. split; [done|]. right. eexists _, _, _. split_and!; [done..| |done].
    split_and!; simpl; [done| |done]. by rewrite length_insert.
  - left. split; [done|]. right. by eexists _, _, _.
  - right. split; [done|]. by eexists.
Qed.

(** A step of thread [j] leaves the frame of every node as it is, and the
    local sense too, but for the flip of thread [j]'s own. *)
Lemma worker_step_frame j ns w e ns' w' :
  worker_step num_episodes j ns w = Some (e, ns', w') →
  ∀ i n, ns !! i = Some n →
    ∃ n', ns' !! i = Some n' ∧ same_frame n n' ∧
          local_sense n'
          = if decide (i = j ∧ tree_at w = at_tree_flip)
            then negb (local_sense n) else local_sense n.
Proof.
  intros [[Hat [->|(x & nx & nx' & Hx & -> & Hf & Hls)]]
         |[Hat (nj & Hj & ->)]]%worker_step_nodes i n Hi.
  - exists n. rewrite decide_False by tauto. auto using same_frame_refl.
  - rewrite decide_False by tauto.
    destruct (insert_node_cases ns x nx' i n Hi)
      as (n' & Hn' & [[-> ->]|[? ->]]); [by eapply lookup_lt_Some|..].
    + exists nx'. by simplify_eq.
    + exists n. auto using same_frame_refl.
  - destruct (insert_node_cases ns j
                (set_local_sense (negb (local_sense nj)) nj) i n Hi)
      as (n' & Hn' & [[-> ->]|[? ->]]); [by eapply lookup_lt_Some|..].
    + eexists. simplify_eq. rewrite decide_True by done. done.
    + exists n. rewrite decide_False by tauto. auto using same_frame_refl.
Qed.

Lemma enter_departure_inside n k : enter_departure n k ≠ tree_outside.
Proof. unfold enter_departure. by case_decide. Qed.

Lemma enter_children_inside n k : enter_children n k ≠ tree_outside.
Proof.
  unfold enter_children, after_children. case_decide; [done|].
  destruct (arrival_parent n); [done|]. apply enter_departure_inside.
Qed.

Local Ltac flip_iff :=
  split;
  [simpl; try case_decide; intros E;
   first [done
         |by destruct (enter_children_inside _ _ E)
         |by destruct (enter_departure_inside _ _ E)]
  |done].

(** One step of thread [i]: its stamp does not decrease, and the
    instructions it still owes are those it owed before, less the one it
    performed. *)
Lemma worker_step_performs i ns w e ns' w' n evs :
  worker_step num_episodes i ns w = Some (e, ns', w') →
  ns !! i = Some n →
  tree_step_spec (local_sense n) (remaining i n) w e w' evs.
Proof.
  unfold worker_step, tree_step_spec. intros H Hn. rewrite Hn in H.
  simpl in H.
  destruct w as [p c]. simpl in H.
  assert (∀ q, q ≠ tree_outside →
            tree_stamp (mk_tree_worker q c) = (2 * c + 1)%nat ∧
            tree_next_outside (mk_tree_worker q c) = (2 * c + 2)%nat) as Hin.
  { intros q Hq. unfold tree_stamp, tree_next_outside. by destruct q. }
  pose proof (λ k, Hin _ (enter_children_inside n k)) as Hec.
  pose proof (λ k, Hin _ (enter_departure_inside n k)) as Hed.
  destruct p; simpl in H.
  - case_decide; [|done]. injection H as <- <- <-.
    destruct (Hec 0%nat) as [-> _]. unfold tree_stamp. simpl.
    split_and!; [lia|intros; lia|done].
  - destruct (arrival_children_flag n !! k) as [f|] eqn:Hf; simpl in H;
      [|done]. injection H as <- <- <-.
    assert (k < length (arrival_children_flag n))%nat
      by by eapply lookup_lt_Some.
    split_and!; [by case_decide|done|intros _].
    split_and!; [by case_decide|flip_iff|].
    case_decide as Hfl; cbn [remaining tree_at];
      rewrite (await_children_next _ _ k) by done.
    + subst f. apply performs_spin_hit.
    + replace f with (negb (local_sense n))
        by (by destruct f, (local_sense n)).
      apply performs_spin_miss.
  - destruct (arrival_children_flag n !! k) as [f|] eqn:Hf; simpl in H;
      [|done]. injection H as <- <- <-.
    destruct (Hec (S k)) as [Hs Hn']. rewrite Hs, Hn'.
    split_and!; [done..|intros _]. split_and!; [done|flip_iff|].
    cbn [tree_at]. rewrite remaining_enter_children. intros Hp.
    eexists _, _. split; [done|]. by rewrite drop_0.
  - destruct (arrival_parent n) as [[p k]|] eqn:Hp; simpl in H; [|done].
    destruct (ns !! p) as [pn|]; simpl in H; [|done].
    destruct (arrival_children_flag pn !! k); simpl in H; [|done].
    injection H as <- <- <-.
    split_and!; [done..|intros _]. split_and!; [done|flip_iff|].
    cbn [remaining tree_at]. rewrite Hp. intros Hp'. by eexists.
  - injection H as <- <- <-.
    split_and!; [by case_decide|done|intros _].
    split_and!; [by case_decide|flip_iff|].
    case_decide as Hfl; cbn [remaining tree_at].
    + rewrite Hfl. apply performs_spin_hit.
    + replace (sense n) with (negb (local_sense n))
        by (by destruct (sense n), (local_sense n)).
      apply (performs_spin_miss _ _ (sync_on (node_sense i) :: _)).
  - injection H as <- <- <-.
    destruct (Hed 0%nat) as [Hs Hn']. rewrite Hs, Hn'.
    split_and!; [done..|intros _]. split_and!; [done|flip_iff|].
    cbn [tree_at]. rewrite remaining_enter_departure. intros Hp.
    by eexists _, _.
  - destruct (departure_children n !! k) as [c'|] eqn:Hc; simpl in H;
      [|done].
    destruct (ns !! c') as [cn|]; simpl in H; [|done].
    injection H as <- <- <-.
    destruct (Hed (S k)) as [Hs Hn']. rewrite Hs, Hn'.
    split_and!; [done..|intros _]. split_and!; [done|flip_iff|].
    cbn [tree_at remaining]. rewrite remaining_enter_departure. intros Hp.
    erewrite (drop_S _ _ k) by done. by eexists.
  - done.
  - injection H as <- <- <-. unfold tree_stamp, tree_next_outside. simpl.
    split_and!; [lia|done|intros _]. split_and!; [lia|flip_iff|].
    intros ->. by eexists.
Qed.

Lemma st_step_inv i s e s' :
  step num_episodes i s = Some (e, s') →
  ∃ w ns' w',
    workers s !! i = Some w ∧
    worker_step num_episodes i (nodes s) w = Some (e, ns', w') ∧
    s' = mk_state ns' (<[i := w']> (workers s)).
Proof.
  unfold step. intros H.
  destruct (workers s !! i) as [w|] eqn:Hw; simpl in H; [|done].
  destruct (worker_step num_episodes i (nodes s) w) as [[[e0 ns'] w']|]
    eqn:Hs; simpl in H; [|done].
  injection H as <- <-. by exists w, ns', w'.
Qed.

(** What the interleaving lemma for trees asks of a step. *)
Lemma st_step_sound j s e s' :
  step num_episodes j s = Some (e, s') →
  ∃ w w',
    workers s !! j = Some w ∧ workers s' = <[j := w']> (workers s) ∧
    (∀ i n, nodes s !! i = Some n →
       ∃ n', nodes s' !! i = Some n' ∧ same_frame n n' ∧
             local_sense n'
             = if decide (i = j ∧ tree_at w = at_tree_flip)
               then negb (local_sense n) else local_sense n) ∧
    (∀ n evs, nodes s !! j = Some n →
       tree_step_spec (local_sense n) (remaining j n) w e w' evs).
Proof.
  intros (w & ns' & w' & Hw & Hws & ->)%st_step_inv. exists w, w'.
  split_and!; [done..| |]; simpl.
  - eauto using worker_step_frame.
  - intros n evs Hn. by eapply worker_step_performs.
Qed.


End AwaitFacts.





(** *** Parity of the local sense *)

Lemma st_step_length num_episodes j s e s' :
  step num_episodes j s = Some (e, s') →
  length (nodes s') = length (nodes s).
Proof.
  intros (w & ns' & w' & _ & Hws & ->)%st_step_inv. simpl.
  destruct (worker_step_nodes _ _ _ _ _ _ _ Hws)
    as [[_ [->|(? & ? & ? & _ & -> & _)]]|[_ (? & _ & ->)]];
    by rewrite ?length_insert.
Qed.

Lemma st_exec_parity num_episodes sched s tr s' :
  tree_parity nodes workers local_sense s →
  exec (step num_episodes) sched s = Some (tr, s') →
  tree_parity nodes workers local_sense s'.
Proof.
  apply (tree_exec_parity nodes workers local_sense same_frame remaining).
  - apply st_step_sound.
  - apply st_step_length.
Qed.

Lemma st_initial_parity ns :
  Forall (λ n, local_sense n = false) ns →
  tree_parity nodes workers local_sense (initial ns).
Proof.
  intros Hall i w n [-> _]%lookup_replicate Hn. simpl in *.
  by eapply Forall_lookup_1 in Hall.
Qed.

(** *** The sense cell of the root *)

Lemma root_free_initial ns :
  root_free ns = true → root_untouched (initial ns).
Proof.
  destruct ns as [|n ns]; [done|]. unfold root_free.
  rewrite !andb_true_iff, !bool_decide_eq_true, forallb_forall.
  intros [[Hp Hs] Hall]. split_and!.
  - by exists n.
  - intros i n' Hi. apply list_elem_of_lookup_2, list_elem_of_In in Hi.
    apply Hall in Hi. by apply bool_decide_eq_true in Hi.
  - simpl. intros w [= <-]. simpl. by intros [?|[?|?]].
Qed.

Section RootFacts.
Variable num_episodes : nat.

Lemma enter_children_root n k :
  arrival_parent n = None → ¬ with_parent (enter_children n k).
Proof.
  unfold enter_children, after_children, enter_departure, with_parent.
  intros ->. repeat case_decide; by intros [?|[?|?]].
Qed.

Lemma enter_departure_root n k : ¬ with_parent (enter_departure n k).
Proof.
  unfold enter_departure, with_parent.
  repeat case_decide; by intros [?|[?|?]].
Qed.

(** What a step of thread [i] touches: the cell of its event is an arrival
    flag, the sense of its own node when the node has a parent, or the
    sense of one of its departure children; the senses of the other nodes
    stay as they are. *)
Lemma worker_step_footprint i ns w e ns' w' n :
  worker_step num_episodes i ns w = Some (e, ns', w') →
  ns !! i = Some n →
  (∀ c, touches (node_sense c) e →
     c = i ∧ with_parent (tree_at w) ∨ c ∈ departure_children n) ∧
  (∀ x nx, ns !! x = Some nx →
     ∃ nx', ns' !! x = Some nx' ∧ same_frame nx nx' ∧
            (sense nx' = sense nx ∨ x ∈ departure_children n)) ∧
  (arrival_parent n = None → ¬ with_parent (tree_at w) →
   ¬ with_parent (tree_at w')).
Proof.
  unfold worker_step. intros H Hn. rewrite Hn in H. simpl in H.
  assert (∀ x nx, ns !! x = Some nx →
            ∃ nx', ns !! x = Some nx' ∧ same_frame nx nx' ∧
                   (sense nx' = sense nx ∨ x ∈ departure_children n)) as Hsame.
  { intros x nx Hx. exists nx. auto using same_frame_refl. }
  assert (∀ y ny', (y < length ns)%nat →
            (∀ ny, ns !! y = Some ny →
               same_frame ny ny' ∧
               (sense ny' = sense ny ∨ y ∈ departure_children n)) →
            ∀ x nx, ns !! x = Some nx →
              ∃ nx', <[y := ny']> ns !! x = Some nx' ∧ same_frame nx nx' ∧
                     (sense nx' = sense nx ∨ x ∈ departure_children n))
    as Hins.
  { intros y ny' Hy Hny x nx Hx.
    destruct (insert_node_cases ns y ny' x nx Hx Hy)
      as (nx' & Hnx' & [[-> ->]|[? ->]]).
    - exists ny'. split; [done|]. by apply Hny.
    - exists nx. auto using same_frame_refl. }
  destruct w as [p c]. simpl in H. destruct p; simpl in H.
  - case_decide; [|done]. injection H as <- <- <-.
    split_and!; [done|done|]. intros Hp _. by apply enter_children_root.
  - destruct (arrival_children_flag n !! k) as [f|]; simpl in H; [|done].
    injection H as <- <- <-. split_and!; [done|done|].
    intros _ _. simpl. case_decide; by intros [?|[?|?]].
  - destruct (arrival_children_flag n !! k) as [f|]; simpl in H; [|done].
    injection H as <- <- <-. split_and!; [done|done|].
    intros Hp _. by apply enter_children_root.
  - destruct (arrival_parent n) as [[p k]|] eqn:Hp; simpl in H; [|done].
    destruct (ns !! p) as [pn|] eqn:Hpn; simpl in H; [|done].
    destruct (arrival_children_flag pn !! k); simpl in H; [|done].
    injection H as <- <- <-. split_and!; [done| |done].
    apply Hins; [by eapply lookup_lt_Some|]. intros ny ?. simplify_eq.
    split; [|by left]. split_and!; simpl; [done| |done].
    by rewrite length_insert.
  - injection H as <- <- <-. split_and!; [|done|].
    + intros c' [= <-]. left. split; [done|]. right. by left.
    + intros _ Hw. destruct Hw. right. by left.
  - injection H as <- <- <-. split_and!; [|done|].
    + intros c' [= <-]. left. split; [done|]. right. by right.
    + intros _ _. apply enter_departure_root.
  - destruct (departure_children n !! k) as [c'|] eqn:Hc; simpl in H;
      [|done].
    destruct (ns !! c') as [cn|] eqn:Hcn; simpl in H; [|done].
    injection H as <- <- <-.
    assert (c' ∈ departure_children n) by by eapply list_elem_of_lookup_2.
    split_and!.
    + intros c'' [= <-]. by right.
    + apply Hins; [by eapply lookup_lt_Some|]. intros ny ?. simplify_eq.
      split; [done|by right].
    + intros _ _. apply enter_departure_root.
  - done.
  - injection H as <- <- <-. split_and!; [done| |].
    + apply Hins; [by eapply lookup_lt_Some|]. intros ny ?. simplify_eq.
      split; [done|by left].
    + intros _ _. simpl. by intros [?|[?|?]].
Qed.

(** No step reads or writes the sense of the root, and every step keeps
    it untouched. *)
Lemma step_root_untouched i s e s' :
  root_untouched s → step num_episodes i s = Some (e, s') →
  root_untouched s' ∧ ¬ touches (node_sense 0) e.
Proof.
  intros ((n0 & Hn0 & Hp0 & Hs0) & Hdep & Hpc)
         (w & ns' & w' & Hw & Hws & ->)%st_step_inv.
  assert (∃ n, nodes s !! i = Some n) as [n Hn].
  { revert Hws. unfold worker_step.
    destruct (nodes s !! i) as [n|]; [by exists n|done]. }
  destruct (worker_step_footprint _ _ _ _ _ _ _ Hws Hn)
    as (Hev & Hnodes & Hroot).
  split; [split_and!|].
  - destruct (Hnodes _ _ Hn0) as (n0' & Hn0' & (Hf & _ & _) & Hsense).
    exists n0'. simpl. split_and!; [done|congruence|].
    destruct Hsense as [->|Hin]; [done|]. by destruct (Hdep _ _ Hn).
  - simpl. intros x nx' Hx'.
    destruct (nodes s !! x) as [nx|] eqn:Hx.
    + destruct (Hnodes _ _ Hx) as (nx'' & Hx'' & (_ & _ & Hd) & _).
      simplify_eq. rewrite Hd. by eapply Hdep.
    + apply lookup_lt_Some in Hx'. apply lookup_ge_None in Hx.
      destruct (worker_step_nodes _ _ _ _ _ _ _ Hws)
        as [[_ [->|(? & ? & ? & _ & -> & _)]]|[_ (? & _ & ->)]];
        rewrite ?length_insert in Hx'; lia.
  - simpl. intros w0 Hw0. destruct (decide (i = 0%nat)) as [->|Hne].
    + rewrite list_lookup_insert_eq in Hw0 by (by eapply lookup_lt_Some).
      simplify_eq. apply Hroot; [done|by apply Hpc].
    + rewrite list_lookup_insert_ne in Hw0 by done. by apply Hpc.
  - intros Ht. destruct (Hev _ Ht) as [[<- Hwp]|Hin].
    + by destruct (Hpc _ Hw).
    + by destruct (Hdep _ _ Hn).
Qed.

End RootFacts.

(** C10: on the nodes either layout function returns for 1 to 8 threads,
    node 0 has no arrival parent and no node has the sense of node 0
    among its departure children; however the threads interleave and
    however many episodes they run, no atomic operation reads or writes
    the sense cell of node 0 ([await] on a node without arrival parent
    never enters the branch that spins on the node's own sense), and the
    cell holds its initial value [true]. *)
Theorem root_sense_never_touched n ns num_episodes sched tr s' :
  (1 ≤ n ≤ 8)%nat →
  static_tree_layout_good_locality n = Some ns ∨
  static_tree_layout_bad_locality n = Some ns →
  exec (step num_episodes) sched (initial ns) = Some (tr, s') →
  (∃ n0, ns !! 0%nat = Some n0 ∧ arrival_parent n0 = None ∧
         sense n0 = true) ∧
  (∀ i nd, ns !! i = Some nd → 0%nat ∉ departure_children nd) ∧
  Forall (λ ie, ¬ touches (node_sense 0) ie.2) tr ∧
  ∃ n0, nodes s' !! 0%nat = Some n0 ∧ sense n0 = true ∧
        arrival_parent n0 = None.
Proof.
  intros Hn Hns Hexec.
  assert (root_free ns = true) as Hfree.
  { destruct n as [|[|[|[|[|[|[|[|[|n]]]]]]]]]; try lia;
      destruct Hns as [[= <-]|[= <-]]; reflexivity. }
  apply root_free_initial in Hfree.
  split; [exact (proj1 Hfree)|]. split; [exact (proj1 (proj2 Hfree))|].
  split.
  - eapply (exec_events (step num_episodes) root_untouched
              (λ _ e, ¬ touches (node_sense 0) e)); [|done..].
    intros i s e s1 Hs Hstep. by eapply step_root_untouched.
  - eapply (exec_invariant (step num_episodes) root_untouched) in Hexec;
      [|intros i s e s1 Hs Hstep; by eapply step_root_untouched|done].
    destruct Hexec as ((n0 & ? & ? & ?) & _). by exists n0.
Qed.

(** On the good-locality tree for two, one episode run to its end. *)
Lemma root_sense_never_touched_witness :
  ∃ ns sched tr s',
    static_tree_layout_good_locality 2 = Some ns ∧
    exec (step 1) sched (initial ns) = Some (tr, s') ∧
    workers s' = replicate 2 (mk_tree_worker tree_outside 1) ∧
    Forall (λ ie, ¬ touches (node_sense 0) ie.2) tr ∧
    ∃ n0, nodes s' !! 0%nat = Some n0 ∧ sense n0 = true ∧
          arrival_parent n0 = None.
Proof.
  eexists _, ([0; 1] ++ two_node_sched)%nat, _, _.
  split; [reflexivity|]. split; [vm_compute; reflexivity|].
  split; [reflexivity|].
  refine (proj2 (proj2 (root_sense_never_touched 2 _ 1
                          ([0; 1] ++ two_node_sched)%nat _ _ _ _ _)));
    [lia|left; reflexivity|vm_compute; reflexivity].
Defined.

(** *** Synchronisation *)

Lemma wiring_of_lookup ns i n :
  ns !! i = Some n →
  parent_of (wiring_of ns) i = arrival_parent n ∧
  departure_of (wiring_of ns) i = departure_children n.
Proof.
  intros Hi. unfold parent_of, departure_of, wiring_of.
  by rewrite list_lookup_fmap, Hi.
Qed.

Lemma wiring_of_insert ns x nx nx' :
  ns !! x = Some nx → same_frame nx nx' →
  wiring_of (<[x := nx']> ns) = wiring_of ns.
Proof.
  intros Hx (Hp & _ & Hd). unfold wiring_of.
  rewrite list_fmap_insert. apply list_insert_id.
  by rewrite list_lookup_fmap, Hx, Hp, Hd.
Qed.

(** Where the heads of the two loops lead. *)
Lemma after_children_past n k :
  gathered (after_children n) = true ∧
  passed_slot k (after_children n) = true.
Proof.
  unfold after_children, enter_departure.
  destruct (arrival_parent n); [done|]. by case_decide.
Qed.

Lemma passed_slot_enter_children n k k0 :
  (k < length (arrival_children_flag n))%nat →
  passed_slot k (enter_children n k0) = bool_decide (k < k0)%nat.
Proof.
  intros Hk. unfold enter_children. case_decide; [done|].
  rewrite (proj2 (after_children_past n k)).
  symmetry. apply bool_decide_eq_true. lia.
Qed.

Lemma child_enter_children n k0 :
  is_Some (arrival_parent n) →
  arrived (enter_children n k0) = false ∧
  released (enter_children n k0) = false.
Proof.
  intros [s Hs]. unfold enter_children, after_children. rewrite Hs.
  by case_decide.
Qed.

Lemma signalled_enter_children n idx k0 :
  (idx < length (departure_children n))%nat →
  signalled idx (enter_children n k0) = false.
Proof.
  intros Hidx. unfold enter_children. case_decide; [done|].
  unfold after_children, enter_departure.
  destruct (arrival_parent n); [done|].
  by rewrite decide_True by lia.
Qed.

Lemma gathered_enter_children n k0 :
  gathered (enter_children n k0)
  = bool_decide (length (arrival_children_flag n) ≤ k0)%nat.
Proof.
  unfold enter_children. case_decide.
  - symmetry. apply bool_decide_eq_false. lia.
  - rewrite (proj1 (after_children_past n 0)).
    symmetry. apply bool_decide_eq_true. lia.
Qed.

Lemma enter_departure_past n k0 k :
  gathered (enter_departure n k0) = true ∧
  passed_slot k (enter_departure n k0) = true ∧
  arrived (enter_departure n k0) = true ∧
  released (enter_departure n k0) = true.
Proof. unfold enter_departure. by case_decide. Qed.

Lemma signalled_enter_departure n idx k0 :
  (idx < length (departure_children n))%nat →
  signalled idx (enter_departure n k0) = bool_decide (idx < k0)%nat.
Proof.
  intros Hidx. unfold enter_departure. case_decide; simpl; [done|].
  symmetry. apply bool_decide_eq_true. lia.
Qed.

Section SyncFacts.
Variable num_episodes : nat.

Lemma worker_step_wiring j ns w e ns' w' :
  worker_step num_episodes j ns w = Some (e, ns', w') →
  wiring_of ns' = wiring_of ns.
Proof.
  intros [[_ [->|(x & nx & nx' & Hx & -> & Hf & _)]]
         |[_ (nj & Hj & ->)]]%worker_step_nodes; [done|..].
  - by eapply wiring_of_insert.
  - by eapply wiring_of_insert.
Qed.

(** The statement a thread executes at each position: the event, the
    next position, and the cells of the nodes afterwards. *)
Lemma worker_step_effect j ns w e ns' w' n :
  worker_step num_episodes j ns w = Some (e, ns', w') →
  ns !! j = Some n →
  let ls := local_sense n in
  let c := tree_completed w in
  match tree_at w with
  | tree_outside =>
      w' = mk_tree_worker (enter_children n 0) c ∧
      ∀ x, read ns' x = read ns x
  | at_child_spin k =>
      ∃ f, read ns (arrival_flag j k) = Some f ∧
        w' = mk_tree_worker
               (if decide (f = ls) then at_child_sync k else at_child_spin k)
               c ∧
        ∀ x, read ns' x = read ns x
  | at_child_sync k =>
      (k < length (arrival_children_flag n))%nat ∧
      w' = mk_tree_worker (enter_children n (S k)) c ∧
      ∀ x, read ns' x = read ns x
  | at_arrive =>
      ∃ p k, arrival_parent n = Some (p, k) ∧
        w' = mk_tree_worker at_depart_spin c ∧
        ∀ x, read ns' x
             = if decide (x = arrival_flag p k) then Some ls else read ns x
  | at_depart_spin =>
      w' = mk_tree_worker
             (if decide (sense n = ls) then at_depart_sync
              else at_depart_spin) c ∧
      ∀ x, read ns' x = read ns x
  | at_depart_sync =>
      w' = mk_tree_worker (enter_departure n 0) c ∧
      ∀ x, read ns' x = read ns x
  | at_signal_child k =>
      ∃ d, departure_children n !! k = Some d ∧
        w' = mk_tree_worker (enter_departure n (S k)) c ∧
        ∀ x, read ns' x
             = if decide (x = node_sense d) then Some ls else read ns x
  | at_signal_all => False
  | at_tree_flip =>
      w' = mk_tree_worker tree_outside (S c) ∧
      ∀ x, read ns' x = read ns x
  end.
Proof.
  unfold worker_step. intros H Hn. rewrite Hn in H. simpl in H.
  destruct (tree_at w) eqn:Hat; simpl in H.
  - case_decide; [|done]. by injection H as <- <- <-.
  - destruct (arrival_children_flag n !! k) as [f|] eqn:Hf; simpl in H;
      [|done]. injection H as <- <- <-. exists f.
    split; [simpl; by rewrite Hn|done].
  - destruct (arrival_children_flag n !! k) as [f|] eqn:Hf; simpl in H;
      [|done]. injection H as <- <- <-.
    split; [by eapply lookup_lt_Some|done].
  - destruct (arrival_parent n) as [[p k]|] eqn:Hp; simpl in H; [|done].
    destruct (ns !! p) as [pn|] eqn:Hpn; simpl in H; [|done].
    destruct (arrival_children_flag pn !! k) eqn:Hk; simpl in H; [|done].
    injection H as <- <- <-. exists p, k. split_and!; [done..|].
    intros x. apply read_insert_flag; [done|by eapply lookup_lt_Some].
  - by injection H as <- <- <-.
  - by injection H as <- <- <-.
  - destruct (departure_children n !! k) as [d|] eqn:Hd; simpl in H;
      [|done].
    destruct (ns !! d) as [dn|] eqn:Hdn; simpl in H; [|done].
    injection H as <- <- <-. exists d. split_and!; [done..|].
    intros x. by apply read_insert_sense.
  - done.
  - injection H as <- <- <-. split; [done|].
    intros x. by apply read_insert_local_sense.
Qed.

End SyncFacts.

Section SyncStep.
Variable num_episodes : nat.
Variable W : wiring_table.
Hypothesis W_arrival : arrival_wired W.
Hypothesis W_departure : departure_wired W.

Local Ltac prog :=
  unfold progress in *; cbn [tree_at tree_completed] in *;
  cbn [passed_slot arrived released signalled gathered] in *;
  repeat (first [case_decide|case_bool_decide];
          cbn [tree_at tree_completed] in *;
          cbn [passed_slot arrived released signalled gathered] in *);
  try lia.

Lemma step_sync_inv j st e st' :
  sync_inv W st → step num_episodes j st = Some (e, st') → sync_inv W st'.
Proof using W_arrival W_departure.
  intros Hinv Hstep.
  pose proof Hstep as (w & ns' & w' & Hw & Hws & ->)%st_step_inv.
  pose proof (st_step_length _ _ _ _ _ Hstep) as Hlen'. simpl in Hlen'.
  assert (tree_parity nodes workers local_sense
            (mk_state ns' (<[j := w']> (workers st)))) as Hpar'.
  { eapply (tree_step_parity nodes workers local_sense same_frame remaining
              (step num_episodes)); eauto using st_step_sound, st_step_length.
    by destruct Hinv. }
  destruct Hinv as [HW Hlen Hpar Harr Hdep].
  assert (∃ n, nodes st !! j = Some n) as [n Hn].
  { apply lookup_lt_is_Some. rewrite <- Hlen. by eapply lookup_lt_Some. }
  pose proof (worker_step_wiring _ _ _ _ _ _ _ Hws) as HW'.
  pose proof (worker_step_effect _ _ _ _ _ _ _ _ Hws Hn) as Heff.
  destruct (wiring_of_lookup _ _ _ Hn) as [Hpj Hdj]. rewrite HW in Hpj, Hdj.
  pose proof (Hpar _ _ _ Hw Hn) as Hls.
  assert (read (nodes st) (node_sense j) = Some (sense n)) as Hsj
    by (simpl; by rewrite Hn).
  clear Hstep Hws Hpar.
  destruct w as [pc c]. cbn [tree_at tree_completed] in *.
  split; cbn [nodes workers].
  - by rewrite HW'.
  - by rewrite length_insert, Hlen'.
  - done.
  - intros i p k wi' wp' Hip Hi' Hp'.
    pose proof (aw_parent _ W_arrival _ _ _ Hip) as Hpi.
    destruct (insert_worker_cases _ _ _ _ _ _ Hw Hi') as [[-> ->]|[Hij Hi]];
      destruct (insert_worker_cases _ _ _ _ _ _ Hw Hp') as [[-> ->]|[Hpj' Hp]];
      [done|..].
    + (* the child steps *)
      destruct (Harr _ _ _ _ _ Hip Hw Hp) as [Ha Hb].
      rewrite Hip in Hpj.
      assert (∀ k0, arrived (enter_children n k0) = false) as Hec
        by (intros k0; apply child_enter_children; by rewrite <- Hpj).
      pose proof (λ k0, proj1 (proj2 (proj2 (enter_departure_past n k0 0))))
        as Hed.
      destruct pc.
      * destruct Heff as [-> Hrd]. rewrite Hrd.
        unfold progress in *. cbn [tree_at tree_completed] in *.
        by rewrite Hec.
      * destruct Heff as (f & _ & -> & Hrd). rewrite Hrd.
        split; prog; done.
      * destruct Heff as (_ & -> & Hrd). rewrite Hrd.
        unfold progress in *. cbn [tree_at tree_completed] in *.
        by rewrite Hec.
      * destruct Heff as (p' & k' & Hpk & -> & Hrd). rewrite Hrd.
        rewrite Hpk in Hpj. injection Hpj as <- <-.
        rewrite decide_True by done. split; [prog|].
        unfold progress. cbn [tree_at tree_completed arrived].
        by rewrite odd_next, Hls.
      * destruct Heff as [-> Hrd]. rewrite Hrd.
        split; prog; done.
      * destruct Heff as [-> Hrd]. rewrite Hrd.
        unfold progress in *. cbn [tree_at tree_completed arrived] in *.
        by rewrite Hed.
      * destruct Heff as (d & _ & -> & Hrd). rewrite Hrd.
        rewrite decide_False by done.
        unfold progress in *. cbn [tree_at tree_completed arrived] in *.
        by rewrite Hed.
      * done.
      * destruct Heff as [-> Hrd]. rewrite Hrd.
        unfold progress in *. cbn [tree_at tree_completed arrived] in *.
        replace (S c + 0)%nat with (c + 1)%nat by lia. done.
    + (* the parent steps *)
      destruct (Harr _ _ _ _ _ Hip Hi Hw) as [Ha Hb].
      assert (k < length (arrival_children_flag n))%nat as Hk.
      { unfold read in Hb. rewrite Hn in Hb. simpl in Hb.
        by eapply lookup_lt_Some. }
      pose proof (dw_parent _ W_departure _ _ _ Hip) as Hidx.
      apply list_elem_of_lookup in Hidx as [idx Hidx].
      destruct (Hdep _ _ _ _ _ _ Hip Hidx Hi Hw) as [Hc _].
      pose proof (progress_bounds arrived wi') as Hba.
      pose proof (progress_bounds released wi') as Hbr.
      pose proof (λ k0, proj1 (proj2 (enter_departure_past n k0 k))) as Hed.
      destruct pc.
      * destruct Heff as [-> Hrd]. rewrite Hrd. split; [|done].
        unfold progress in *. cbn [tree_at tree_completed] in *.
        rewrite passed_slot_enter_children by done. prog.
      * destruct Heff as (f & Hf & -> & Hrd). rewrite Hrd. split; [|done].
        destruct (decide (k = k0)) as [->|Hne]; [|prog].
        rewrite Hb in Hf. injection Hf as <-.
        case_decide as Hhit; [|prog].
        rewrite Hls in Hhit. apply parity_step in Hhit; prog.
      * destruct Heff as (_ & -> & Hrd). rewrite Hrd. split; [|done].
        unfold progress in *. cbn [tree_at tree_completed] in *.
        rewrite passed_slot_enter_children by done. prog.
      * destruct Heff as (p' & k' & Hpk & -> & Hrd). rewrite Hrd.
        rewrite decide_False.
        { split; [prog|done]. }
        intros [= <- <-]. rewrite Hpk in Hpj.
        by destruct (aw_parent _ W_arrival _ _ _ Hpj).
      * destruct Heff as [-> Hrd]. rewrite Hrd. split; [prog|done].
      * destruct Heff as [-> Hrd]. rewrite Hrd. split; [|done].
        unfold progress in *. cbn [tree_at tree_completed passed_slot] in *.
        by rewrite Hed.
      * destruct Heff as (d & _ & -> & Hrd). rewrite Hrd.
        rewrite decide_False by done. split; [|done].
        unfold progress in *. cbn [tree_at tree_completed passed_slot] in *.
        by rewrite Hed.
      * done.
      * destruct Heff as [-> Hrd]. rewrite Hrd. split; [prog|done].
    + (* another thread steps *)
      destruct (Harr _ _ _ _ _ Hip Hi Hp) as [Ha Hb]. split; [done|].
      destruct pc;
        try (destruct Heff as [_ Hrd]; by rewrite Hrd);
        try (destruct Heff as (? & _ & _ & Hrd); by rewrite Hrd);
        try (destruct Heff as (_ & _ & Hrd); by rewrite Hrd); try done.
      destruct Heff as (p' & k' & Hpk & _ & Hrd). rewrite Hrd.
      rewrite decide_False; [done|]. intros [= <- <-].
      rewrite Hpk in Hpj. by destruct (aw_slot _ W_arrival _ _ _ Hip Hpj).
  - intros i p k idx wi' wp' Hip Hidx Hi' Hp'.
    pose proof (aw_parent _ W_arrival _ _ _ Hip) as Hpi.
    destruct (insert_worker_cases _ _ _ _ _ _ Hw Hi') as [[-> ->]|[Hij Hi]];
      destruct (insert_worker_cases _ _ _ _ _ _ Hw Hp') as [[-> ->]|[Hpj' Hp]];
      [done|..].
    + (* the child steps *)
      destruct (Hdep _ _ _ _ _ _ Hip Hidx Hw Hp) as [Hc Hd].
      destruct (Harr _ _ _ _ _ Hip Hw Hp) as [Ha _].
      rewrite Hip in Hpj.
      assert (∀ k0, released (enter_children n k0) = false) as Hec
        by (intros k0; apply child_enter_children; by rewrite <- Hpj).
      pose proof (λ k0, proj2 (proj2 (proj2 (enter_departure_past n k0 0))))
        as Hed.
      assert (progress (signalled idx) wp' ≤ progress (passed_slot k) wp')%nat
        as Hord.
      { etrans; [apply signalled_released|].
        etrans; [apply released_arrived|].
        etrans; [apply arrived_gathered|apply gathered_passed]. }
      destruct pc.
      * destruct Heff as [-> Hrd]. rewrite Hrd. split; [|done].
        unfold progress in *. cbn [tree_at tree_completed] in *.
        by rewrite Hec.
      * destruct Heff as (f & _ & -> & Hrd). rewrite Hrd.
        split; [prog|done].
      * destruct Heff as (_ & -> & Hrd). rewrite Hrd. split; [|done].
        unfold progress in *. cbn [tree_at tree_completed] in *.
        by rewrite Hec.
      * destruct Heff as (p' & k' & _ & -> & Hrd). rewrite Hrd.
        rewrite decide_False by done. split; [prog|done].
      * destruct Heff as [-> Hrd]. rewrite Hrd. split; [|done].
        case_decide as Hhit; [|prog].
        rewrite Hd in Hsj. injection Hsj as Hsn.
        rewrite <- Hsn, Hls in Hhit. apply parity_step in Hhit; prog.
      * destruct Heff as [-> Hrd]. rewrite Hrd. split; [|done].
        unfold progress in *. cbn [tree_at tree_completed released] in *.
        by rewrite Hed.
      * destruct Heff as (d & Hdd & -> & Hrd). rewrite Hrd.
        rewrite decide_False.
        { split; [|done].
          unfold progress in *. cbn [tree_at tree_completed released] in *.
          by rewrite Hed. }
        intros [= <-]. rewrite <- Hdj in Hdd.
        apply list_elem_of_lookup_2, (dw_child _ W_departure) in Hdd
          as [k' Hk'].
        by destruct (aw_parent _ W_arrival _ _ _ Hk').
      * done.
      * destruct Heff as [-> Hrd]. rewrite Hrd. split; [prog|done].
    + (* the parent steps *)
      destruct (Hdep _ _ _ _ _ _ Hip Hidx Hi Hw) as [Hc Hd].
      pose proof Hidx as Hidx'. rewrite Hdj in Hidx'.
      assert (idx < length (departure_children n))%nat as Hlt
        by by eapply lookup_lt_Some.
      destruct pc.
      * destruct Heff as [-> Hrd]. rewrite Hrd.
        unfold progress in *. cbn [tree_at tree_completed] in *.
        rewrite signalled_enter_children by done. by prog.
      * destruct Heff as (f & _ & -> & Hrd). rewrite Hrd. split; prog; done.
      * destruct Heff as (_ & -> & Hrd). rewrite Hrd.
        unfold progress in *. cbn [tree_at tree_completed] in *.
        rewrite signalled_enter_children by done. by prog.
      * destruct Heff as (p' & k' & _ & -> & Hrd). rewrite Hrd.
        rewrite decide_False by done. split; prog; done.
      * destruct Heff as [-> Hrd]. rewrite Hrd. split; prog; done.
      * destruct Heff as [-> Hrd]. rewrite Hrd.
        unfold progress in *. cbn [tree_at tree_completed] in *.
        rewrite signalled_enter_departure by done. by prog.
      * destruct Heff as (d & Hdd & -> & Hrd). rewrite Hrd.
        unfold progress in *. cbn [tree_at tree_completed] in *.
        rewrite signalled_enter_departure by done.
        destruct (decide (idx = k0)) as [->|Hne].
        -- rewrite Hdd in Hidx'. injection Hidx' as ->.
           rewrite decide_True by done. rewrite bool_decide_true by lia.
           split; [prog|]. by rewrite odd_next, Hls.
        -- rewrite decide_False.
           { cbn [signalled] in *. split; prog; done. }
           intros [= <-].
           pose proof (dw_nodup _ W_departure j) as Hnd. rewrite Hdj in Hnd.
           by destruct (NoDup_lookup _ _ _ _ Hnd Hidx' Hdd).
      * done.
      * destruct Heff as [-> Hrd]. rewrite Hrd.
        unfold progress in *. cbn [tree_at tree_completed signalled] in *.
        by replace (S c + 0)%nat with (c + 1)%nat by lia.
    + (* another thread steps *)
      destruct (Hdep _ _ _ _ _ _ Hip Hidx Hi Hp) as [Hc Hd]. split; [done|].
      destruct pc;
        try (destruct Heff as [_ Hrd]; by rewrite Hrd);
        try (destruct Heff as (? & _ & _ & Hrd); by rewrite Hrd);
        try (destruct Heff as (_ & _ & Hrd); by rewrite Hrd); try done.
      * destruct Heff as (p' & k' & _ & _ & Hrd). rewrite Hrd.
        by rewrite decide_False.
      * destruct Heff as (d & Hdd & _ & Hrd). rewrite Hrd.
        rewrite decide_False; [done|]. intros [= <-]. rewrite <- Hdj in Hdd.
        apply list_elem_of_lookup_2, (dw_child _ W_departure) in Hdd
          as [k' Hk'].
        rewrite Hip in Hk'. by injection Hk' as -> _.
Qed.

End SyncStep.

Section SyncChain.
Variable W : wiring_table.
Hypothesis W_arrival : arrival_wired W.
Hypothesis W_departure : departure_wired W.
Variable st : state.
Hypothesis st_sync : sync_inv W st.

Lemma sync_inv_worker i : (i < length W)%nat → is_Some (workers st !! i).
Proof using st_sync.
  intros Hi. apply lookup_lt_is_Some. rewrite (si_workers _ _ st_sync).
  rewrite <- (si_wiring _ _ st_sync) in Hi. unfold wiring_of in Hi.
  by rewrite length_fmap in Hi.
Qed.

(** Up the tree: a thread has left the departure loop only in calls in
    which the root has seen all its children arrive. *)
Lemma released_after_root fuel :
  ∀ i w w0,
    reaches_root W fuel i = true →
    workers st !! i = Some w → workers st !! 0%nat = Some w0 →
    (progress released w ≤ progress gathered w0)%nat.
Proof using W_departure st_sync.
  induction fuel as [|fuel IH]; intros i w w0 Hr Hi H0; [done|].
  simpl in Hr. destruct (parent_of W i) as [[p k]|] eqn:Hp.
  - pose proof (dw_parent _ W_departure _ _ _ Hp) as Hin.
    destruct (sync_inv_worker p (departure_of_lt _ _ _ Hin)) as [pw Hpw].
    apply list_elem_of_lookup in Hin as [idx Hidx].
    destruct (si_departure _ _ st_sync _ _ _ _ _ _ Hp Hidx Hi Hpw) as [Hc _].
    pose proof (IH _ _ _ Hr Hpw H0). pose proof (signalled_released idx pw).
    lia.
  - apply bool_decide_eq_true in Hr as ->.
    rewrite Hi in H0. injection H0 as <-.
    pose proof (released_arrived w). pose proof (arrived_gathered w). lia.
Qed.

(** Down the tree: the root has seen all its children arrive only in
    calls in which every thread has seen its own children arrive, and
    has arrived at its parent. *)
Lemma gathered_before_root fuel :
  ∀ i w w0,
    reaches_root W fuel i = true →
    workers st !! i = Some w → workers st !! 0%nat = Some w0 →
    (progress gathered w0 ≤ progress gathered w)%nat ∧
    (is_Some (parent_of W i) →
     progress gathered w0 ≤ progress arrived w)%nat.
Proof using W_departure st_sync.
  induction fuel as [|fuel IH]; intros i w w0 Hr Hi H0; [done|].
  simpl in Hr. destruct (parent_of W i) as [[p k]|] eqn:Hp.
  - pose proof (dw_parent _ W_departure _ _ _ Hp) as Hin.
    destruct (sync_inv_worker p (departure_of_lt _ _ _ Hin)) as [pw Hpw].
    destruct (si_arrival _ _ st_sync _ _ _ _ _ Hp Hi Hpw) as [Ha _].
    destruct (IH _ _ _ Hr Hpw H0) as [Hg _].
    pose proof (gathered_passed k pw). pose proof (arrived_gathered w).
    split; [lia|intros _; lia].
  - apply bool_decide_eq_true in Hr as ->.
    rewrite Hi in H0. injection H0 as <-.
    split; [done|]. by intros [? ?].
Qed.

(** Two threads are one call apart at most, and the thread behind is
    past its arrival. *)
Lemma sync_inv_synchronises i j wi wj :
  workers st !! i = Some wi → workers st !! j = Some wj →
  (tree_completed wj < tree_completed wi)%nat →
  tree_completed wi = S (tree_completed wj) ∧
  gathered (tree_at wj) = true ∧
  (j ≠ 0%nat → arrived (tree_at wj) = true).
Proof using W_arrival W_departure st_sync.
  intros Hi Hj Hlt.
  assert (∀ x w, workers st !! x = Some w → (x < length W)%nat) as Hin.
  { intros x w Hx. apply lookup_lt_Some in Hx.
    rewrite (si_workers _ _ st_sync) in Hx.
    rewrite <- (si_wiring _ _ st_sync). unfold wiring_of.
    by rewrite length_fmap. }
  pose proof (Hin _ _ Hi) as Hil. pose proof (Hin _ _ Hj) as Hjl.
  destruct (sync_inv_worker 0) as [w0 H0]; [lia|].
  pose proof (released_after_root _ _ _ _
                (aw_reach _ W_arrival _ Hil) Hi H0) as Hup.
  destruct (gathered_before_root _ _ _ _
              (aw_reach _ W_arrival _ Hjl) Hj H0) as [Hdown Harrived].
  pose proof (progress_bounds released wi).
  pose proof (progress_bounds gathered wj).
  pose proof (progress_bounds arrived wj).
  assert (progress gathered wj = S (tree_completed wj)) as Hg by lia.
  split_and!; [lia| |].
  - unfold progress in Hg. destruct (gathered (tree_at wj)); [done|lia].
  - intros Hne. destruct (parent_of W j) as [s|] eqn:Hp.
    + specialize (Harrived (mk_is_Some _ _ eq_refl)).
      assert (progress arrived wj = S (tree_completed wj)) as Ha by lia.
      unfold progress in Ha. destruct (arrived (tree_at wj)); [done|lia].
    + by destruct (Hne (aw_root _ W_arrival _ Hjl Hp)).
Qed.

End SyncChain.

(** Nodes that pass the test start in the relation. *)
Lemma ready_sync_inv ns :
  ready ns = true →
  arrival_wired (wiring_of ns) ∧ departure_wired (wiring_of ns) ∧
  sync_inv (wiring_of ns) (initial ns).
Proof.
  unfold ready. rewrite !andb_true_iff, forallb_forall.
  intros [[Haw Hdw] Hall].
  split; [by apply arrival_wired_check_sound|].
  split; [by apply departure_wired_check_sound|].
  assert (∀ i n, ns !! i = Some n →
            sense n = true ∧ local_sense n = false ∧
            ∀ p k, arrival_parent n = Some (p, k) →
              read ns (arrival_flag p k) = Some true) as Hnode.
  { intros i n Hi.
    apply list_elem_of_lookup_2, list_elem_of_In, Hall in Hi.
    apply andb_true_iff in Hi as [[Hs Hl]%andb_true_iff Hp].
    split_and!; [done|by destruct (local_sense n)|].
    intros p k Hpk. rewrite Hpk in Hp. by apply bool_decide_eq_true in Hp. }
  assert (∀ i s, parent_of (wiring_of ns) i = Some s →
            ∃ n, ns !! i = Some n ∧ arrival_parent n = Some s) as Hpar.
  { intros i s Hi. pose proof (parent_of_lt _ _ _ Hi) as Hlt.
    unfold wiring_of in Hlt. rewrite length_fmap in Hlt.
    apply lookup_lt_is_Some in Hlt as [n Hn]. exists n. split; [done|].
    by rewrite <- (proj1 (wiring_of_lookup _ _ _ Hn)). }
  split; simpl.
  - done.
  - by rewrite length_replicate.
  - apply st_initial_parity. apply Forall_lookup. intros i n Hi.
    by destruct (Hnode _ _ Hi) as (_ & ? & _).
  - intros i p k w pw Hip [-> _]%lookup_replicate [-> _]%lookup_replicate.
    split; [done|]. destruct (Hpar _ _ Hip) as (n & Hn & Hpk).
    by apply (Hnode _ _ Hn).
  - intros i p k idx w pw Hip _ [-> _]%lookup_replicate
      [-> _]%lookup_replicate.
    split; [done|]. destruct (Hpar _ _ Hip) as (n & Hn & _).
    unfold read. rewrite Hn. simpl. by destruct (Hnode _ _ Hn) as [-> _].
Qed.

(** On nodes that pass the test, every execution keeps the relation. *)
Lemma ready_synchronises num_episodes ns sched tr st i j wi wj :
  ready ns = true →
  exec (step num_episodes) sched (initial ns) = Some (tr, st) →
  workers st !! i = Some wi → workers st !! j = Some wj →
  (tree_completed wj < tree_completed wi)%nat →
  tree_completed wi = S (tree_completed wj) ∧
  gathered (tree_at wj) = true ∧
  (j ≠ 0%nat → arrived (tree_at wj) = true).
Proof.
  intros (Haw & Hdw & Hinit)%ready_sync_inv Hexec.
  apply (sync_inv_synchronises (wiring_of ns)); [done..|].
  refine (exec_invariant (step num_episodes) (sync_inv (wiring_of ns))
            _ _ _ _ _ Hinit Hexec).
  intros x s e s1 Hs Hstep. by eapply step_sync_inv.
Qed.

(** X5: the static tree barrier synchronises on the trees of the
    benchmark.  On the nodes either layout function returns for 1 to 8
    threads, in every state the threads can reach, two threads differ by
    at most one in the number of calls of [await] they have returned
    from, and when thread [i] is one call ahead of thread [j], thread [j]
    is inside [await], has read the awaited value in all its arrival
    flags and, unless it is the root, has stored into its parent's slot:
    no thread returns from its [k]-th call before every thread has
    arrived at its [k]-th call. *)
Theorem static_tree_barrier_synchronises n ns num_episodes sched tr st
    i j wi wj :
  (1 ≤ n ≤ 8)%nat →
  static_tree_layout_good_locality n = Some ns ∨
  static_tree_layout_bad_locality n = Some ns →
  exec (step num_episodes) sched (initial ns) = Some (tr, st) →
  workers st !! i = Some wi → workers st !! j = Some wj →
  (tree_completed wj < tree_completed wi)%nat →
  tree_completed wi = S (tree_completed wj) ∧
  gathered (tree_at wj) = true ∧
  (j ≠ 0%nat → arrived (tree_at wj) = true).
Proof.
  intros Hn Hns. apply ready_synchronises.
  destruct n as [|[|[|[|[|[|[|[|[|n]]]]]]]]]; try lia;
    destruct Hns as [[= <-]|[= <-]]; vm_compute; reflexivity.
Qed.

(** On the good-locality tree for two: the root has left its first call,
    its child is in the departure loop. *)
Lemma static_tree_barrier_synchronises_witness :
  ∃ ns tr st,
    static_tree_layout_good_locality 2 = Some ns ∧
    exec (step 1) [0; 1; 0; 1; 0; 0; 0; 0]%nat (initial ns) = Some (tr, st) ∧
    workers st !! 0%nat = Some (mk_tree_worker tree_outside 1) ∧
    workers st !! 1%nat = Some (mk_tree_worker at_depart_spin 0) ∧
    gathered at_depart_spin = true ∧
    (1 ≠ 0 → arrived at_depart_spin = true)%nat.
Proof.
  eexists _, _, _.
  split; [reflexivity|]. split; [vm_compute; reflexivity|].
  split; [vm_compute; reflexivity|]. split; [vm_compute; reflexivity|].
  refine (proj2 (static_tree_barrier_synchronises 2 _ 1
                   [0; 1; 0; 1; 0; 0; 0; 0]%nat _ _ 0 1
                   (mk_tree_worker tree_outside 1)
                   (mk_tree_worker at_depart_spin 0) _ _ _ _ _ _));
    [lia|left; reflexivity|vm_compute; reflexivity..|simpl; lia].
Defined.

(** *** Progress *)

Lemma st_live_inv_initial num_episodes ns :
  live_inv (wiring_of ns) (flag_counts ns) num_episodes (initial ns).
Proof.
  split; simpl.
  - done.
  - by intros i w [-> _]%lookup_replicate.
  - intros i w [-> _]%lookup_replicate. simpl. split; [lia|done].
Qed.

Lemma st_position_enter_departure (W : wiring_table) (F : list nat) i n k0 :
  departure_of W i = departure_children n →
  match enter_departure n k0 with
  | at_child_spin k | at_child_sync k => ∃ c, F !! i = Some c ∧ (k < c)%nat
  | at_arrive | at_depart_spin | at_depart_sync => is_Some (parent_of W i)
  | at_signal_child k => (k < length (departure_of W i))%nat
  | at_signal_all => False
  | _ => True
  end.
Proof.
  intros Hd. unfold enter_departure. case_decide; [|done]. by rewrite Hd.
Qed.

Lemma st_position_enter_children (W : wiring_table) (F : list nat) i n k0 :
  F !! i = Some (length (arrival_children_flag n)) →
  parent_of W i = arrival_parent n →
  departure_of W i = departure_children n →
  match enter_children n k0 with
  | at_child_spin k | at_child_sync k => ∃ c, F !! i = Some c ∧ (k < c)%nat
  | at_arrive | at_depart_spin | at_depart_sync => is_Some (parent_of W i)
  | at_signal_child k => (k < length (departure_of W i))%nat
  | at_signal_all => False
  | _ => True
  end.
Proof.
  intros HF Hp Hd. unfold enter_children, after_children.
  case_decide; [by eexists|]. rewrite Hp.
  destruct (arrival_parent n) eqn:Hpn; [done|].
  rewrite <- Hp. by apply st_position_enter_departure.
Qed.

Lemma st_enter_departure_cases n k0 :
  enter_departure n k0 = at_signal_child k0 ∨
  enter_departure n k0 = at_tree_flip.
Proof. unfold enter_departure. case_decide; auto. Qed.

Lemma st_enter_children_cases n k0 :
  enter_children n k0 = at_child_spin k0 ∨
  enter_children n k0 = at_arrive ∨
  enter_children n k0 = at_signal_child 0 ∨
  enter_children n k0 = at_tree_flip.
Proof.
  unfold enter_children, after_children. case_decide; [by left|].
  destruct (arrival_parent n); [auto|].
  destruct (st_enter_departure_cases n 0) as [-> | ->]; auto.
Qed.

Section StProgressFacts.
Variable num_episodes : nat.
Variable W : wiring_table.
Variable F : list nat.

Lemma st_step_flag_counts j st e st' :
  step num_episodes j st = Some (e, st') →
  flag_counts (nodes st') = flag_counts (nodes st).
Proof.
  intros Hstep.
  pose proof (st_step_length _ _ _ _ _ Hstep) as Hlen.
  destruct (st_step_sound _ _ _ _ _ Hstep) as (w & w' & _ & _ & Hfr & _).
  unfold flag_counts. apply list_eq. intros i.
  rewrite !list_lookup_fmap.
  destruct (nodes st !! i) as [n|] eqn:Hn.
  - destruct (Hfr _ _ Hn) as (n' & -> & (_ & Hl & _) & _). simpl.
    by rewrite Hl.
  - rewrite (lookup_ge_None_2 (nodes st')); [done|].
    rewrite Hlen. by apply lookup_ge_None_1.
Qed.

Lemma st_worker_step_call j ns w e ns' w' :
  worker_step num_episodes j ns w = Some (e, ns', w') →
  tree_at w = tree_outside → (tree_completed w < num_episodes)%nat.
Proof.
  unfold worker_step. intros H Hp. rewrite Hp in H.
  destruct (ns !! j); simpl in H; [|done]. by case_decide.
Qed.

Lemma st_step_live_inv j st e st' :
  sync_inv W st → live_inv W F num_episodes st →
  step num_episodes j st = Some (e, st') →
  live_inv W F num_episodes st'.
Proof.
  intros Hsync [Hcounts Hpos Hbound] Hstep.
  pose proof (st_step_flag_counts _ _ _ _ Hstep) as Hfc.
  pose proof Hstep as (w & ns' & w' & Hw & Hws & ->)%st_step_inv.
  assert (∃ n, nodes st !! j = Some n) as [n Hn].
  { apply lookup_lt_is_Some. rewrite <- (si_workers _ _ Hsync).
    by eapply lookup_lt_Some. }
  pose proof (worker_step_effect _ _ _ _ _ _ _ _ Hws Hn) as Heff.
  destruct (wiring_of_lookup _ _ _ Hn) as [Hpj Hdj].
  rewrite (si_wiring _ _ Hsync) in Hpj, Hdj.
  assert (F !! j = Some (length (arrival_children_flag n))) as HFj.
  { rewrite <- Hcounts. unfold flag_counts.
    by rewrite list_lookup_fmap, Hn. }
  pose proof (Hpos _ _ Hw) as Hposj.
  destruct (Hbound _ _ Hw) as [Hle Hlt].
  assert (j < length (workers st))%nat as Hjlt by by eapply lookup_lt_Some.
  pose proof (st_worker_step_call _ _ _ _ _ _ Hws) as Hcall.
  simpl in Hfc.
  split; simpl.
  - by rewrite Hfc.
  - intros i wi Hi.
    destruct (decide (i = j)) as [->|Hne];
      [|rewrite list_lookup_insert_ne in Hi by done; by eapply Hpos].
    rewrite list_lookup_insert_eq in Hi by done. injection Hi as <-.
    destruct w as [pc c]. cbn [tree_at tree_completed] in *.
    destruct pc.
    + destruct Heff as [-> _]. by apply st_position_enter_children.
    + destruct Heff as (f & _ & -> & _). simpl. by case_decide.
    + destruct Heff as (_ & -> & _). by apply st_position_enter_children.
    + by destruct Heff as (p' & k' & _ & -> & _).
    + destruct Heff as [-> _]. simpl. by case_decide.
    + destruct Heff as [-> _]. by apply st_position_enter_departure.
    + destruct Heff as (d & _ & -> & _).
      by apply st_position_enter_departure.
    + done.
    + by destruct Heff as [-> _].
  - intros i wi Hi.
    destruct (decide (i = j)) as [->|Hne];
      [|rewrite list_lookup_insert_ne in Hi by done; by eapply Hbound].
    rewrite list_lookup_insert_eq in Hi by done. injection Hi as <-.
    destruct w as [pc c]. cbn [tree_at tree_completed] in *.
    destruct pc.
    + destruct Heff as [-> _]. simpl. split; [lia|intros _; by apply Hcall].
    + destruct Heff as (f & _ & -> & _). simpl.
      specialize (Hlt ltac:(done)). split; [lia|done].
    + destruct Heff as (_ & -> & _). simpl.
      specialize (Hlt ltac:(done)). split; [lia|done].
    + destruct Heff as (p' & k' & _ & -> & _). simpl.
      specialize (Hlt ltac:(done)). split; [lia|done].
    + destruct Heff as [-> _]. simpl.
      specialize (Hlt ltac:(done)). split; [lia|done].
    + destruct Heff as [-> _]. simpl.
      specialize (Hlt ltac:(done)). split; [lia|done].
    + destruct Heff as (d & _ & -> & _). simpl.
      specialize (Hlt ltac:(done)). split; [lia|done].
    + done.
    + destruct Heff as [-> _]. simpl.
      specialize (Hlt ltac:(done)). split; [lia|done].
Qed.

End StProgressFacts.

Section StStuck.
Variable num_episodes : nat.
Variable W : wiring_table.
Variable F : list nat.
Hypothesis W_arrival : arrival_wired W.
Hypothesis W_departure : departure_wired W.
Hypothesis W_slots : slots_wired W F.
Variable st : state.
Hypothesis st_sync : sync_inv W st.
Hypothesis st_live : live_inv W F num_episodes st.

Lemma st_sync_inv_index i w : workers st !! i = Some w → (i < length W)%nat.
Proof using st_sync.
  intros Hi%lookup_lt_Some. rewrite (si_workers _ _ st_sync) in Hi.
  rewrite <- (si_wiring _ _ st_sync). unfold wiring_of.
  by rewrite length_fmap.
Qed.

Lemma st_sync_inv_node i w :
  workers st !! i = Some w →
  ∃ n, nodes st !! i = Some n ∧
       local_sense n = Nat.odd (tree_completed w) ∧
       parent_of W i = arrival_parent n ∧
       departure_of W i = departure_children n ∧
       F !! i = Some (length (arrival_children_flag n)).
Proof using st_sync st_live.
  intros Hi.
  assert (∃ n, nodes st !! i = Some n) as [n Hn].
  { apply lookup_lt_is_Some. rewrite <- (si_workers _ _ st_sync).
    by eapply lookup_lt_Some. }
  destruct (wiring_of_lookup _ _ _ Hn) as [Hp Hd].
  rewrite (si_wiring _ _ st_sync) in Hp, Hd.
  exists n. split_and!; [done|by eapply (si_parity _ _ st_sync)|done..|].
  rewrite <- (li_counts _ _ _ _ st_live). unfold flag_counts.
  by rewrite list_lookup_fmap, Hn.
Qed.

(** A node and its parent: the slot and the sense they share. *)
Lemma st_parent_link i w p k :
  workers st !! i = Some w → parent_of W i = Some (p, k) →
  ∃ pw pn n idx,
    workers st !! p = Some pw ∧ nodes st !! p = Some pn ∧
    nodes st !! i = Some n ∧
    arrival_children_flag pn !! k
    = Some (negb (Nat.odd (progress arrived w))) ∧
    sense n = negb (Nat.odd (progress (signalled idx) pw)) ∧
    (progress (passed_slot k) pw ≤ progress arrived w)%nat ∧
    (progress released w ≤ progress (signalled idx) pw)%nat ∧
    (progress (signalled idx) pw ≤ progress (passed_slot k) pw)%nat.
Proof using W_departure st_sync st_live.
  intros Hi Hp.
  pose proof (dw_parent _ W_departure _ _ _ Hp) as Hin.
  destruct (sync_inv_worker _ _ st_sync p (departure_of_lt _ _ _ Hin))
    as [pw Hpw].
  apply list_elem_of_lookup in Hin as [idx Hidx].
  destruct (si_arrival _ _ st_sync _ _ _ _ _ Hp Hi Hpw) as [Ha Hb].
  destruct (si_departure _ _ st_sync _ _ _ _ _ _ Hp Hidx Hi Hpw) as [Hc Hd].
  destruct (st_sync_inv_node _ _ Hpw) as (pn & Hpn & _).
  destruct (st_sync_inv_node _ _ Hi) as (n & Hn & _).
  unfold read in Hb, Hd. rewrite Hpn in Hb. rewrite Hn in Hd.
  simpl in Hb, Hd. injection Hd as Hd.
  exists pw, pn, n, idx. split_and!; [done..|].
  etrans; [apply signalled_released|].
  etrans; [apply released_arrived|].
  etrans; [apply arrived_gathered|apply gathered_passed].
Qed.

(** A thread that is not blocked has a step, and the step moves it. *)
Lemma st_worker_moves j w :
  workers st !! j = Some w →
  blocked num_episodes (nodes st) j w = false →
  ∃ e st', step num_episodes j st = Some (e, st') ∧ st' ≠ st.
Proof using W_arrival W_departure st_sync st_live.
  intros Hj Hnb.
  destruct (st_sync_inv_node _ _ Hj) as (n & Hn & Hls & Hpj & Hdj & HFj).
  pose proof (li_position _ _ _ _ st_live _ _ Hj) as Hpos.
  enough (∃ e ns' w',
            worker_step num_episodes j (nodes st) w = Some (e, ns', w') ∧
            tree_at w' ≠ tree_at w)
    as (e & ns' & w' & Hws & Hne).
  { exists e, (mk_state ns' (<[j := w']> (workers st))).
    split; [unfold step; rewrite Hj; simpl; by rewrite Hws|].
    intros Heq. apply (f_equal (λ s, workers s !! j)) in Heq.
    simpl in Heq. rewrite list_lookup_insert_eq, Hj in Heq
      by by eapply lookup_lt_Some.
    injection Heq as ->. done. }
  unfold blocked in Hnb. rewrite Hn in Hnb.
  unfold worker_step. rewrite Hn. simpl.
  destruct (tree_at w) eqn:Hat.
  - apply bool_decide_eq_false in Hnb.
    rewrite decide_True by (by apply dec_stable).
    eexists _, _, _. split; [done|]. simpl.
    apply enter_children_inside.
  - apply bool_decide_eq_false in Hnb. apply dec_stable in Hnb.
    rewrite Hnb. simpl. eexists _, _, _. split; [done|]. simpl.
    by rewrite decide_True.
  - destruct Hpos as (c & Hc & Hk). rewrite HFj in Hc. injection Hc as <-.
    apply lookup_lt_is_Some in Hk as [f ->]. simpl.
    eexists _, _, _. split; [done|]. simpl.
    by destruct (st_enter_children_cases n (S k))
      as [-> | [-> | [-> | ->]]].
  - destruct Hpos as [[p k] Hpk].
    destruct (st_parent_link _ _ _ _ Hj Hpk)
      as (pw & pn & n' & idx & _ & Hpn & _ & Hf & _).
    rewrite Hpj in Hpk. rewrite Hpk. simpl.
    rewrite Hpn. simpl. rewrite Hf. simpl.
    by eexists _, _, _.
  - apply bool_decide_eq_false in Hnb. apply dec_stable in Hnb.
    eexists _, _, _. split; [done|]. simpl. by rewrite decide_True.
  - eexists _, _, _. split; [done|]. simpl.
    by destruct (st_enter_departure_cases n 0) as [-> | ->].
  - rewrite Hdj in Hpos. apply lookup_lt_is_Some in Hpos as [d Hd].
    rewrite Hd. simpl.
    assert (is_Some (nodes st !! d)) as [dn ->].
    { apply lookup_lt_is_Some. rewrite <- (si_workers _ _ st_sync).
      apply lookup_lt_is_Some, (sync_inv_worker _ _ st_sync).
      rewrite <- Hdj in Hd.
      apply list_elem_of_lookup_2, (dw_child _ W_departure) in Hd
        as [k' Hk'].
      by eapply parent_of_lt. }
    simpl. eexists _, _, _. split; [done|]. simpl.
    destruct (st_enter_departure_cases n (S k)) as [-> | ->]; [|done].
    intros [=]. lia.
  - done.
  - by eexists _, _, _.
Qed.

Hypothesis all_blocked : ∀ i w,
  workers st !! i = Some w →
  blocked num_episodes (nodes st) i w = true.

(** A blocked thread in the departure loop waits for a parent that has
    not signalled it in this call. *)
Lemma st_blocked_depart i w p k :
  workers st !! i = Some w → tree_at w = at_depart_spin →
  parent_of W i = Some (p, k) →
  ∃ pw idx,
    workers st !! p = Some pw ∧
    progress (signalled idx) pw = tree_completed w ∧
    (progress (passed_slot k) pw ≤ S (tree_completed w))%nat.
Proof using W_departure st_sync st_live all_blocked.
  intros Hi Hat Hp.
  destruct (st_parent_link _ _ _ _ Hi Hp)
    as (pw & pn & n & idx & Hpw & _ & Hn & _ & Hs & Ha & Hr & Hord).
  destruct (st_sync_inv_node _ _ Hi) as (n' & Hn' & Hls & _).
  rewrite Hn in Hn'. injection Hn' as <-.
  pose proof (all_blocked _ _ Hi) as Hb. unfold blocked in Hb.
  rewrite Hat, Hn in Hb. apply bool_decide_eq_true in Hb.
  exists pw, idx. split; [done|].
  destruct w as [pc c]. simpl in Hat. subst pc.
  remember (progress (signalled idx) pw) as sg eqn:Hsg.
  remember (progress (passed_slot k) pw) as ps eqn:Hps.
  unfold progress in Ha, Hr. simpl in Ha, Hr, Hls. simpl.
  split; [|lia].
  destruct (decide (sg = c)) as [|Hne]; [done|].
  destruct Hb. rewrite Hs, Hls.
  replace sg with (c + 1)%nat by lia.
  apply odd_next.
Qed.

(** A blocked thread that waits for a child has a child that is blocked
    and waits for a child. *)
Lemma st_stuck_child p wp k :
  workers st !! p = Some wp → tree_at wp = at_child_spin k →
  ∃ i wi k',
    parent_of W i = Some (p, k) ∧
    workers st !! i = Some wi ∧ tree_at wi = at_child_spin k'.
Proof using W_departure W_slots st_sync st_live all_blocked.
  intros Hp Hat.
  destruct (st_sync_inv_node _ _ Hp) as (n & Hn & Hls & _ & _ & HF).
  pose proof (li_position _ _ _ _ st_live _ _ Hp) as Hpos.
  rewrite Hat in Hpos. destruct Hpos as (c & Hc & Hk).
  destruct (W_slots _ _ _ Hc Hk) as [i Hip].
  destruct (sync_inv_worker _ _ st_sync i (parent_of_lt _ _ _ Hip))
    as [wi Hi].
  exists i, wi.
  destruct (st_parent_link _ _ _ _ Hi Hip)
    as (pw & pn & ni & idx & Hpw & Hpn & Hni & Hf & Hs & Ha & Hr & Hord).
  rewrite Hp in Hpw. injection Hpw as <-.
  rewrite Hn in Hpn. injection Hpn as <-.
  pose proof (all_blocked _ _ Hp) as Hb. unfold blocked in Hb.
  rewrite Hat, Hn, Hf, Hls in Hb. apply bool_decide_eq_true in Hb.
  destruct (li_bound _ _ _ _ st_live _ _ Hp) as [_ Hlt].
  specialize (Hlt ltac:(by rewrite Hat)).
  pose proof (all_blocked _ _ Hi) as Hbi.
  pose proof (λ Hd, st_blocked_depart _ _ _ _ Hi Hd Hip) as Hdep.
  unfold blocked in Hbi. rewrite Hni in Hbi.
  destruct wp as [pcp cp], wi as [pci ci].
  cbn [tree_at tree_completed] in *. subst pcp.
  assert (progress arrived (mk_tree_worker pci ci) = cp ∧
          progress (signalled idx) (mk_tree_worker (at_child_spin k) cp)
          = cp) as [Harr Hsig].
  { pose proof (progress_bounds arrived (mk_tree_worker pci ci)) as Hba.
    pose proof (progress_bounds released (mk_tree_worker pci ci)) as Hbr.
    cbn [tree_completed] in Hba, Hbr.
    remember (progress arrived (mk_tree_worker pci ci)) as a eqn:Hdefa.
    remember (progress released (mk_tree_worker pci ci)) as r eqn:Hdefr.
    unfold progress in Ha, Hr, Hord |- *. simpl in Ha, Hr, Hord |- *.
    rewrite bool_decide_false in Ha by lia.
    split; [|lia].
    destruct (decide (a = cp)) as [|Hne]; [done|].
    destruct Hb. f_equal.
    replace a with (cp + 1)%nat by lia. apply odd_next. }
  destruct pci; try done.
  - apply bool_decide_eq_true in Hbi. unfold progress in Harr.
    simpl in Harr. lia.
  - by exists k0.
  - destruct (Hdep eq_refl) as (pw & idx' & Hpw & Hsg & _).
    rewrite Hp in Hpw. injection Hpw as <-.
    unfold progress in Harr, Hsg. simpl in Harr, Hsg. lia.
Qed.

Lemma st_stuck_deep fuel :
  (∃ p wp k, workers st !! p = Some wp ∧ tree_at wp = at_child_spin k) →
  ∃ p wp k,
    workers st !! p = Some wp ∧ tree_at wp = at_child_spin k ∧
    reaches_root W fuel p = false.
Proof using W_departure W_slots st_sync st_live all_blocked.
  induction fuel as [|fuel IH]; intros Hex.
  - destruct Hex as (p & wp & k & Hp & Hat). by exists p, wp, k.
  - destruct (IH Hex) as (p & wp & k & Hp & Hat & Hr).
    destruct (st_stuck_child _ _ _ Hp Hat) as (i & wi & k' & Hip & Hi & Hati).
    exists i, wi, k'. split_and!; [done..|]. simpl. by rewrite Hip.
Qed.

(** Above a blocked thread in the departure loop there is a blocked
    thread that waits for a child. *)
Lemma st_stuck_above fuel :
  ∀ i w,
    reaches_root W fuel i = true →
    workers st !! i = Some w → tree_at w = at_depart_spin →
    ∃ p wp k, workers st !! p = Some wp ∧ tree_at wp = at_child_spin k.
Proof using W_departure st_sync st_live all_blocked.
  induction fuel as [|fuel IH]; intros i w Hr Hi Hat; [done|].
  pose proof (li_position _ _ _ _ st_live _ _ Hi) as Hpos.
  rewrite Hat in Hpos. destruct Hpos as [[p k] Hip].
  simpl in Hr. rewrite Hip in Hr.
  destruct (st_blocked_depart _ _ _ _ Hi Hat Hip)
    as (pw & idx & Hpw & Hsg & _).
  destruct (li_bound _ _ _ _ st_live _ _ Hi) as [_ Hlt].
  specialize (Hlt ltac:(by rewrite Hat)).
  pose proof (all_blocked _ _ Hpw) as Hb.
  destruct (st_sync_inv_node _ _ Hpw) as (pn & Hpn & _).
  unfold blocked in Hb. rewrite Hpn in Hb.
  destruct (tree_at pw) eqn:Hatp; try done.
  - apply bool_decide_eq_true in Hb. unfold progress in Hsg.
    rewrite Hatp in Hsg. simpl in Hsg. lia.
  - by exists p, pw, k0.
  - by eapply IH.
Qed.

(** The threads cannot all be blocked while one of them is still in the
    loop. *)
Lemma st_not_all_blocked i w :
  workers st !! i = Some w → tree_in_loop num_episodes w → False.
Proof using W_arrival W_departure W_slots st_sync st_live all_blocked.
  intros Hi Hloop.
  assert (∃ p wp k, workers st !! p = Some wp ∧ tree_at wp = at_child_spin k)
    as Hex.
  { pose proof (all_blocked _ _ Hi) as Hb.
    destruct (st_sync_inv_node _ _ Hi) as (n & Hn & _).
    unfold blocked in Hb. rewrite Hn in Hb.
    destruct (tree_at w) eqn:Hat; try done.
    - apply bool_decide_eq_true in Hb. by destruct Hloop.
    - by exists i, w, k.
    - eapply st_stuck_above; [|done..].
      by eapply (aw_reach _ W_arrival), st_sync_inv_index. }
  destruct (st_stuck_deep (length W) Hex) as (p & wp & k & Hp & _ & Hr).
  rewrite (aw_reach _ W_arrival p) in Hr; [done|].
  by eapply st_sync_inv_index.
Qed.

End StStuck.

(** While a thread is in the loop, some thread is not blocked. *)
Lemma st_some_thread_free num_episodes W F st i w :
  arrival_wired W → departure_wired W → slots_wired W F →
  sync_inv W st → live_inv W F num_episodes st →
  workers st !! i = Some w → tree_in_loop num_episodes w →
  ∃ j wj,
    workers st !! j = Some wj ∧
    blocked num_episodes (nodes st) j wj = false.
Proof.
  intros HW HD HF Hsync Hlive Hi Hloop.
  destruct (indexed_test (blocked num_episodes (nodes st)) (workers st))
    as [Hall|(j & wj & Hj & Hnb)].
  - destruct (st_not_all_blocked num_episodes W F HW HD HF st Hsync Hlive
                Hall _ _ Hi Hloop).
  - by exists j, wj.
Qed.

(** On nodes that pass the tests, the threads never get stuck. *)
Lemma st_ready_never_stuck num_episodes ns sched tr st :
  ready_to_run ns = true →
  exec (step num_episodes) sched (initial ns) = Some (tr, st) →
  (∀ j wj,
     workers st !! j = Some wj →
     blocked num_episodes (nodes st) j wj = false →
     ∃ e st', step num_episodes j st = Some (e, st') ∧ st' ≠ st) ∧
  (∀ i w,
     workers st !! i = Some w → tree_in_loop num_episodes w →
     ∃ j wj e st',
       workers st !! j = Some wj ∧
       blocked num_episodes (nodes st) j wj = false ∧
       step num_episodes j st = Some (e, st') ∧ st' ≠ st).
Proof.
  unfold ready_to_run. rewrite andb_true_iff.
  intros [(Haw & Hdw & Hinit)%ready_sync_inv Hslots%slots_wired_check_sound]
    Hexec.
  destruct (exec_invariant (step num_episodes)
              (λ s, sync_inv (wiring_of ns) s ∧
                    live_inv (wiring_of ns) (flag_counts ns) num_episodes s)
              ) with (sched := sched) (s := initial ns) (tr := tr) (s' := st)
    as [Hsync Hlive]; [|split; [done|apply st_live_inv_initial]|done|].
  { intros x s e s1 [Hs Hl] Hstep.
    split; [by eapply step_sync_inv|by eapply st_step_live_inv]. }
  assert (∀ j wj,
            workers st !! j = Some wj →
            blocked num_episodes (nodes st) j wj = false →
            ∃ e st', step num_episodes j st = Some (e, st') ∧ st' ≠ st)
    as Hmoves by (intros j wj; by eapply st_worker_moves).
  split; [done|]. intros i w Hi Hloop.
  destruct (st_some_thread_free _ _ _ _ _ _ Haw Hdw Hslots Hsync Hlive
              Hi Hloop) as (j & wj & Hj & Hnb).
  destruct (Hmoves _ _ Hj Hnb) as (e & st' & Hstep & Hne).
  by exists j, wj, e, st'.
Qed.

(** X11: the static tree barrier never gets stuck on the trees of the
    benchmark.  On the nodes either layout function returns for 1 to 8
    threads, in every state the threads can reach from the start of the
    experiment: every thread that is not blocked has a next step, and
    the step changes the state, where a thread is blocked when it has
    left the loop of [thread_job] or is in one of the two spin loops and
    the flag does not hold the value it waits for; so a thread that
    stores into its parent's slot has a parent, the flag a thread reads
    is one its node has, and the departure child a thread signals
    exists.  And as long as one thread is still in the loop of
    [thread_job], some thread is not blocked. *)
Theorem static_tree_never_stuck n ns num_episodes sched tr st :
  (1 ≤ n ≤ 8)%nat →
  static_tree_layout_good_locality n = Some ns ∨
  static_tree_layout_bad_locality n = Some ns →
  exec (step num_episodes) sched (initial ns) = Some (tr, st) →
  (∀ j wj,
     workers st !! j = Some wj →
     blocked num_episodes (nodes st) j wj = false →
     ∃ e st', step num_episodes j st = Some (e, st') ∧ st' ≠ st) ∧
  (∀ i w,
     workers st !! i = Some w → tree_in_loop num_episodes w →
     ∃ j wj e st',
       workers st !! j = Some wj ∧
       blocked num_episodes (nodes st) j wj = false ∧
       step num_episodes j st = Some (e, st') ∧ st' ≠ st).
Proof.
  intros Hn Hns. apply st_ready_never_stuck.
  destruct n as [|[|[|[|[|[|[|[|[|n]]]]]]]]]; try lia;
    destruct Hns as [[= <-]|[= <-]]; vm_compute; reflexivity.
Qed.

(** On the good-locality tree for two: the root waits for its child,
    which has not stored into its slot yet; the root is blocked, the
    child is not and has its step. *)
Lemma static_tree_never_stuck_witness :
  ∃ ns tr st,
    static_tree_layout_good_locality 2 = Some ns ∧
    exec (step 1) [0; 1]%nat (initial ns) = Some (tr, st) ∧
    workers st !! 0%nat = Some (mk_tree_worker (at_child_spin 0) 0) ∧
    blocked 1 (nodes st) 0 (mk_tree_worker (at_child_spin 0) 0) = true ∧
    workers st !! 1%nat = Some (mk_tree_worker at_arrive 0) ∧
    blocked 1 (nodes st) 1 (mk_tree_worker at_arrive 0) = false ∧
    ∃ e st', step 1 1 st = Some (e, st') ∧ st' ≠ st.
Proof.
  eexists _, _, _.
  split; [reflexivity|]. split; [vm_compute; reflexivity|].
  split; [vm_compute; reflexivity|]. split; [vm_compute; reflexivity|].
  split; [vm_compute; reflexivity|]. split; [vm_compute; reflexivity|].
  refine (proj1 (static_tree_never_stuck 2 _ 1 [0; 1]%nat _ _ _ _ _)
            1%nat (mk_tree_worker at_arrive 0) _ _);
    [lia|left; reflexivity|vm_compute; reflexivity..].
Defined.

End StaticTreeFacts.

(** ** The static tree barrier with a global departure flag *)

Module GlobalDepartureFacts.
Import GlobalDeparture.


Lemma gd_remaining_enter_children i n k :
  remaining i n (enter_children n k)
  = await_children i (length (arrival_children_flag n)) k
    ++ match arrival_parent n with
       | Some (p, k) =>
           [publish (arrival_flag p k); spin_on global_sense;
            sync_on global_sense; flip_sense]
       | None => [publish global_sense; flip_sense]
       end.
Proof.
  unfold enter_children. case_decide; [done|].
  rewrite await_children_done by lia. unfold after_children.
  destruct (arrival_parent n) as [[p k']|] eqn:Hp; simpl; by rewrite ?Hp.
Qed.


Lemma gd_enter_children_inside n k : enter_children n k ≠ tree_outside.
Proof.
  unfold enter_children, after_children. case_decide; [done|].
  by destruct (arrival_parent n).
Qed.

Lemma gd_insert_node_cases (ns : list node) x nx' i n :
  ns !! i = Some n → (x < length ns)%nat →
  ∃ n', <[x := nx']> ns !! i = Some n' ∧
        (i = x ∧ n' = nx' ∨ i ≠ x ∧ n' = n).
Proof.
  intros Hi Hx. destruct (decide (i = x)) as [->|Hne].
  - exists nx'. rewrite list_lookup_insert_eq by done. auto.
  - exists n. rewrite list_lookup_insert_ne by done. auto.
Qed.

Section AwaitFacts.
Variable num_episodes : nat.

Lemma gd_step_inv i s e s' :
  step num_episodes i s = Some (e, s') →
  ∃ w g ns' w',
    workers s !! i = Some w ∧
    worker_step num_episodes i (sense s) (nodes s) w = Some (e, g, ns', w') ∧
    s' = mk_state g ns' (<[i := w']> (workers s)).
Proof.
  unfold step. intros H.
  destruct (workers s !! i) as [w|] eqn:Hw; simpl in H; [|done].
  destruct (worker_step num_episodes i (sense s) (nodes s) w)
    as [[[[e0 g] ns'] w']|] eqn:Hs; simpl in H; [|done].
  injection H as <- <-. by exists w, g, ns', w'.
Qed.

(** A step changes at most one node: a flag of a node, or, when it is the
    flip, the local sense of the thread's own node. *)
Lemma gd_worker_step_nodes j g ns w e g' ns' w' :
  worker_step num_episodes j g ns w = Some (e, g', ns', w') →
  tree_at w ≠ at_tree_flip ∧
  (ns' = ns ∨
   ∃ x nx nx',
     ns !! x = Some nx ∧ ns' = <[x := nx']> ns ∧ same_frame nx nx' ∧
     local_sense nx' = local_sense nx) ∨
  tree_at w = at_tree_flip ∧
  ∃ nj, ns !! j = Some nj ∧
        ns' = <[j := set_local_sense (negb (local_sense nj)) nj]> ns.
Proof.
  unfold worker_step. intros H.
  destruct (ns !! j) as [nj|] eqn:Hj; simpl in H; [|done].
  destruct (tree_at w) eqn:Hat; simplify_option_eq;
    try (left; split; [done|]; by left).
  - destruct select (nat * nat)%type as [p k]. simplify_option_eq.
    left. split; [done|]. right. eexists _, _, _. split_and!; [done..| |done].
    split_and!; simpl; [done|]. by rewrite length_insert.
  - right. split; [done|]. by eexists.
Qed.

Lemma gd_worker_step_frame j g ns w e g' ns' w' :
  worker_step num_episodes j g ns w = Some (e, g', ns', w') →
  ∀ i n, ns !! i = Some n →
    ∃ n', ns' !! i = Some n' ∧ same_frame n n' ∧
          local_sense n'
          = if decide (i = j ∧ tree_at w = at_tree_flip)
            then negb (local_sense n) else local_sense n.
Proof.
  intros [[Hat [->|(x & nx & nx' & Hx & -> & Hf & Hls)]]
         |[Hat (nj & Hj & ->)]]%gd_worker_step_nodes i n Hi.
  - exists n. rewrite decide_False by tauto. done.
  - rewrite decide_False by tauto.
    destruct (gd_insert_node_cases ns x nx' i n Hi)
      as (n' & Hn' & [[-> ->]|[? ->]]); [by eapply lookup_lt_Some|..].
    + exists nx'. by simplify_eq.
    + by exists n.
  - destruct (gd_insert_node_cases ns j
                (set_local_sense (negb (local_sense nj)) nj) i n Hi)
      as (n' & Hn' & [[-> ->]|[? ->]]); [by eapply lookup_lt_Some|..].
    + eexists. simplify_eq. rewrite decide_True by done. done.
    + exists n. rewrite decide_False by tauto. done.
Qed.

Local Ltac gd_flip_iff :=
  split;
  [simpl; try case_decide; intros E;
   first [done|by destruct (gd_enter_children_inside _ _ E)]
  |done].

Lemma gd_worker_step_performs i g ns w e g' ns' w' n evs :
  worker_step num_episodes i g ns w = Some (e, g', ns', w') →
  ns !! i = Some n →
  tree_step_spec (local_sense n) (remaining i n) w e w' evs.
Proof.
  unfold worker_step, tree_step_spec. intros H Hn. rewrite Hn in H.
  simpl in H. destruct w as [p c]. simpl in H.
  assert (∀ q, q ≠ tree_outside →
            tree_stamp (mk_tree_worker q c) = (2 * c + 1)%nat ∧
            tree_next_outside (mk_tree_worker q c) = (2 * c + 2)%nat) as Hin.
  { intros q Hq. unfold tree_stamp, tree_next_outside. by destruct q. }
  pose proof (λ k, Hin _ (gd_enter_children_inside n k)) as Hec.
  destruct p; simpl in H.
  - case_decide; [|done]. injection H as <- <- <- <-.
    destruct (Hec 0%nat) as [-> _]. unfold tree_stamp. simpl.
    split_and!; [lia|intros; lia|done].
  - destruct (arrival_children_flag n !! k) as [f|] eqn:Hf; simpl in H;
      [|done]. injection H as <- <- <- <-.
    assert (k < length (arrival_children_flag n))%nat
      by by eapply lookup_lt_Some.
    split_and!; [by case_decide|done|intros _].
    split_and!; [by case_decide|gd_flip_iff|].
    case_decide as Hfl; cbn [remaining tree_at];
      rewrite (await_children_next _ _ k) by done.
    + subst f. apply performs_spin_hit.
    + replace f with (negb (local_sense n))
        by (by destruct f, (local_sense n)).
      apply performs_spin_miss.
  - destruct (arrival_children_flag n !! k) as [f|] eqn:Hf; simpl in H;
      [|done]. injection H as <- <- <- <-.
    destruct (Hec (S k)) as [Hs Hn']. rewrite Hs, Hn'.
    split_and!; [done..|intros _]. split_and!; [done|gd_flip_iff|].
    cbn [tree_at]. rewrite gd_remaining_enter_children. intros Hp.
    by eexists _, _.
  - destruct (arrival_parent n) as [[p k]|] eqn:Hp; simpl in H; [|done].
    destruct (ns !! p) as [pn|]; simpl in H; [|done].
    destruct (arrival_children_flag pn !! k); simpl in H; [|done].
    injection H as <- <- <- <-.
    split_and!; [done..|intros _]. split_and!; [done|gd_flip_iff|].
    cbn [remaining tree_at]. rewrite Hp. intros Hp'. by eexists.
  - injection H as <- <- <- <-.
    split_and!; [by case_decide|done|intros _].
    split_and!; [by case_decide|gd_flip_iff|].
    case_decide as Hfl; cbn [remaining tree_at].
    + rewrite Hfl. apply performs_spin_hit.
    + replace g with (negb (local_sense n))
        by (by destruct g, (local_sense n)).
      apply (performs_spin_miss _ _ [sync_on global_sense; flip_sense]).
  - injection H as <- <- <- <-.
    split_and!; [done..|intros _]. split_and!; [done|gd_flip_iff|].
    cbn [tree_at remaining]. intros Hp. by eexists _, _.
  - done.
  - injection H as <- <- <- <-.
    split_and!; [done..|intros _]. split_and!; [done|gd_flip_iff|].
    cbn [tree_at remaining]. intros Hp. by eexists.
  - injection H as <- <- <- <-. unfold tree_stamp, tree_next_outside. simpl.
    split_and!; [lia|done|intros _]. split_and!; [lia|gd_flip_iff|].
    intros ->. by eexists.
Qed.

Lemma gd_step_sound j s e s' :
  step num_episodes j s = Some (e, s') →
  ∃ w w',
    workers s !! j = Some w ∧ workers s' = <[j := w']> (workers s) ∧
    (∀ i n, nodes s !! i = Some n →
       ∃ n', nodes s' !! i = Some n' ∧ same_frame n n' ∧
             local_sense n'
             = if decide (i = j ∧ tree_at w = at_tree_flip)
               then negb (local_sense n) else local_sense n) ∧
    (∀ n evs, nodes s !! j = Some n →
       tree_step_spec (local_sense n) (remaining j n) w e w' evs).
Proof.
  intros (w & g & ns' & w' & Hw & Hws & ->)%gd_step_inv. exists w, w'.
  split_and!; [done..| |]; simpl.
  - eauto using gd_worker_step_frame.
  - intros n evs Hn. by eapply gd_worker_step_performs.
Qed.


End AwaitFacts.

Lemma gd_step_length num_episodes j s e s' :
  step num_episodes j s = Some (e, s') →
  length (nodes s') = length (nodes s).
Proof.
  intros (w & g & ns' & w' & _ & Hws & ->)%gd_step_inv. simpl.
  destruct (gd_worker_step_nodes _ _ _ _ _ _ _ _ _ Hws)
    as [[_ [->|(? & ? & ? & _ & -> & _)]]|[_ (? & _ & ->)]];
    by rewrite ?length_insert.
Qed.

Lemma gd_exec_parity num_episodes sched s tr s' :
  tree_parity nodes workers local_sense s →
  exec (step num_episodes) sched s = Some (tr, s') →
  tree_parity nodes workers local_sense s'.
Proof.
  apply (tree_exec_parity nodes workers local_sense same_frame remaining).
  - apply gd_step_sound.
  - apply gd_step_length.
Qed.

Lemma gd_initial_parity ns :
  Forall (λ n, local_sense n = false) ns →
  tree_parity nodes workers local_sense (initial ns).
Proof.
  intros Hall i w n [-> _]%lookup_replicate Hn. simpl in *.
  by eapply Forall_lookup_1 in Hall.
Qed.



(** *** Synchronisation *)

Lemma gd_wiring_of_lookup ns i n :
  ns !! i = Some n → parent_of (wiring_of ns) i = arrival_parent n.
Proof.
  intros Hi. unfold parent_of, wiring_of.
  by rewrite list_lookup_fmap, Hi.
Qed.

Lemma gd_wiring_of_insert ns x nx nx' :
  ns !! x = Some nx → same_frame nx nx' →
  wiring_of (<[x := nx']> ns) = wiring_of ns.
Proof.
  intros Hx (Hp & _). unfold wiring_of.
  rewrite list_fmap_insert. apply list_insert_id.
  by rewrite list_lookup_fmap, Hx, Hp.
Qed.

Lemma gd_read_insert_local_sense g ns x nx b c :
  ns !! x = Some nx →
  read g (<[x := set_local_sense b nx]> ns) c = read g ns c.
Proof.
  intros Hx. assert (x < length ns)%nat by by eapply lookup_lt_Some.
  destruct c as [p k|i|]; simpl; [|done..].
  destruct (decide (p = x)) as [->|Hne].
  - by rewrite list_lookup_insert_eq, Hx.
  - by rewrite list_lookup_insert_ne.
Qed.

Lemma gd_read_insert_flag g ns p pn k b c :
  ns !! p = Some pn → (k < length (arrival_children_flag pn))%nat →
  read g (<[p := set_flag k b pn]> ns) c
  = if decide (c = arrival_flag p k) then Some b else read g ns c.
Proof.
  intros Hp Hk. assert (p < length ns)%nat by by eapply lookup_lt_Some.
  destruct c as [p' k'|i|]; simpl; [|done..].
  destruct (decide (p' = p)) as [->|Hne].
  - rewrite list_lookup_insert_eq, Hp by done. simpl.
    destruct (decide (k' = k)) as [->|Hnk].
    + rewrite decide_True by done. by apply list_lookup_insert_eq.
    + rewrite decide_False by congruence. by apply list_lookup_insert_ne.
  - rewrite decide_False by congruence. by rewrite list_lookup_insert_ne.
Qed.

(** Where the head of the loop leads. *)
Lemma gd_passed_slot_enter_children n k k0 :
  (k < length (arrival_children_flag n))%nat →
  passed_slot k (enter_children n k0) = bool_decide (k < k0)%nat.
Proof.
  intros Hk. unfold enter_children, after_children. case_decide; [done|].
  destruct (arrival_parent n); simpl; symmetry;
    apply bool_decide_eq_true; lia.
Qed.

Lemma gd_child_enter_children n k0 :
  is_Some (arrival_parent n) →
  arrived (enter_children n k0) = false ∧
  released (enter_children n k0) = false.
Proof.
  intros [s Hs]. unfold enter_children, after_children. rewrite Hs.
  by case_decide.
Qed.

Lemma gd_signalled_enter_children n k0 :
  signalled 0 (enter_children n k0) = false.
Proof.
  unfold enter_children, after_children. case_decide; [done|].
  by destruct (arrival_parent n).
Qed.

Lemma gd_signal_all_enter_children n k0 :
  enter_children n k0 = at_signal_all → arrival_parent n = None.
Proof.
  unfold enter_children, after_children. case_decide; [done|].
  by destruct (arrival_parent n).
Qed.

Section GdSyncFacts.
Variable num_episodes : nat.

Lemma gd_worker_step_wiring j g ns w e g' ns' w' :
  worker_step num_episodes j g ns w = Some (e, g', ns', w') →
  wiring_of ns' = wiring_of ns.
Proof.
  intros [[_ [->|(x & nx & nx' & Hx & -> & Hf & _)]]
         |[_ (nj & Hj & ->)]]%gd_worker_step_nodes; [done|..].
  - by eapply gd_wiring_of_insert.
  - by eapply gd_wiring_of_insert.
Qed.

(** The statement a thread executes at each position: the next position
    and the cells afterwards. *)
Lemma gd_worker_step_effect j g ns w e g' ns' w' n :
  worker_step num_episodes j g ns w = Some (e, g', ns', w') →
  ns !! j = Some n →
  let ls := local_sense n in
  let c := tree_completed w in
  match tree_at w with
  | tree_outside =>
      w' = mk_tree_worker (enter_children n 0) c ∧
      ∀ x, read g' ns' x = read g ns x
  | at_child_spin k =>
      ∃ f, read g ns (arrival_flag j k) = Some f ∧
        w' = mk_tree_worker
               (if decide (f = ls) then at_child_sync k else at_child_spin k)
               c ∧
        ∀ x, read g' ns' x = read g ns x
  | at_child_sync k =>
      (k < length (arrival_children_flag n))%nat ∧
      w' = mk_tree_worker (enter_children n (S k)) c ∧
      ∀ x, read g' ns' x = read g ns x
  | at_arrive =>
      ∃ p k, arrival_parent n = Some (p, k) ∧
        w' = mk_tree_worker at_depart_spin c ∧
        ∀ x, read g' ns' x
             = if decide (x = arrival_flag p k) then Some ls
               else read g ns x
  | at_depart_spin =>
      w' = mk_tree_worker
             (if decide (g = ls) then at_depart_sync else at_depart_spin) c ∧
      ∀ x, read g' ns' x = read g ns x
  | at_depart_sync =>
      w' = mk_tree_worker at_tree_flip c ∧
      ∀ x, read g' ns' x = read g ns x
  | at_signal_child _ => False
  | at_signal_all =>
      w' = mk_tree_worker at_tree_flip c ∧
      ∀ x, read g' ns' x
           = if decide (x = global_sense) then Some ls else read g ns x
  | at_tree_flip =>
      w' = mk_tree_worker tree_outside (S c) ∧
      ∀ x, read g' ns' x = read g ns x
  end.
Proof.
  unfold worker_step. intros H Hn. rewrite Hn in H. simpl in H.
  destruct (tree_at w) eqn:Hat; simpl in H.
  - case_decide; [|done]. by injection H as <- <- <- <-.
  - destruct (arrival_children_flag n !! k) as [f|] eqn:Hf; simpl in H;
      [|done]. injection H as <- <- <- <-. exists f.
    split; [simpl; by rewrite Hn|done].
  - destruct (arrival_children_flag n !! k) as [f|] eqn:Hf; simpl in H;
      [|done]. injection H as <- <- <- <-.
    split; [by eapply lookup_lt_Some|done].
  - destruct (arrival_parent n) as [[p k]|] eqn:Hp; simpl in H; [|done].
    destruct (ns !! p) as [pn|] eqn:Hpn; simpl in H; [|done].
    destruct (arrival_children_flag pn !! k) eqn:Hk; simpl in H; [|done].
    injection H as <- <- <- <-. exists p, k. split_and!; [done..|].
    intros x. apply gd_read_insert_flag; [done|by eapply lookup_lt_Some].
  - by injection H as <- <- <- <-.
  - by injection H as <- <- <- <-.
  - done.
  - injection H as <- <- <- <-. split; [done|].
    intros x. by destruct x.
  - injection H as <- <- <- <-. split; [done|].
    intros x. by apply gd_read_insert_local_sense.
Qed.

End GdSyncFacts.
Lemma gd_position_enter_children n k0 q :
  arrival_parent n = q →
  match enter_children n k0 with
  | at_signal_all => q = None
  | at_depart_spin | at_depart_sync => is_Some q
  | _ => True
  end.
Proof.
  intros <-. unfold enter_children, after_children. case_decide; [done|].
  by destruct (arrival_parent n).
Qed.

Lemma reaches_root_lt W fuel i :
  reaches_root W fuel i = true → (0 < length W)%nat → (i < length W)%nat.
Proof.
  destruct fuel as [|fuel]; [done|]. simpl.
  destruct (parent_of W i) as [[p k]|] eqn:Hp.
  - intros _ _. by eapply parent_of_lt.
  - by intros ->%bool_decide_eq_true.
Qed.

Section GdSyncChain.
Variable W : wiring_table.
Hypothesis W_arrival : arrival_wired W.
Variable st : state.
Hypothesis st_sync : sync_inv W st.

Lemma gd_sync_inv_worker i : (i < length W)%nat → is_Some (workers st !! i).
Proof using st_sync.
  intros Hi. apply lookup_lt_is_Some. rewrite (si_workers _ _ st_sync).
  rewrite <- (si_wiring _ _ st_sync) in Hi. unfold wiring_of in Hi.
  by rewrite length_fmap in Hi.
Qed.

Lemma gd_sync_inv_index i w : workers st !! i = Some w → (i < length W)%nat.
Proof using st_sync.
  intros Hi%lookup_lt_Some. rewrite (si_workers _ _ st_sync) in Hi.
  rewrite <- (si_wiring _ _ st_sync). unfold wiring_of.
  by rewrite length_fmap.
Qed.

(** Down the tree: the root has seen all its children arrive only in
    calls in which every thread has seen its own children arrive, and
    has arrived at its parent. *)
Lemma gd_gathered_before_root fuel :
  ∀ i w,
    reaches_root W fuel i = true → workers st !! i = Some w →
    ∃ w0,
      parent_of W 0%nat = None ∧ workers st !! 0%nat = Some w0 ∧
      (progress gathered w0 ≤ progress gathered w)%nat ∧
      (is_Some (parent_of W i) →
       progress gathered w0 ≤ progress arrived w)%nat.
Proof using st_sync.
  induction fuel as [|fuel IH]; intros i w Hr Hi; [done|].
  pose proof (gd_sync_inv_index _ _ Hi) as Hlt.
  simpl in Hr. destruct (parent_of W i) as [[p k]|] eqn:Hp.
  - destruct (gd_sync_inv_worker p) as [pw Hpw].
    { eapply reaches_root_lt; [done|lia]. }
    destruct (si_arrival _ _ st_sync _ _ _ _ _ Hp Hi Hpw) as [Ha _].
    destruct (IH _ _ Hr Hpw) as (w0 & Hroot & H0 & Hg & _).
    exists w0. split_and!; [done..| |].
    + pose proof (gathered_passed k pw). pose proof (arrived_gathered w).
      lia.
    + intros _. pose proof (gathered_passed k pw). lia.
  - apply bool_decide_eq_true in Hr as ->.
    exists w. split_and!; [done..|]. by intros [? ?].
Qed.

(** The root has stored into the sense of the barrier only in calls in
    which thread [i] has seen its children arrive, and has arrived at its
    parent; and thread [i] has left the departure loop only in calls in
    which the root has stored. *)
Lemma gd_sync_inv_root i w :
  workers st !! i = Some w →
  ∃ w0,
    workers st !! 0%nat = Some w0 ∧
    sense st = negb (Nat.odd (progress (signalled 0) w0)) ∧
    (progress (signalled 0) w0 ≤ progress gathered w)%nat ∧
    (is_Some (parent_of W i) →
     progress (signalled 0) w0 ≤ progress arrived w ∧
     progress released w ≤ progress (signalled 0) w0)%nat.
Proof using W_arrival st_sync.
  intros Hi. pose proof (gd_sync_inv_index _ _ Hi) as Hlt.
  destruct (gd_gathered_before_root _ _ _ (aw_reach _ W_arrival _ Hlt) Hi)
    as (w0 & Hroot & H0 & Hg & Ha).
  destruct (si_departure _ _ st_sync _ _ Hroot H0) as [Hs Hrel].
  assert (progress (signalled 0) w0 ≤ progress gathered w0)%nat as Hord.
  { etrans; [apply signalled_released|].
    etrans; [apply released_arrived|apply arrived_gathered]. }
  exists w0. split_and!; [done..|lia|].
  intros Hp. specialize (Ha Hp). specialize (Hrel _ _ Hp Hi). lia.
Qed.

(** Two threads are one call apart at most, and the thread behind is
    past its arrival. *)
Lemma gd_sync_inv_synchronises i j wi wj :
  workers st !! i = Some wi → workers st !! j = Some wj →
  (tree_completed wj < tree_completed wi)%nat →
  tree_completed wi = S (tree_completed wj) ∧
  gathered (tree_at wj) = true ∧
  (j ≠ 0%nat → arrived (tree_at wj) = true).
Proof using W_arrival st_sync.
  intros Hi Hj Hlt.
  destruct (gd_sync_inv_root _ _ Hi) as (w0 & H0 & _ & _ & Hup).
  destruct (gd_sync_inv_root _ _ Hj) as (w0' & H0' & _ & Hdown & Harrived).
  rewrite H0 in H0'. injection H0' as <-.
  pose proof (progress_bounds released wi).
  pose proof (progress_bounds gathered wj).
  pose proof (progress_bounds arrived wj).
  pose proof (progress_bounds (signalled 0) w0).
  assert (tree_completed wi ≤ progress (signalled 0) w0)%nat as Hle.
  { destruct (parent_of W i) as [s|] eqn:Hp.
    - destruct (Hup (mk_is_Some _ _ eq_refl)). lia.
    - rewrite (aw_root _ W_arrival _ (gd_sync_inv_index _ _ Hi) Hp) in Hi.
      rewrite Hi in H0. injection H0 as <-. lia. }
  assert (progress gathered wj = S (tree_completed wj)) as Hg by lia.
  split_and!; [lia| |].
  - unfold progress in Hg. destruct (gathered (tree_at wj)); [done|lia].
  - intros Hne. destruct (parent_of W j) as [s|] eqn:Hp.
    + destruct (Harrived (mk_is_Some _ _ eq_refl)) as [Ha _].
      assert (progress arrived wj = S (tree_completed wj)) as Ha' by lia.
      unfold progress in Ha'. destruct (arrived (tree_at wj)); [done|lia].
    + by destruct (Hne (aw_root _ W_arrival _ (gd_sync_inv_index _ _ Hj) Hp)).
Qed.

End GdSyncChain.
Section GdSyncStep.
Variable num_episodes : nat.
Variable W : wiring_table.
Hypothesis W_arrival : arrival_wired W.

Local Ltac prog :=
  unfold progress in *; cbn [tree_at tree_completed] in *;
  cbn [passed_slot arrived released signalled gathered] in *;
  repeat (first [case_decide|case_bool_decide];
          cbn [tree_at tree_completed] in *;
          cbn [passed_slot arrived released signalled gathered] in *);
  try lia.

Lemma gd_step_sync_inv j st e st' :
  sync_inv W st → step num_episodes j st = Some (e, st') → sync_inv W st'.
Proof using W_arrival.
  intros Hinv Hstep.
  pose proof Hstep as (w & g' & ns' & w' & Hw & Hws & ->)%gd_step_inv.
  pose proof (gd_step_length _ _ _ _ _ Hstep) as Hlen'. simpl in Hlen'.
  assert (tree_parity nodes workers local_sense
            (mk_state g' ns' (<[j := w']> (workers st)))) as Hpar'.
  { eapply (tree_step_parity nodes workers local_sense same_frame remaining
              (step num_episodes));
      eauto using gd_step_sound, gd_step_length.
    by destruct Hinv. }
  pose proof (gd_sync_inv_root _ W_arrival _ Hinv _ _ Hw)
    as (w0 & H0 & Hs0 & Hg0 & Hrel0).
  pose proof (gd_sync_inv_index _ _ Hinv _ _ Hw) as Hjlt.
  pose proof (gd_sync_inv_root _ W_arrival _ Hinv) as Hroot.
  pose proof (gd_sync_inv_index _ _ Hinv) as Hindex.
  destruct Hinv as [HW Hlen Hpar Hpos Harr Hdep].
  assert (∃ n, nodes st !! j = Some n) as [n Hn].
  { apply lookup_lt_is_Some. rewrite <- Hlen. by eapply lookup_lt_Some. }
  pose proof (gd_worker_step_wiring _ _ _ _ _ _ _ _ _ Hws) as HW'.
  pose proof (gd_worker_step_effect _ _ _ _ _ _ _ _ _ _ Hws Hn) as Heff.
  pose proof (gd_wiring_of_lookup _ _ _ Hn) as Hpj. rewrite HW in Hpj.
  pose proof (Hpar _ _ _ Hw Hn) as Hls.
  pose proof (Hpos _ _ Hw) as Hposj.
  clear Hstep Hws Hpar.
  destruct w as [pc c]. cbn [tree_at tree_completed] in *.
  split; cbn [sense nodes workers].
  - by rewrite HW'.
  - by rewrite length_insert, Hlen'.
  - done.
  - intros i wi' Hi'.
    destruct (insert_worker_cases _ _ _ _ _ _ Hw Hi') as [[-> ->]|[Hij Hi]];
      [|by apply Hpos].
    destruct pc.
    + destruct Heff as [-> _]. by apply gd_position_enter_children.
    + destruct Heff as (f & _ & -> & _). simpl. by case_decide.
    + destruct Heff as (_ & -> & _). by apply gd_position_enter_children.
    + destruct Heff as (p' & k' & Hpk & -> & _). simpl.
      by rewrite Hpj, Hpk.
    + destruct Heff as [-> _]. simpl. by case_decide.
    + by destruct Heff as [-> _].
    + done.
    + by destruct Heff as [-> _].
    + by destruct Heff as [-> _].
  - intros i p k wi' wp' Hip Hi' Hp'.
    pose proof (aw_parent _ W_arrival _ _ _ Hip) as Hpi.
    destruct (insert_worker_cases _ _ _ _ _ _ Hw Hi') as [[-> ->]|[Hij Hi]];
      destruct (insert_worker_cases _ _ _ _ _ _ Hw Hp') as [[-> ->]|[Hpj' Hp]];
      [done|..].
    + (* the child steps *)
      destruct (Harr _ _ _ _ _ Hip Hw Hp) as [Ha Hb].
      rewrite Hip in Hpj.
      assert (∀ k0, arrived (enter_children n k0) = false) as Hec
        by (intros k0; apply gd_child_enter_children; by rewrite <- Hpj).
      destruct pc.
      * destruct Heff as [-> Hrd]. rewrite Hrd.
        unfold progress in *. cbn [tree_at tree_completed] in *.
        by rewrite Hec.
      * destruct Heff as (f & _ & -> & Hrd). rewrite Hrd.
        split; prog; done.
      * destruct Heff as (_ & -> & Hrd). rewrite Hrd.
        unfold progress in *. cbn [tree_at tree_completed] in *.
        by rewrite Hec.
      * destruct Heff as (p' & k' & Hpk & -> & Hrd). rewrite Hrd.
        rewrite Hpk in Hpj. injection Hpj as <- <-.
        rewrite decide_True by done. split; [prog|].
        unfold progress. cbn [tree_at tree_completed arrived].
        by rewrite odd_next, Hls.
      * destruct Heff as [-> Hrd]. rewrite Hrd.
        split; prog; done.
      * destruct Heff as [-> Hrd]. rewrite Hrd.
        split; prog; done.
      * done.
      * destruct Heff as [-> Hrd]. rewrite Hrd.
        rewrite decide_False by done. split; prog; done.
      * destruct Heff as [-> Hrd]. rewrite Hrd.
        unfold progress in *. cbn [tree_at tree_completed arrived] in *.
        replace (S c + 0)%nat with (c + 1)%nat by lia. done.
    + (* the parent steps *)
      destruct (Harr _ _ _ _ _ Hip Hi Hw) as [Ha Hb].
      assert (k < length (arrival_children_flag n))%nat as Hk.
      { unfold read in Hb. rewrite Hn in Hb. simpl in Hb.
        by eapply lookup_lt_Some. }
      destruct (Hroot _ _ Hi) as (w0' & H0' & _ & _ & Hreli).
      rewrite H0 in H0'. injection H0' as <-.
      destruct Hreli as [_ Hc]; [by rewrite Hip|].
      pose proof (progress_bounds arrived wi') as Hba.
      pose proof (progress_bounds released wi') as Hbr.
      clear Hrel0 Hs0 Hroot.
      destruct pc.
      * destruct Heff as [-> Hrd]. rewrite Hrd. split; [|done].
        unfold progress in *. cbn [tree_at tree_completed] in *.
        rewrite gd_passed_slot_enter_children by done. prog.
      * destruct Heff as (f & Hf & -> & Hrd). rewrite Hrd. split; [|done].
        destruct (decide (k = k0)) as [->|Hne]; [|prog].
        rewrite Hb in Hf. injection Hf as <-.
        case_decide as Hhit; [|prog].
        rewrite Hls in Hhit. apply parity_step in Hhit; prog.
      * destruct Heff as (_ & -> & Hrd). rewrite Hrd. split; [|done].
        unfold progress in *. cbn [tree_at tree_completed] in *.
        rewrite gd_passed_slot_enter_children by done. prog.
      * destruct Heff as (p' & k' & Hpk & -> & Hrd). rewrite Hrd.
        rewrite decide_False.
        { split; [prog|done]. }
        intros [= <- <-]. rewrite Hpk in Hpj.
        by destruct (aw_parent _ W_arrival _ _ _ Hpj).
      * destruct Heff as [-> Hrd]. rewrite Hrd. split; [prog|done].
      * destruct Heff as [-> Hrd]. rewrite Hrd. split; [prog|done].
      * done.
      * destruct Heff as [-> Hrd]. rewrite Hrd.
        rewrite decide_False by done. split; [prog|done].
      * destruct Heff as [-> Hrd]. rewrite Hrd. split; [prog|done].
    + (* another thread steps *)
      destruct (Harr _ _ _ _ _ Hip Hi Hp) as [Ha Hb]. split; [done|].
      destruct pc;
        try (destruct Heff as [_ Hrd]; by rewrite Hrd);
        try (destruct Heff as (? & _ & _ & Hrd); by rewrite Hrd);
        try (destruct Heff as (_ & _ & Hrd); by rewrite Hrd); try done.
      destruct Heff as (p' & k' & Hpk & _ & Hrd). rewrite Hrd.
      rewrite decide_False; [done|]. intros [= <- <-].
      rewrite Hpk in Hpj. by destruct (aw_slot _ W_arrival _ _ _ Hip Hpj).
  - intros r wr' Hr Hr'.
    assert (pc ≠ at_signal_all → g' = sense st) as Hsame.
    { intros Hne. destruct pc; try done.
      - destruct Heff as [_ Hrd]. specialize (Hrd global_sense).
        by injection Hrd.
      - destruct Heff as (f & _ & _ & Hrd). specialize (Hrd global_sense).
        by injection Hrd.
      - destruct Heff as (_ & _ & Hrd). specialize (Hrd global_sense).
        by injection Hrd.
      - destruct Heff as (p' & k' & _ & _ & Hrd).
        specialize (Hrd global_sense). by injection Hrd.
      - destruct Heff as [_ Hrd]. specialize (Hrd global_sense).
        by injection Hrd.
      - destruct Heff as [_ Hrd]. specialize (Hrd global_sense).
        by injection Hrd.
      - destruct Heff as [_ Hrd]. specialize (Hrd global_sense).
        by injection Hrd. }
    destruct (insert_worker_cases _ _ _ _ _ _ Hw Hr') as [[-> ->]|[Hrj Hr0]].
    + (* the root steps *)
      destruct (Hdep _ _ Hr Hw) as [Hs Hrel].
      rewrite Hr in Hpj, Hposj.
      assert (g' = negb (Nat.odd (progress (signalled 0) w')) ∧
              progress (signalled 0) (mk_tree_worker pc c)
              ≤ progress (signalled 0) w')%nat as [Hs' Hmono].
      { clear Hrel0 Hg0 Hs0 Hroot Hrel.
        destruct pc.
        - destruct Heff as [-> _]. rewrite Hsame, Hs by done.
          unfold progress. cbn [tree_at tree_completed signalled].
          by rewrite gd_signalled_enter_children.
        - destruct Heff as (f & _ & -> & _). rewrite Hsame, Hs by done.
          split; prog; done.
        - destruct Heff as (_ & -> & _). rewrite Hsame, Hs by done.
          unfold progress. cbn [tree_at tree_completed signalled].
          by rewrite gd_signalled_enter_children.
        - destruct Heff as (p' & k' & Hpk & _). congruence.
        - by destruct Hposj.
        - by destruct Hposj.
        - done.
        - destruct Heff as [-> Hrd]. specialize (Hrd global_sense).
          rewrite decide_True in Hrd by done. injection Hrd as ->.
          unfold progress. cbn [tree_at tree_completed signalled].
          split; [by rewrite odd_next, Hls|lia].
        - destruct Heff as [-> _]. rewrite Hsame, Hs by done.
          unfold progress. cbn [tree_at tree_completed signalled].
          replace (S c + 0)%nat with (c + 1)%nat by lia. done. }
      split; [done|]. intros i wi' Hsome Hi'.
      rewrite list_lookup_insert_ne in Hi'.
      { specialize (Hrel _ _ Hsome Hi'). lia. }
      intros <-. rewrite Hr in Hsome. by destruct Hsome.
    + (* another thread steps *)
      destruct (Hdep _ _ Hr Hr0) as [Hs Hrel].
      pose proof (aw_root _ W_arrival _ (Hindex _ _ Hr0) Hr) as ->.
      rewrite H0 in Hr0. injection Hr0 as ->.
      assert (pc ≠ at_signal_all) as Hpc.
      { intros ->. by destruct (Hrj (eq_sym (aw_root _ W_arrival _ Hjlt Hposj))). }
      split; [by rewrite Hsame|].
      intros i wi' Hsome Hi'.
      destruct (insert_worker_cases _ _ _ _ _ _ Hw Hi') as [[-> ->]|[Hij Hi]];
        [|by eapply Hrel].
      destruct Hrel0 as [Hup Hlow]; [done|].
      rewrite Hpj in Hsome.
      assert (∀ k0, released (enter_children n k0) = false) as Hec
        by (intros k0; by apply gd_child_enter_children).
      clear Hroot Hrel.
      destruct pc.
      * destruct Heff as [-> _].
        unfold progress in *. cbn [tree_at tree_completed] in *.
        by rewrite Hec.
      * destruct Heff as (f & _ & -> & _). prog.
      * destruct Heff as (_ & -> & _).
        unfold progress in *. cbn [tree_at tree_completed] in *.
        by rewrite Hec.
      * destruct Heff as (p' & k' & _ & -> & _). prog.
      * destruct Heff as [-> _].
        case_decide as Hhit; [|prog].
        rewrite Hs, Hls in Hhit. apply parity_step in Hhit; prog.
      * destruct Heff as [-> _]. prog.
      * done.
      * done.
      * destruct Heff as [-> _]. prog.
Qed.

End GdSyncStep.
(** Nodes that pass the test start in the relation. *)
Lemma gd_ready_sync_inv ns :
  ready ns = true →
  arrival_wired (wiring_of ns) ∧ sync_inv (wiring_of ns) (initial ns).
Proof.
  unfold ready. rewrite andb_true_iff, forallb_forall.
  intros [Haw Hall].
  split; [by apply arrival_wired_check_sound|].
  assert (∀ i n, ns !! i = Some n →
            local_sense n = false ∧
            ∀ p k, arrival_parent n = Some (p, k) →
              read true ns (arrival_flag p k) = Some true) as Hnode.
  { intros i n Hi.
    apply list_elem_of_lookup_2, list_elem_of_In, Hall in Hi.
    apply andb_true_iff in Hi as [Hl Hp].
    split; [by destruct (local_sense n)|].
    intros p k Hpk. rewrite Hpk in Hp. by apply bool_decide_eq_true in Hp. }
  split; simpl.
  - done.
  - by rewrite length_replicate.
  - apply gd_initial_parity. apply Forall_lookup. intros i n Hi.
    by destruct (Hnode _ _ Hi) as [? _].
  - by intros i w [-> _]%lookup_replicate.
  - intros i p k w pw Hip [-> _]%lookup_replicate [-> _]%lookup_replicate.
    split; [done|]. pose proof (parent_of_lt _ _ _ Hip) as Hlt.
    unfold wiring_of in Hlt. rewrite length_fmap in Hlt.
    apply lookup_lt_is_Some in Hlt as [n Hn].
    rewrite (gd_wiring_of_lookup _ _ _ Hn) in Hip.
    by apply (Hnode _ _ Hn).
  - intros r wr _ [-> _]%lookup_replicate. split; [done|].
    by intros i w _ [-> _]%lookup_replicate.
Qed.

(** On nodes that pass the test, every execution keeps the relation. *)
Lemma gd_ready_synchronises num_episodes ns sched tr st i j wi wj :
  ready ns = true →
  exec (step num_episodes) sched (initial ns) = Some (tr, st) →
  workers st !! i = Some wi → workers st !! j = Some wj →
  (tree_completed wj < tree_completed wi)%nat →
  tree_completed wi = S (tree_completed wj) ∧
  gathered (tree_at wj) = true ∧
  (j ≠ 0%nat → arrived (tree_at wj) = true).
Proof.
  intros (Haw & Hinit)%gd_ready_sync_inv Hexec.
  apply (gd_sync_inv_synchronises (wiring_of ns)); [done|].
  refine (exec_invariant (step num_episodes) (sync_inv (wiring_of ns))
            _ _ _ _ _ Hinit Hexec).
  intros x s e s1 Hs Hstep. by eapply gd_step_sync_inv.
Qed.

(** X6: the static tree barrier with a global departure flag
    synchronises on the trees of the benchmark.  On the nodes the layout
    function returns for 1 to 8 threads, in every state the threads can
    reach from the start of the experiment, two threads differ by at most
    one in the number of calls of [await] they have returned from, and
    when thread [i] is one call ahead of thread [j], thread [j] is inside
    [await], has read the awaited value in all its arrival flags and,
    unless it is the root, has stored into its parent's slot: no thread
    returns from its [k]-th call before every thread has arrived at its
    [k]-th call. *)
Theorem global_departure_barrier_synchronises n ns num_episodes sched tr st
    i j wi wj :
  (1 ≤ n ≤ 8)%nat →
  static_tree_global_departure_layout_good_locality n = Some ns →
  exec (step num_episodes) sched (initial ns) = Some (tr, st) →
  workers st !! i = Some wi → workers st !! j = Some wj →
  (tree_completed wj < tree_completed wi)%nat →
  tree_completed wi = S (tree_completed wj) ∧
  gathered (tree_at wj) = true ∧
  (j ≠ 0%nat → arrived (tree_at wj) = true).
Proof.
  intros Hn Hns. apply gd_ready_synchronises.
  destruct n as [|[|[|[|[|[|[|[|[|n]]]]]]]]]; try lia;
    injection Hns as <-; vm_compute; reflexivity.
Qed.

(** On the tree for two: the root has left its first call, its child is
    in the departure loop. *)
Lemma global_departure_barrier_synchronises_witness :
  ∃ ns tr st,
    static_tree_global_departure_layout_good_locality 2 = Some ns ∧
    exec (step 1) [0; 1; 1; 0; 0; 0; 0]%nat (initial ns) = Some (tr, st) ∧
    workers st !! 0%nat = Some (mk_tree_worker tree_outside 1) ∧
    workers st !! 1%nat = Some (mk_tree_worker at_depart_spin 0) ∧
    gathered at_depart_spin = true ∧
    (1 ≠ 0 → arrived at_depart_spin = true)%nat.
Proof.
  eexists _, _, _.
  split; [reflexivity|]. split; [vm_compute; reflexivity|].
  split; [vm_compute; reflexivity|]. split; [vm_compute; reflexivity|].
  refine (proj2 (global_departure_barrier_synchronises 2 _ 1
                   [0; 1; 1; 0; 0; 0; 0]%nat _ _ 0 1
                   (mk_tree_worker tree_outside 1)
                   (mk_tree_worker at_depart_spin 0) _ _ _ _ _ _));
    [lia|reflexivity|vm_compute; reflexivity..|simpl; lia].
Defined.

(** *** Progress *)

Lemma gd_live_inv_initial num_episodes ns :
  live_inv (wiring_of ns) (flag_counts ns) num_episodes (initial ns).
Proof.
  split; simpl.
  - done.
  - by intros i w [-> _]%lookup_replicate.
  - intros i w [-> _]%lookup_replicate. simpl. split; [lia|done].
Qed.

Lemma gd_position_enter_children' (W : wiring_table) (F : list nat) i n k0 :
  F !! i = Some (length (arrival_children_flag n)) →
  parent_of W i = arrival_parent n →
  match enter_children n k0 with
  | at_child_spin k | at_child_sync k => ∃ c, F !! i = Some c ∧ (k < c)%nat
  | at_arrive => is_Some (parent_of W i)
  | at_signal_child _ => False
  | _ => True
  end.
Proof.
  intros HF Hp. unfold enter_children, after_children.
  case_decide; [by eexists|]. rewrite Hp.
  by destruct (arrival_parent n).
Qed.

Section GdProgressFacts.
Variable num_episodes : nat.
Variable W : wiring_table.
Variable F : list nat.

Lemma gd_step_flag_counts j st e st' :
  step num_episodes j st = Some (e, st') →
  flag_counts (nodes st') = flag_counts (nodes st).
Proof.
  intros Hstep.
  pose proof (gd_step_length _ _ _ _ _ Hstep) as Hlen.
  destruct (gd_step_sound _ _ _ _ _ Hstep) as (w & w' & _ & _ & Hfr & _).
  unfold flag_counts. apply list_eq. intros i.
  rewrite !list_lookup_fmap.
  destruct (nodes st !! i) as [n|] eqn:Hn.
  - destruct (Hfr _ _ Hn) as (n' & -> & [_ Hl] & _). simpl. by rewrite Hl.
  - rewrite (lookup_ge_None_2 (nodes st')); [done|].
    rewrite Hlen. by apply lookup_ge_None_1.
Qed.

Lemma gd_worker_step_call j g ns w e g' ns' w' :
  worker_step num_episodes j g ns w = Some (e, g', ns', w') →
  tree_at w = tree_outside → (tree_completed w < num_episodes)%nat.
Proof.
  unfold worker_step. intros H Hp. rewrite Hp in H.
  destruct (ns !! j); simpl in H; [|done]. by case_decide.
Qed.

Lemma gd_step_live_inv j st e st' :
  sync_inv W st → live_inv W F num_episodes st →
  step num_episodes j st = Some (e, st') →
  live_inv W F num_episodes st'.
Proof.
  intros Hsync [Hcounts Hpos Hbound] Hstep.
  pose proof (gd_step_flag_counts _ _ _ _ Hstep) as Hfc.
  pose proof Hstep as (w & g' & ns' & w' & Hw & Hws & ->)%gd_step_inv.
  assert (∃ n, nodes st !! j = Some n) as [n Hn].
  { apply lookup_lt_is_Some. rewrite <- (si_workers _ _ Hsync).
    by eapply lookup_lt_Some. }
  pose proof (gd_worker_step_effect _ _ _ _ _ _ _ _ _ _ Hws Hn) as Heff.
  pose proof (gd_wiring_of_lookup _ _ _ Hn) as Hpj.
  rewrite (si_wiring _ _ Hsync) in Hpj.
  assert (F !! j = Some (length (arrival_children_flag n))) as HFj.
  { rewrite <- Hcounts. unfold flag_counts.
    by rewrite list_lookup_fmap, Hn. }
  pose proof (Hpos _ _ Hw) as Hposj.
  destruct (Hbound _ _ Hw) as [Hle Hlt].
  assert (j < length (workers st))%nat as Hjlt by by eapply lookup_lt_Some.
  simpl in Hfc.
  split; simpl.
  - by rewrite Hfc.
  - intros i wi Hi.
    destruct (decide (i = j)) as [->|Hne];
      [|rewrite list_lookup_insert_ne in Hi by done; by eapply Hpos].
    rewrite list_lookup_insert_eq in Hi by done. injection Hi as <-.
    destruct w as [pc c]. cbn [tree_at tree_completed] in *.
    destruct pc.
    + destruct Heff as [-> _]. by apply gd_position_enter_children'.
    + destruct Heff as (f & _ & -> & _). simpl. by case_decide.
    + destruct Heff as (_ & -> & _). by apply gd_position_enter_children'.
    + by destruct Heff as (p' & k' & _ & -> & _).
    + destruct Heff as [-> _]. simpl. by case_decide.
    + by destruct Heff as [-> _].
    + done.
    + by destruct Heff as [-> _].
    + by destruct Heff as [-> _].
  - intros i wi Hi.
    destruct (decide (i = j)) as [->|Hne];
      [|rewrite list_lookup_insert_ne in Hi by done; by eapply Hbound].
    rewrite list_lookup_insert_eq in Hi by done. injection Hi as <-.
    destruct w as [pc c]. cbn [tree_at tree_completed] in *.
    pose proof (gd_worker_step_call _ _ _ _ _ _ _ _ Hws) as Hcall.
    cbn [tree_at tree_completed] in Hcall.
    destruct pc.
    + destruct Heff as [-> _]. simpl. split; [lia|intros _; by apply Hcall].
    + destruct Heff as (f & _ & -> & _). simpl.
      specialize (Hlt ltac:(done)). split; [lia|done].
    + destruct Heff as (_ & -> & _). simpl.
      specialize (Hlt ltac:(done)). split; [lia|done].
    + destruct Heff as (p' & k' & _ & -> & _). simpl.
      specialize (Hlt ltac:(done)). split; [lia|done].
    + destruct Heff as [-> _]. simpl.
      specialize (Hlt ltac:(done)). split; [lia|done].
    + destruct Heff as [-> _]. simpl.
      specialize (Hlt ltac:(done)). split; [lia|done].
    + done.
    + destruct Heff as [-> _]. simpl.
      specialize (Hlt ltac:(done)). split; [lia|done].
    + destruct Heff as [-> _]. simpl.
      specialize (Hlt ltac:(done)). split; [lia|done].
Qed.

End GdProgressFacts.

Lemma gd_enter_children_cases n k0 :
  enter_children n k0 = at_child_spin k0 ∨
  enter_children n k0 = at_arrive ∨ enter_children n k0 = at_signal_all.
Proof.
  unfold enter_children, after_children. case_decide; [by left|].
  destruct (arrival_parent n); auto.
Qed.

Section GdStuck.
Variable num_episodes : nat.
Variable W : wiring_table.
Variable F : list nat.
Hypothesis W_arrival : arrival_wired W.
Hypothesis W_slots : slots_wired W F.
Variable st : state.
Hypothesis st_sync : sync_inv W st.
Hypothesis st_live : live_inv W F num_episodes st.

Lemma gd_sync_inv_node i w :
  workers st !! i = Some w →
  ∃ n, nodes st !! i = Some n ∧
       local_sense n = Nat.odd (tree_completed w) ∧
       parent_of W i = arrival_parent n ∧
       F !! i = Some (length (arrival_children_flag n)).
Proof using st_sync st_live.
  intros Hi.
  assert (∃ n, nodes st !! i = Some n) as [n Hn].
  { apply lookup_lt_is_Some. rewrite <- (si_workers _ _ st_sync).
    by eapply lookup_lt_Some. }
  exists n. split_and!; [done|by eapply (si_parity _ _ st_sync)| |].
  - rewrite <- (si_wiring _ _ st_sync). by apply gd_wiring_of_lookup.
  - rewrite <- (li_counts _ _ _ _ st_live). unfold flag_counts.
    by rewrite list_lookup_fmap, Hn.
Qed.

(** The slot a node stores into exists. *)
Lemma gd_parent_slot i w p k :
  workers st !! i = Some w → parent_of W i = Some (p, k) →
  ∃ pw pn f,
    workers st !! p = Some pw ∧ nodes st !! p = Some pn ∧
    arrival_children_flag pn !! k = Some f ∧
    (progress (passed_slot k) pw ≤ progress arrived w)%nat ∧
    f = negb (Nat.odd (progress arrived w)).
Proof using W_arrival st_sync st_live.
  intros Hi Hp.
  pose proof (gd_sync_inv_index _ _ st_sync _ _ Hi) as Hlt.
  pose proof (aw_reach _ W_arrival _ Hlt) as Hr.
  destruct (length W) as [|fuel] eqn:HlW; [lia|].
  simpl in Hr. rewrite Hp in Hr.
  apply reaches_root_lt in Hr; [|lia].
  destruct (gd_sync_inv_worker _ _ st_sync p Hr) as [pw Hpw].
  destruct (si_arrival _ _ st_sync _ _ _ _ _ Hp Hi Hpw) as [Ha Hb].
  destruct (gd_sync_inv_node _ _ Hpw) as (pn & Hpn & _).
  unfold read in Hb. rewrite Hpn in Hb. simpl in Hb.
  by exists pw, pn, (negb (Nat.odd (progress arrived w))).
Qed.

(** A thread that is not blocked has a step, and the step moves it. *)
Lemma gd_worker_moves j w :
  workers st !! j = Some w →
  blocked num_episodes (sense st) (nodes st) j w = false →
  ∃ e st', step num_episodes j st = Some (e, st') ∧ st' ≠ st.
Proof using W_arrival st_sync st_live.
  intros Hj Hnb.
  destruct (gd_sync_inv_node _ _ Hj) as (n & Hn & Hls & Hpj & HFj).
  pose proof (li_position _ _ _ _ st_live _ _ Hj) as Hpos.
  enough (∃ e g' ns' w',
            worker_step num_episodes j (sense st) (nodes st) w
            = Some (e, g', ns', w') ∧ tree_at w' ≠ tree_at w)
    as (e & g' & ns' & w' & Hws & Hne).
  { exists e, (mk_state g' ns' (<[j := w']> (workers st))).
    split; [unfold step; rewrite Hj; simpl; by rewrite Hws|].
    intros Heq. apply (f_equal (λ s, workers s !! j)) in Heq.
    simpl in Heq. rewrite list_lookup_insert_eq, Hj in Heq
      by by eapply lookup_lt_Some.
    injection Heq as ->. done. }
  unfold blocked in Hnb. rewrite Hn in Hnb.
  unfold worker_step. rewrite Hn. simpl.
  destruct (tree_at w) eqn:Hat.
  - apply bool_decide_eq_false in Hnb.
    rewrite decide_True by (by apply dec_stable).
    eexists _, _, _, _. split; [done|]. simpl.
    apply gd_enter_children_inside.
  - apply bool_decide_eq_false in Hnb. apply dec_stable in Hnb.
    rewrite Hnb. simpl. eexists _, _, _, _. split; [done|]. simpl.
    by rewrite decide_True.
  - destruct Hpos as (c & Hc & Hk). rewrite HFj in Hc. injection Hc as <-.
    apply lookup_lt_is_Some in Hk as [f ->]. simpl.
    eexists _, _, _, _. split; [done|]. simpl.
    by destruct (gd_enter_children_cases n (S k)) as [-> | [-> | ->]].
  - rewrite Hpj in Hpos. destruct Hpos as [[p k] Hpk].
    rewrite <- Hpj in Hpk.
    destruct (gd_parent_slot _ _ _ _ Hj Hpk)
      as (pw & pn & f & _ & Hpn & Hf & _).
    rewrite Hpj in Hpk. rewrite Hpk. simpl.
    rewrite Hpn. simpl. rewrite Hf. simpl.
    by eexists _, _, _, _.
  - apply bool_decide_eq_false in Hnb. apply dec_stable in Hnb.
    eexists _, _, _, _. split; [done|]. simpl. by rewrite decide_True.
  - by eexists _, _, _, _.
  - done.
  - by eexists _, _, _, _.
  - by eexists _, _, _, _.
Qed.

(** What every thread knows of the root. *)
Lemma gd_root_facts i w :
  workers st !! i = Some w →
  ∃ w0,
    parent_of W 0%nat = None ∧ workers st !! 0%nat = Some w0 ∧
    sense st = negb (Nat.odd (progress (signalled 0) w0)) ∧
    (progress (signalled 0) w0 ≤ progress gathered w)%nat ∧
    (tree_completed w ≤ progress (signalled 0) w0)%nat ∧
    (is_Some (parent_of W i) →
     progress (signalled 0) w0 ≤ progress arrived w ∧
     progress released w ≤ progress (signalled 0) w0)%nat.
Proof using W_arrival st_sync.
  intros Hi. pose proof (gd_sync_inv_index _ _ st_sync _ _ Hi) as Hlt.
  destruct (gd_gathered_before_root _ _ st_sync _ _ _
              (aw_reach _ W_arrival _ Hlt) Hi)
    as (w0 & Hroot & H0 & Hg & Ha).
  destruct (si_departure _ _ st_sync _ _ Hroot H0) as [Hs Hrel].
  assert (progress (signalled 0) w0 ≤ progress gathered w0)%nat as Hord.
  { etrans; [apply signalled_released|].
    etrans; [apply released_arrived|apply arrived_gathered]. }
  exists w0. split_and!; [done..|lia| |].
  - destruct (parent_of W i) as [s|] eqn:Hp.
    + specialize (Hrel _ _ (mk_is_Some _ _ Hp) Hi).
      pose proof (progress_bounds released w). lia.
    + rewrite (aw_root _ W_arrival _ Hlt Hp) in Hi.
      rewrite Hi in H0. injection H0 as <-.
      pose proof (progress_bounds (signalled 0) w). lia.
  - intros Hp. specialize (Ha Hp). specialize (Hrel _ _ Hp Hi). lia.
Qed.

Hypothesis all_blocked : ∀ i w,
  workers st !! i = Some w →
  blocked num_episodes (sense st) (nodes st) i w = true.

Local Ltac prog :=
  unfold progress in *; cbn [tree_at tree_completed] in *;
  cbn [passed_slot arrived released signalled gathered] in *;
  repeat (first [case_decide|case_bool_decide];
          cbn [tree_at tree_completed] in *;
          cbn [passed_slot arrived released signalled gathered] in *);
  try lia.

(** A blocked thread in the departure loop waits for a root that has not
    stored yet. *)
Lemma gd_blocked_depart i w w0 :
  workers st !! i = Some w → tree_at w = at_depart_spin →
  workers st !! 0%nat = Some w0 →
  progress (signalled 0) w0 = tree_completed w.
Proof using W_arrival st_sync st_live all_blocked.
  intros Hi Hat H0.
  destruct (gd_sync_inv_node _ _ Hi) as (n & Hn & Hls & Hpj & _).
  pose proof (all_blocked _ _ Hi) as Hb. unfold blocked in Hb.
  rewrite Hat, Hn in Hb. apply bool_decide_eq_true in Hb.
  destruct (gd_root_facts _ _ Hi) as (w0' & _ & H0' & Hs & _ & _ & Hrel).
  rewrite H0 in H0'. injection H0' as <-.
  pose proof (si_position _ _ st_sync _ _ Hi) as Hpos. rewrite Hat in Hpos.
  destruct (Hrel Hpos) as [Hup Hlow].
  destruct w as [pc c]. simpl in Hat. subst pc.
  remember (progress (signalled 0) w0) as sg eqn:Hsg.
  unfold progress in Hup, Hlow. simpl in Hup, Hlow.
  destruct (decide (sg = c)) as [|Hne]; [done|].
  destruct Hb. rewrite Hs, Hls. simpl.
  replace sg with (c + 1)%nat by lia.
  apply odd_next.
Qed.

(** A blocked thread that waits for a child has a child that is blocked
    and waits for a child. *)
Lemma gd_stuck_child p wp k :
  workers st !! p = Some wp → tree_at wp = at_child_spin k →
  ∃ i wi k',
    parent_of W i = Some (p, k) ∧
    workers st !! i = Some wi ∧ tree_at wi = at_child_spin k'.
Proof using W_arrival W_slots st_sync st_live all_blocked.
  intros Hp Hat.
  destruct (gd_sync_inv_node _ _ Hp) as (n & Hn & Hls & _ & HF).
  pose proof (li_position _ _ _ _ st_live _ _ Hp) as Hpos.
  rewrite Hat in Hpos. destruct Hpos as (c & Hc & Hk).
  destruct (W_slots _ _ _ Hc Hk) as [i Hip].
  destruct (gd_sync_inv_worker _ _ st_sync i (parent_of_lt _ _ _ Hip))
    as [wi Hi].
  exists i, wi.
  destruct (gd_parent_slot _ _ _ _ Hi Hip)
    as (pw & pn & f & Hpw & Hpn & Hf & Ha & ->).
  rewrite Hp in Hpw. injection Hpw as <-.
  rewrite Hn in Hpn. injection Hpn as <-.
  pose proof (all_blocked _ _ Hp) as Hb. unfold blocked in Hb.
  rewrite Hat, Hn, Hf, Hls in Hb. apply bool_decide_eq_true in Hb.
  destruct (gd_root_facts _ _ Hp) as (w0 & _ & H0 & _ & Hg & Hcp & _).
  destruct (gd_root_facts _ _ Hi) as (w0' & _ & H0' & _ & _ & Hci & Hrel).
  rewrite H0 in H0'. injection H0' as <-.
  destruct (Hrel (mk_is_Some _ _ Hip)) as [Hup Hlow].
  destruct (li_bound _ _ _ _ st_live _ _ Hp) as [_ Hlt].
  specialize (Hlt ltac:(by rewrite Hat)).
  pose proof (all_blocked _ _ Hi) as Hbi.
  pose proof (λ w0, gd_blocked_depart _ _ w0 Hi) as Hdep.
  destruct (gd_sync_inv_node _ _ Hi) as (ni & Hni & _).
  unfold blocked in Hbi. rewrite Hni in Hbi.
  destruct wp as [pcp cp], wi as [pci ci].
  cbn [tree_at tree_completed] in *. subst pcp.
  assert (progress arrived (mk_tree_worker pci ci) = cp) as Harr.
  { pose proof (progress_bounds arrived (mk_tree_worker pci ci)) as Hba.
    pose proof (progress_bounds released (mk_tree_worker pci ci)) as Hbr.
    cbn [tree_completed] in Hba, Hbr.
    remember (progress arrived (mk_tree_worker pci ci)) as a eqn:Hdefa.
    remember (progress released (mk_tree_worker pci ci)) as r eqn:Hdefr.
    remember (progress (signalled 0) w0) as sg eqn:Hdefsg.
    destruct (decide (a = cp)) as [|Hne]; [done|].
    destruct Hb. f_equal.
    replace a with (cp + 1)%nat; [apply odd_next|].
    unfold progress in Ha, Hg. simpl in Ha, Hg.
    rewrite bool_decide_false in Ha by lia. lia. }
  destruct pci; try done.
  - apply bool_decide_eq_true in Hbi. unfold progress in Harr.
    simpl in Harr. lia.
  - by exists k0.
  - specialize (Hdep w0 eq_refl H0). simpl in Hdep.
    unfold progress in Harr. simpl in Harr. lia.
Qed.

Lemma gd_stuck_deep fuel :
  (∃ p wp k, workers st !! p = Some wp ∧ tree_at wp = at_child_spin k) →
  ∃ p wp k,
    workers st !! p = Some wp ∧ tree_at wp = at_child_spin k ∧
    reaches_root W fuel p = false.
Proof using W_arrival W_slots st_sync st_live all_blocked.
  induction fuel as [|fuel IH]; intros Hex.
  - destruct Hex as (p & wp & k & Hp & Hat). by exists p, wp, k.
  - destruct (IH Hex) as (p & wp & k & Hp & Hat & Hr).
    destruct (gd_stuck_child _ _ _ Hp Hat) as (i & wi & k' & Hip & Hi & Hati).
    exists i, wi, k'. split_and!; [done..|]. simpl. by rewrite Hip.
Qed.

(** The threads cannot all be blocked while one of them is still in the
    loop. *)
Lemma gd_not_all_blocked i w :
  workers st !! i = Some w → tree_in_loop num_episodes w → False.
Proof using W_arrival W_slots st_sync st_live all_blocked.
  intros Hi Hloop.
  assert (∃ p wp k, workers st !! p = Some wp ∧ tree_at wp = at_child_spin k)
    as Hex.
  { pose proof (all_blocked _ _ Hi) as Hb.
    destruct (gd_sync_inv_node _ _ Hi) as (n & Hn & _).
    destruct (li_bound _ _ _ _ st_live _ _ Hi) as [_ Hlt].
    unfold blocked in Hb. rewrite Hn in Hb.
    destruct (tree_at w) eqn:Hat; try done.
    - apply bool_decide_eq_true in Hb. by destruct Hloop.
    - by exists i, w, k.
    - specialize (Hlt ltac:(done)).
      destruct (gd_root_facts _ _ Hi) as (w0 & Hroot & H0 & _).
      pose proof (gd_blocked_depart _ _ _ Hi Hat H0) as Hsg.
      pose proof (all_blocked _ _ H0) as Hb0.
      destruct (gd_sync_inv_node _ _ H0) as (n0 & Hn0 & _).
      pose proof (si_position _ _ st_sync _ _ H0) as Hpos0.
      unfold blocked in Hb0. rewrite Hn0 in Hb0.
      destruct (tree_at w0) eqn:Hat0; try done.
      + apply bool_decide_eq_true in Hb0. unfold progress in Hsg.
        rewrite Hat0 in Hsg. simpl in Hsg. lia.
      + by exists 0%nat, w0, k.
      + rewrite Hroot in Hpos0. by destruct Hpos0. }
  destruct (gd_stuck_deep (length W) Hex) as (p & wp & k & Hp & _ & Hr).
  rewrite (aw_reach _ W_arrival p) in Hr; [done|].
  by eapply gd_sync_inv_index.
Qed.

End GdStuck.

(** While a thread is in the loop, some thread is not blocked. *)
Lemma gd_some_thread_free num_episodes W F st i w :
  arrival_wired W → slots_wired W F →
  sync_inv W st → live_inv W F num_episodes st →
  workers st !! i = Some w → tree_in_loop num_episodes w →
  ∃ j wj,
    workers st !! j = Some wj ∧
    blocked num_episodes (sense st) (nodes st) j wj = false.
Proof.
  intros HW HF Hsync Hlive Hi Hloop.
  destruct (indexed_test (blocked num_episodes (sense st) (nodes st))
              (workers st)) as [Hall|(j & wj & Hj & Hnb)].
  - destruct (gd_not_all_blocked num_episodes W F HW HF st Hsync Hlive Hall
                _ _ Hi Hloop).
  - by exists j, wj.
Qed.

(** On nodes that pass the tests, the threads never get stuck. *)
Lemma gd_ready_never_stuck num_episodes ns sched tr st :
  ready_to_run ns = true →
  exec (step num_episodes) sched (initial ns) = Some (tr, st) →
  (∀ j wj,
     workers st !! j = Some wj →
     blocked num_episodes (sense st) (nodes st) j wj = false →
     ∃ e st', step num_episodes j st = Some (e, st') ∧ st' ≠ st) ∧
  (∀ i w,
     workers st !! i = Some w → tree_in_loop num_episodes w →
     ∃ j wj e st',
       workers st !! j = Some wj ∧
       blocked num_episodes (sense st) (nodes st) j wj = false ∧
       step num_episodes j st = Some (e, st') ∧ st' ≠ st).
Proof.
  unfold ready_to_run. rewrite andb_true_iff.
  intros [(Haw & Hinit)%gd_ready_sync_inv Hslots%slots_wired_check_sound]
    Hexec.
  destruct (exec_invariant (step num_episodes)
              (λ s, sync_inv (wiring_of ns) s ∧
                    live_inv (wiring_of ns) (flag_counts ns) num_episodes s)
              ) with (sched := sched) (s := initial ns) (tr := tr) (s' := st)
    as [Hsync Hlive]; [|split; [done|apply gd_live_inv_initial]|done|].
  { intros x s e s1 [Hs Hl] Hstep.
    split; [by eapply gd_step_sync_inv|by eapply gd_step_live_inv]. }
  assert (∀ j wj,
            workers st !! j = Some wj →
            blocked num_episodes (sense st) (nodes st) j wj = false →
            ∃ e st', step num_episodes j st = Some (e, st') ∧ st' ≠ st)
    as Hmoves by (intros j wj; by eapply gd_worker_moves).
  split; [done|]. intros i w Hi Hloop.
  destruct (gd_some_thread_free _ _ _ _ _ _ Haw Hslots Hsync Hlive Hi Hloop)
    as (j & wj & Hj & Hnb).
  destruct (Hmoves _ _ Hj Hnb) as (e & st' & Hstep & Hne).
  by exists j, wj, e, st'.
Qed.

(** X10: the static tree barrier with a global departure flag never gets
    stuck on the trees of the benchmark.  On the nodes the layout
    function returns for 1 to 8 threads, in every state the threads can
    reach from the start of the experiment: every thread that is not
    blocked has a next step, and the step changes the state, where a
    thread is blocked when it has left the loop of [thread_job] or is in
    one of the two spin loops and the flag does not hold the value it
    waits for; so a thread that stores into its parent's slot has a
    parent, and the flag a thread reads is one its node has.  And as
    long as one thread is still in the loop of [thread_job], some thread
    is not blocked. *)
Theorem global_departure_never_stuck n ns num_episodes sched tr st :
  (1 ≤ n ≤ 8)%nat →
  static_tree_global_departure_layout_good_locality n = Some ns →
  exec (step num_episodes) sched (initial ns) = Some (tr, st) →
  (∀ j wj,
     workers st !! j = Some wj →
     blocked num_episodes (sense st) (nodes st) j wj = false →
     ∃ e st', step num_episodes j st = Some (e, st') ∧ st' ≠ st) ∧
  (∀ i w,
     workers st !! i = Some w → tree_in_loop num_episodes w →
     ∃ j wj e st',
       workers st !! j = Some wj ∧
       blocked num_episodes (sense st) (nodes st) j wj = false ∧
       step num_episodes j st = Some (e, st') ∧ st' ≠ st).
Proof.
  intros Hn Hns. apply gd_ready_never_stuck.
  destruct n as [|[|[|[|[|[|[|[|[|n]]]]]]]]]; try lia;
    injection Hns as <-; vm_compute; reflexivity.
Qed.

(** On the tree for two: the root waits for its child, which has not
    stored into its slot yet; the root is blocked, the child is not and
    has its step. *)
Lemma global_departure_never_stuck_witness :
  ∃ ns tr st,
    static_tree_global_departure_layout_good_locality 2 = Some ns ∧
    exec (step 1) [0; 1]%nat (initial ns) = Some (tr, st) ∧
    workers st !! 0%nat = Some (mk_tree_worker (at_child_spin 0) 0) ∧
    blocked 1 (sense st) (nodes st) 0 (mk_tree_worker (at_child_spin 0) 0)
    = true ∧
    workers st !! 1%nat = Some (mk_tree_worker at_arrive 0) ∧
    blocked 1 (sense st) (nodes st) 1 (mk_tree_worker at_arrive 0) = false ∧
    ∃ e st', step 1 1 st = Some (e, st') ∧ st' ≠ st.
Proof.
  eexists _, _, _.
  split; [reflexivity|]. split; [vm_compute; reflexivity|].
  split; [vm_compute; reflexivity|]. split; [vm_compute; reflexivity|].
  split; [vm_compute; reflexivity|]. split; [vm_compute; reflexivity|].
  refine (proj1 (global_departure_never_stuck 2 _ 1 [0; 1]%nat _ _ _ _ _)
            1%nat (mk_tree_worker at_arrive 0) _ _);
    [lia|reflexivity|vm_compute; reflexivity..].
Defined.

End GlobalDepartureFacts.

(** ** The trees the layout functions build *)

Module TopologyFacts.
Import Topology.

Local Ltac each_below p tac :=
  repeat first
    [by (exfalso; lia)
    |destruct p as [|p]; [solve [exfalso; lia|tac]|]].

Local Ltac each_node p H :=
  repeat first
    [done
    |destruct p as [|p];
     [injection H as <-; vm_compute; first [reflexivity|apply perm_swap]
     |simpl in H]].

(** C5: for every [n] from 1 to 8 both good-locality layout functions
    return [n] nodes wired as the literal shape for [n] says; node 0 is
    the root, every other node's [arrival_parent] points to one slot of
    its parent's arrival flags, every slot is the target of exactly one
    child, and in the local-departure layout the departure children of a
    node are its arrival children. *)
Theorem good_locality_literal_shapes n :
  (1 ≤ n ≤ 8)%nat →
  ∃ ns gs,
    StaticTree.static_tree_layout_good_locality n = Some ns ∧
    GlobalDeparture.static_tree_global_departure_layout_good_locality n
      = Some gs ∧
    has_literal_shape n (view_of_static_tree ns) ∧
    has_literal_shape n (view_of_global_departure gs) ∧
    rooted_at_zero (view_of_static_tree ns) ∧
    rooted_at_zero (view_of_global_departure gs) ∧
    departure_mirrors_arrival ns.
Proof.
  intros Hn.
  destruct n as [|[|[|[|[|[|[|[|[|n]]]]]]]]]; try lia; clear Hn.
  all: eexists _, _; split; [reflexivity|]; split; [reflexivity|].
  all: refine (conj _ (conj _ (conj _ (conj _ _)))).
  all: lazymatch goal with
       | |- has_literal_shape _ _ =>
           split; [reflexivity|];
           intros p Hp; each_below p ltac:(vm_compute; reflexivity)
       | |- rooted_at_zero _ =>
           split; [reflexivity|];
           intros i Hi; vm_compute in Hi;
           each_below i ltac:(eexists _, _; split;
                              [vm_compute; reflexivity|vm_compute; lia])
       | |- departure_mirrors_arrival _ =>
           intros p nd H; simpl in H; each_node p H
       end.
Qed.

(** For eight threads. *)
Lemma good_locality_literal_shapes_witness :
  ∃ ns gs,
    StaticTree.static_tree_layout_good_locality 8 = Some ns ∧
    GlobalDeparture.static_tree_global_departure_layout_good_locality 8
      = Some gs ∧
    has_literal_shape 8 (view_of_static_tree ns) ∧
    has_literal_shape 8 (view_of_global_departure gs) ∧
    rooted_at_zero (view_of_static_tree ns) ∧
    rooted_at_zero (view_of_global_departure gs) ∧
    departure_mirrors_arrival ns.
Proof. apply (good_locality_literal_shapes 8). lia. Defined.

(** C8: for every participant count outside 1..8 each of the three layout
    functions reaches the [default] of its [switch], [assert(0)], and
    aborts instead of returning nodes. *)
Theorem layouts_abort_outside_range n :
  ¬ (1 ≤ n ≤ 8)%nat →
  StaticTree.static_tree_layout_good_locality n = None ∧
  StaticTree.static_tree_layout_bad_locality n = None ∧
  GlobalDeparture.static_tree_global_departure_layout_good_locality n = None.
Proof.
  intros Hn.
  destruct n as [|[|[|[|[|[|[|[|[|n]]]]]]]]]; try lia; done.
Qed.

(** For nine threads. *)
Lemma layouts_abort_outside_range_witness :
  StaticTree.static_tree_layout_good_locality 9 = None ∧
  StaticTree.static_tree_layout_bad_locality 9 = None ∧
  GlobalDeparture.static_tree_global_departure_layout_good_locality 9 = None.
Proof. apply (layouts_abort_outside_range 9). lia. Defined.

(** Trees of the same shape have as many nodes at every depth. *)
Lemma same_shape_width d :
  ∀ t u, same_shape t u → width_at d t = width_at d u.
Proof.
  induction d as [|d IH]; intros t u H; [by destruct t, u|].
  destruct H as [cs ds ds' Hperm Hall]. simpl.
  rewrite (Permutation_map (width_at d) Hperm). f_equal. clear Hperm.
  induction Hall as [|c d' cs ds'' Hcd _ IHall]; [done|].
  simpl. f_equal; [by apply IH|done].
Qed.

Local Ltac same_shape_tac :=
  solve
    [refine (same_shape_node _ _ _ (Permutation_refl _) _);
     repeat (constructor; try same_shape_tac)
    |refine (same_shape_node _ _ _ (perm_swap _ _ _) _);
     repeat (constructor; try same_shape_tac)].

(** C6, as stated, fails for seven participants: the good-locality tree
    has depth 2, the bad-locality tree depth 3 (0 ← 3 ← 4 ← 6), and
    ⌈log₂ 7⌉ = 3. *)
Lemma layouts_differ_at_seven : ¬ same_shape_class 7.
Proof.
  intros (_ & _ & _ & _ & _ & Hd & _). vm_compute in Hd. discriminate.
Qed.

(** C6 (amended): for every [n] from 1 to 8 the good- and the bad-locality
    layout are binary trees of [n] nodes rooted at node 0, with [n - 1]
    edges each; the good-locality tree is balanced, of depth ⌊log₂ n⌋; up
    to 6 participants the bad-locality tree has the same shape; up to 3
    participants the two functions return the same nodes, and from 4 on
    they wire the participants differently; for 7 and 8 participants the
    bad-locality tree has another shape, of depth 3 and not balanced. *)
Theorem layouts_shape_class n :
  (1 ≤ n ≤ 8)%nat →
  tree_size (good_tree n) = n ∧ tree_size (bad_tree n) = n ∧
  edges (good_view n) = (n - 1)%nat ∧
  edges (bad_view n) = (n - 1)%nat ∧
  binary (good_tree n) = true ∧ binary (bad_tree n) = true ∧
  balanced (good_tree n) = true ∧
  balanced (bad_tree n) = bool_decide (n ≤ 6)%nat ∧
  depth (good_tree n) = Nat.log2 n ∧
  depth (bad_tree n) = (if decide (n ≤ 6)%nat then Nat.log2 n else 3%nat) ∧
  ((n ≤ 6)%nat → same_shape (good_tree n) (bad_tree n)) ∧
  ((7 ≤ n)%nat → ¬ same_shape (good_tree n) (bad_tree n)) ∧
  ((n ≤ 3)%nat →
   StaticTree.static_tree_layout_good_locality n
   = StaticTree.static_tree_layout_bad_locality n) ∧
  ((4 ≤ n)%nat → good_view n ≠ bad_view n).
Proof.
  intros Hn.
  destruct n as [|[|[|[|[|[|[|[|[|n]]]]]]]]]; try lia; clear Hn.
  all: split_and!; try (vm_compute; reflexivity).
  all: try (intros Hle; exfalso; lia).
  all: try (intros _; vm_compute; reflexivity).
  all: try (intros _; vm_compute; same_shape_tac).
  all: try (intros _ H; vm_compute in H; discriminate).
  all: intros _ H%(same_shape_width 3); vm_compute in H; discriminate.
Qed.

(** For seven threads. *)
Lemma layouts_shape_class_witness :
  tree_size (good_tree 7) = 7%nat ∧ tree_size (bad_tree 7) = 7%nat ∧
  edges (good_view 7) = 6%nat ∧
  edges (bad_view 7) = 6%nat ∧
  binary (good_tree 7) = true ∧ binary (bad_tree 7) = true ∧
  balanced (good_tree 7) = true ∧
  balanced (bad_tree 7) = false ∧
  depth (good_tree 7) = Nat.log2 7 ∧
  depth (bad_tree 7) = 3%nat ∧
  ((7 ≤ 6)%nat → same_shape (good_tree 7) (bad_tree 7)) ∧
  ((7 ≤ 7)%nat → ¬ same_shape (good_tree 7) (bad_tree 7)) ∧
  ((7 ≤ 3)%nat →
   StaticTree.static_tree_layout_good_locality 7
   = StaticTree.static_tree_layout_bad_locality 7) ∧
  ((4 ≤ 7)%nat → good_view 7 ≠ bad_view 7).
Proof. apply (layouts_shape_class 7). lia. Defined.

End TopologyFacts.

(** ** The confidence-interval accumulator *)

Module MeanconfFacts.
Import Meanconf.

(** C9 as stated, at no sample: with fewer than two samples the variance
    computation divides by zero.  With no sample, [samples.size() - 1]
    wraps to 2^64 - 1. *)
Lemma variance_divisor_without_samples :
  ¬ ((length (@nil float) < 2)%nat → variance_divisor (@nil float) = 0).
Proof. intros Hz. specialize (Hz ltac:(simpl; lia)). done. Qed.

Lemma size_t_wrap_pred n :
  0 < n < 2 ^ 64 → size_t_wrap (n - 1) = n - 1.
Proof. intros Hn. unfold size_t_wrap. apply Z.mod_small. lia. Qed.

Lemma table_read_Some index :
  is_Some (table_read index) ↔ 0 ≤ index < 30.
Proof.
  unfold table_read. change (Z.of_nat (length t_critical_value)) with 30.
  case_decide as Hi; split; [done| |by intros [? ?]|lia].
  intros _. apply lookup_lt_is_Some.
  change (length t_critical_value) with 30%nat. lia.
Qed.

(** C9 (amended): [add] appends unconditionally, whatever the number of
    calls and the number given to the constructor; [mean()] reads the
    30-entry table at [samples.size() - 1], computed in [std::size_t];
    with [n] samples the read is inside the table exactly when
    1 ≤ n ≤ 30, and for n > 30 it is past the end; for n = 1 the variance
    computation divides by zero; for n = 0 the mean computation divides
    by zero, and the subtraction wraps to 2^64 - 1, which is then the
    divisor of the variance and the index of the read; so [mean()] is
    well defined exactly when 2 ≤ n ≤ 30. *)
Theorem mean_precondition {D : Type} `{Double D} :
  (∀ (v : D) samples, add v samples = samples ++ [v]) ∧
  (∀ num_samples (vs : list D),
     length (foldl (λ samples v, add v samples) (construct num_samples) vs)
     = length vs) ∧
  length t_critical_value = 30%nat ∧
  ∀ samples : list D,
    size samples < 2 ^ 64 →
    table_index samples = size_t_wrap (size samples - 1) ∧
    (1 ≤ size samples → table_index samples = size samples - 1) ∧
    (is_Some (table_read (table_index samples)) ↔ 1 ≤ size samples ≤ 30) ∧
    (30 < size samples →
     Z.of_nat (length t_critical_value) ≤ table_index samples ∧
     mean samples = None) ∧
    (size samples = 1 → variance_divisor samples = 0) ∧
    (size samples = 0 →
     mean_divisor samples = 0 ∧ variance_divisor samples = 2 ^ 64 - 1 ∧
     table_index samples = 2 ^ 64 - 1) ∧
    (well_defined samples ↔ 2 ≤ size samples ≤ 30).
Proof.
  split_and!; [done| |done|].
  - intros num_samples vs. unfold construct.
    assert (∀ (l : list D),
              length (foldl (λ samples v, add v samples) l vs)
              = (length l + length vs)%nat) as Hlen.
    { induction vs as [|v vs IH]; intros l; simpl; [lia|].
      rewrite IH. unfold add. rewrite length_app. simpl. lia. }
    by rewrite Hlen.
  - intros samples Hsize.
    unfold well_defined, mean, table_index, variance_divisor, mean_divisor.
    change (Z.of_nat (length t_critical_value)) with 30.
    assert (0 ≤ size samples) as Hpos by (unfold size; lia).
    assert (∀ index, ¬ 0 ≤ index < 30 → table_read index = None) as Hout.
    { intros index Hi. destruct (table_read index) as [t|] eqn:Ht; [|done].
      destruct Hi. apply table_read_Some. by exists t. }
    destruct (decide (size samples = 0)) as [Hz|Hnz].
    + rewrite Hz. change (size_t_wrap (0 - 1)) with (2 ^ 64 - 1).
      rewrite table_read_Some. repeat split; intros; try lia.
    + rewrite size_t_wrap_pred by lia. rewrite table_read_Some.
      repeat split; intros; try lia. rewrite Hout by lia. done.
Qed.

(** With no sample. *)
Lemma mean_precondition_witness :
  is_Some (table_read (table_index (@nil float))) ↔
  1 ≤ size (@nil float) ≤ 30.
Proof.
  destruct (@mean_precondition float _) as (_ & _ & _ & Hm).
  refine (proj1 (proj2 (proj2 (Hm [] _)))). reflexivity.
Defined.

(** *** What [mean()] computes *)

(** [mean()] on [n] samples, 2 ≤ n ≤ 30: the divisors are [n] and
    [n - 1], the read is inside the table, and the operations are those
    of the source, in its order. *)
Lemma mean_computes {D : Type} `{Double D} (samples : list D) :
  (2 ≤ length samples ≤ 30)%nat →
  ∃ t, t_critical_value !! (length samples - 1)%nat = Some t ∧
    let n := Z.of_nat (length samples) in
    let m := d_div (fold_left d_add samples d_zero) (d_of_size n) in
    let s2 :=
      d_div
        (fold_left (λ s x, d_add s (d_mul (d_sub x m) (d_sub x m))) samples
           d_zero)
        (d_of_size (n - 1)) in
    let h :=
      d_mul (d_literal t) (d_div (d_sqrt s2) (d_sqrt (d_of_size n))) in
    mean samples = Some (d_sub m h, m, d_add m h).
Proof.
  intros Hn.
  assert (Z.of_nat (length samples) < 2 ^ 64) as Hsize by lia.
  destruct (lookup_lt_is_Some_2 t_critical_value (length samples - 1))
    as [t Ht]; [change (length t_critical_value) with 30%nat; lia|].
  exists t. split; [done|].
  unfold mean, table_index, size. rewrite size_t_wrap_pred by lia.
  unfold table_read. rewrite decide_True
    by (change (Z.of_nat (length t_critical_value)) with 30; lia).
  replace (Z.to_nat (Z.of_nat (length samples) - 1))
    with (length samples - 1)%nat by lia.
  rewrite Ht. cbn [mbind option_bind].
  unfold margin_of_error, sample_variance, sample_mean, variance_divisor,
    mean_divisor, size.
  by rewrite size_t_wrap_pred by lia.
Qed.

(** The worked example, with the variance and the critical value of the
    claim: on binary64 numbers [mean()] yields the quotient of 28 by 9 as
    the variance, not that of 32 by 9, and reads the critical value at
    index 9, which is 4.587. *)
Lemma ten_samples_not_as_claimed :
  ¬ (sample_mean (D := float) ten_samples = d_of_size 100 ∧
     sample_variance (D := float) ten_samples
     = d_div (d_of_size 32) (d_of_size 9) ∧
     table_read (table_index (D := float) ten_samples) = Some 4.781%Q).
Proof.
  intros (_ & Hv & _).
  apply (f_equal (λ x, PrimFloat.eqb x (d_div (d_of_size 32) (d_of_size 9))))
    in Hv.
  vm_compute in Hv. discriminate.
Qed.

(** C7 (amended): on every sequence of [n] samples, 2 ≤ n ≤ 30, [mean()]
    returns [(m - h, m, m + h)], every operation being the binary64
    operation of the source, in its order: [m] is the sum of the samples,
    added from the first to the last, divided by [n]; [s²] the sum of the
    squares of their deviations from [m], added in the same order,
    divided by [n - 1]; and [h = t · (√s² / √n)] for a critical value [t]
    of the table.  The result depends on the order of the samples: 2^60,
    1, -2^60 have the mean 0 in this order and another mean with the last
    two exchanged.  For the samples of the worked example the sums are
    exact in binary64: the mean is 100, the variance is the quotient of
    28 by 9, and the margin is computed with 4.587, the entry of the
    table at index 9. *)
Theorem mean_is_confidence_interval :
  (∀ (D : Type) (HD : Double D) (samples : list D),
     (2 ≤ length samples ≤ 30)%nat →
     ∃ t, t ∈ t_critical_value ∧
       t_critical_value !! (length samples - 1)%nat = Some t ∧
       let n := Z.of_nat (length samples) in
       let m := d_div (fold_left d_add samples d_zero) (d_of_size n) in
       let s2 :=
         d_div
           (fold_left (λ s x, d_add s (d_mul (d_sub x m) (d_sub x m)))
              samples d_zero)
           (d_of_size (n - 1)) in
       let h :=
         d_mul (d_literal t) (d_div (d_sqrt s2) (d_sqrt (d_of_size n))) in
       mean samples = Some (d_sub m h, m, d_add m h)) ∧
  cancelling_samples ≡ₚ cancelling_samples_reordered ∧
  sample_mean cancelling_samples = d_zero ∧
  PrimFloat.eqb (sample_mean cancelling_samples)
    (sample_mean cancelling_samples_reordered) = false ∧
  sample_mean (D := float) ten_samples = d_of_size 100 ∧
  sample_variance (D := float) ten_samples
  = d_div (d_of_size 28) (d_of_size 9) ∧
  let h :=
    d_mul (d_literal 4.587%Q)
      (d_div (d_sqrt (d_div (d_of_size 28) (d_of_size 9)))
         (d_sqrt (d_of_size 10))) in
  mean (D := float) ten_samples
  = Some (d_sub (d_of_size 100) h, d_of_size 100, d_add (d_of_size 100) h).
Proof.
  split_and!.
  - intros D HD samples Hn.
    destruct (mean_computes samples Hn) as (t & Ht & Hm).
    exists t. split_and!; [by eapply list_elem_of_lookup_2|done..].
  - apply perm_skip, perm_swap.
  - vm_compute. reflexivity.
  - vm_compute. reflexivity.
  - vm_compute. reflexivity.
  - vm_compute. reflexivity.
  - vm_compute. reflexivity.
Qed.

(** On the samples of the worked example, in binary64. *)
Lemma mean_is_confidence_interval_witness :
  (2 ≤ length (ten_samples (D := float)) ≤ 30)%nat ∧
  ∃ t, t ∈ t_critical_value ∧
    t_critical_value !! 9%nat = Some t ∧
    let m := d_div (fold_left d_add ten_samples d_zero) (d_of_size 10) in
    let s2 :=
      d_div
        (fold_left (λ s x, d_add s (d_mul (d_sub x m) (d_sub x m)))
           ten_samples d_zero)
        (d_of_size 9) in
    let h :=
      d_mul (d_literal t) (d_div (d_sqrt s2) (d_sqrt (d_of_size 10))) in
    mean (D := float) ten_samples = Some (d_sub m h, m, d_add m h).
Proof.
  split; [simpl; lia|].
  apply (proj1 mean_is_confidence_interval float _ ten_samples).
  simpl. lia.
Defined.

(** *** The measurement loop of the benchmark *)

Lemma foldl_add {D : Type} `{Double D} (f : nat → D) (runs : list nat)
    (samples : list D) :
  foldl (λ samples i, add (f i) samples) samples runs
  = samples ++ map f runs.
Proof.
  revert samples. induction runs as [|i runs IH]; intros samples; simpl.
  - by rewrite app_nil_r.
  - rewrite IH. unfold add. by rewrite <- app_assoc.
Qed.

(** X8: every cell of the table of results is computed inside the
    precondition of [mean()].  Whatever the thirty elapsed times, the
    call of [mean()] at the end of the measurement loop finds thirty
    samples, the elapsed times in the order of the runs, divides by 30
    and by 29, reads the last entry of the table of critical values,
    3.646, and returns [(m - h, m, m + h)] where, in the arithmetic of
    the program, [m] is the sum of the thirty times divided by 30, [s²]
    the sum of the squares of their deviations from [m] divided by 29,
    and [h = 3.646 · (√s² / √30)]. *)
Theorem measure_is_interval {D : Type} `{Double D} (elapsed_time : nat → D) :
  let samples := map elapsed_time (seq 0 30) in
  let m := d_div (fold_left d_add samples d_zero) (d_of_size 30) in
  let s2 :=
    d_div
      (fold_left (λ s x, d_add s (d_mul (d_sub x m) (d_sub x m))) samples
         d_zero)
      (d_of_size 29) in
  let h :=
    d_mul (d_literal 3.646%Q) (d_div (d_sqrt s2) (d_sqrt (d_of_size 30))) in
  foldl (λ samples i, add (elapsed_time i) samples) (construct num_times)
    (seq 0 num_times) = samples ∧
  well_defined samples ∧
  mean_divisor samples = 30 ∧ variance_divisor samples = 29 ∧
  table_read (table_index samples) = Some 3.646%Q ∧
  last t_critical_value = Some 3.646%Q ∧
  measure elapsed_time = Some (d_sub m h, m, d_add m h).
Proof.
  intros samples m s2 h.
  assert (foldl (λ samples i, add (elapsed_time i) samples)
            (construct num_times) (seq 0 num_times) = samples) as Hs
    by (unfold construct, num_times; by rewrite foldl_add).
  assert (length samples = 30%nat) as Hlen
    by (unfold samples; by rewrite length_map, length_seq).
  split_and!; [done| | | | |done|].
  - unfold well_defined, mean_divisor, variance_divisor, table_index, size.
    rewrite Hlen. by vm_compute.
  - unfold mean_divisor, size. by rewrite Hlen.
  - unfold variance_divisor, size. by rewrite Hlen.
  - unfold table_index, size. by rewrite Hlen.
  - unfold measure. rewrite Hs.
    destruct (mean_computes samples) as (t & Ht & Hm); [lia|].
    rewrite Hlen in Ht, Hm. injection Ht as <-. exact Hm.
Qed.

End MeanconfFacts.

(** ** Sense alternation *)

Module Episodes.

Lemma centralized_exec_num_threads v num_episodes sched st tr st' :
  exec (Centralized.step v num_episodes) sched st = Some (tr, st') →
  Centralized.num_threads (Centralized.bar st')
  = Centralized.num_threads (Centralized.bar st).
Proof.
  intros H.
  by eapply (exec_invariant (Centralized.step v num_episodes)
               (λ s, Centralized.num_threads (Centralized.bar s)
                     = Centralized.num_threads (Centralized.bar st)))
    in H; [|intros i s e s1 <-; apply CentralizedFacts.step_num_threads|].
Qed.

(** C4: in each of the three barriers, along every interleaving from the
    initial state (local senses [false], no call completed), the local
    sense of every participant is the parity of the calls of [await] it
    has returned from, so it is at every return; and two calls later the
    local sense of a participant is what it was.  For the centralized
    barrier with four threads, in every reachable state between two
    episodes, [k] episodes completed, the counter is 0, the sense is
    [true] for even [k] and [false] for odd [k], and every local sense is
    the parity of [k]; and the states after episode 1 (counter 0, sense
    [false], local senses [true]) and after episode 2 (counter 0, sense
    [true], local senses [false]) are reached. *)
Theorem sense_alternation :
  (∀ v num_episodes n,
     Z.of_nat n < 2 ^ 32 →
     alternates (Centralized.step v num_episodes) Centralized.participants
       (Centralized.initial n)) ∧
  (∀ num_episodes ns,
     Forall (λ n, StaticTree.local_sense n = false) ns →
     alternates (StaticTree.step num_episodes) StaticTree.participants
       (StaticTree.initial ns)) ∧
  (∀ num_episodes ns,
     Forall (λ n, GlobalDeparture.local_sense n = false) ns →
     alternates (GlobalDeparture.step num_episodes)
       GlobalDeparture.participants (GlobalDeparture.initial ns)) ∧
  (∀ v num_episodes sched tr st k,
     exec (Centralized.step v num_episodes) sched (Centralized.initial 4)
       = Some (tr, st) →
     Centralized.between_episodes k st →
     Centralized.bar st = Centralized.mk_barrier 0 (negb (Nat.odd k)) 4 ∧
     length (Centralized.workers st) = 4%nat ∧
     ∀ i w, Centralized.workers st !! i = Some w →
       w = Centralized.mk_worker Centralized.outside (Nat.odd k) k) ∧
  ∃ tr1 tr2,
    exec (Centralized.step Centralized.await_release_acquire 2)
      Centralized.four_thread_episode (Centralized.initial 4)
    = Some (tr1,
            Centralized.mk_state (Centralized.mk_barrier 0 false 4)
              (replicate 4
                 (Centralized.mk_worker Centralized.outside true 1))) ∧
    exec (Centralized.step Centralized.await_release_acquire 2)
      Centralized.four_thread_episode
      (Centralized.mk_state (Centralized.mk_barrier 0 false 4)
         (replicate 4 (Centralized.mk_worker Centralized.outside true 1)))
    = Some (tr2,
            Centralized.mk_state (Centralized.mk_barrier 0 true 4)
              (replicate 4
                 (Centralized.mk_worker Centralized.outside false 2))).
Proof.
  split_and!.
  - intros v num_episodes n Hn. apply alternates_of_parity.
    intros sched tr st Hexec i ls k.
    intros (w & [= -> ->] & Hi)%list_lookup_fmap_Some.
    eapply CentralizedFacts.exec_episode_inv in Hexec;
      [|by apply CentralizedFacts.episode_inv_initial].
    by destruct (Centralized.inv_workers _ Hexec _ _ Hi) as [? _].
  - intros num_episodes ns Hall. apply alternates_of_parity.
    intros sched tr st Hexec i ls k.
    intros (n & w & [= -> ->] & Hn & Hi)%lookup_zip_with_Some.
    eapply StaticTreeFacts.st_exec_parity in Hexec;
      [|by apply StaticTreeFacts.st_initial_parity]. by eapply Hexec.
  - intros num_episodes ns Hall. apply alternates_of_parity.
    intros sched tr st Hexec i ls k.
    intros (n & w & [= -> ->] & Hn & Hi)%lookup_zip_with_Some.
    eapply GlobalDepartureFacts.gd_exec_parity in Hexec;
      [|by apply GlobalDepartureFacts.gd_initial_parity]. by eapply Hexec.
  - intros v num_episodes sched tr st k Hexec Hb.
    pose proof (centralized_exec_num_threads _ _ _ _ _ _ Hexec) as Hnt.
    eapply CentralizedFacts.exec_episode_inv in Hexec;
      [|by apply CentralizedFacts.episode_inv_initial].
    destruct (CentralizedFacts.episode_boundary k st Hexec Hb)
      as (Hc & Hs & Hl).
    pose proof (Centralized.inv_threads _ Hexec) as Hlen.
    simpl in Hnt. rewrite Hnt in Hlen.
    assert (length (Centralized.workers st) = 4%nat) as Hlen4 by lia.
    split_and!; [|done|].
    + destruct (Centralized.bar st) as [c s nt]. simpl in *.
      rewrite Hc, Hnt, Hs; [done|].
      by destruct (Centralized.workers st).
    + intros i w Hi. destruct (Hb _ _ Hi) as [Hp Hk].
      specialize (Hl _ _ Hi). destruct w. simpl in *. by subst.
  - eexists _, _. split; vm_compute; reflexivity.
Qed.

(** The state after the first episode of four threads. *)
Lemma sense_alternation_witness :
  Centralized.bar
    (Centralized.mk_state (Centralized.mk_barrier 0 false 4)
       (replicate 4 (Centralized.mk_worker Centralized.outside true 1)))
  = Centralized.mk_barrier 0 (negb (Nat.odd 1)) 4.
Proof.
  destruct sense_alternation as (_ & _ & _ & Hfour & tr1 & _ & Hrun & _).
  refine (proj1 (Hfour _ _ _ _ _ 1%nat Hrun _)).
  clear. intros i w Hi. cbn [Centralized.workers] in Hi.
  apply lookup_replicate in Hi as [-> _]. split; reflexivity.
Defined.

End Episodes.
